(** * Skillcape transcoder: job lifecycle engine

    A shallow embedding of the Go sources of the transcoder service
    (packages [jobs], [db], [storage], [transcoder], [webhook], [api],
    [config] and [main], and the pieces of the Go library and of gin that
    they rest on) together with the properties of the job lifecycle that
    the specification states about them.

    Conventions of the embedding:
    - a Go [int]/[int64] is a [Z]; where the source can overflow the
      wrap-around is written out ([wrap64]);
    - a Go [error] is an [option string] ([None] is [nil]);
    - a Go panic is the [Panicked] result of the monad [M]; deferred calls
      are written out at the places where Go would run them;
    - the process-wide state (database table, files on disk, the job
      queue, the clock, the log, the detached webhook goroutines) is the
      record [World], threaded through the state monad [M World];
    - a [*Job] handed to a processor is passed and returned by value: no
      two owners mutate the same in-memory job in the modelled paths. *)

From Stdlib Require Import ZArith Lia Ascii.
From stdpp Require Import gmap strings list sorting pretty.
From Stdlib Require Import SpecFloat.

Local Open Scope string_scope.
Local Open Scope list_scope.
Local Open Scope Z_scope.

(** ** The Go runtime: results, errors, panics *)

Module Go.

(** A Go [error] value; [None] is [nil]. *)
Definition error : Type := option string.

(** What a call leaves behind: a value, or a panic unwinding the stack. *)
Inductive Res (A : Type) : Type :=
| Val (a : A)
| Panicked (v : string).
Arguments Val {A} a.
Arguments Panicked {A} v.

(** State-and-panic monad over a state [S]. *)
Definition M (S A : Type) : Type := S -> Res A * S.

Definition ret {S A} (a : A) : M S A := fun s => (Val a, s).

Definition bind {S A B} (m : M S A) (k : A -> M S B) : M S B :=
  fun s =>
    match m s with
    | (Val a, s') => k a s'
    | (Panicked v, s') => (Panicked v, s')
    end.


Definition get {S} : M S S := fun s => (Val s, s).
Definition gets {S A} (f : S -> A) : M S A := fun s => (Val (f s), s).
Definition modify {S} (f : S -> S) : M S unit := fun s => (Val tt, f s).

(** [defer d] around [m]: [d] runs when [m] returns and when it panics;
    a panic of [m] keeps unwinding afterwards. *)
Definition with_defer {S A} (d : S -> S) (m : M S A) : M S A :=
  fun s => let '(r, s') := m s in (r, d s').

(** Run a computation on the second component of a pair state. *)
Definition lift_snd {S1 S2 A} (m : M S2 A) : M (S1 * S2) A :=
  fun s => let '(r, s2) := m (snd s) in (r, (fst s, s2)).

Definition wrap64 (z : Z) : Z := (z + 2 ^ 63) mod 2 ^ 64 - 2 ^ 63.

End Go.
Export Go.

Declare Scope go_scope.
Delimit Scope go_scope with go.
Notation "'let*' x ':=' m 'in' k" := (bind m (fun x => k))
  (at level 10, x name, m at level 100, k at level 200,
   format "'[v' 'let*'  x  ':='  m  'in' '/' k ']'") : go_scope.
Notation "'let*' ' pat ':=' m 'in' k" :=
  (bind m (fun x => match x with pat => k end))
  (at level 10, pat pattern, m at level 100, k at level 200) : go_scope.
Notation "'run' m 'in' k" := (bind m (fun _ => k))
  (at level 10, m at level 100, k at level 200,
   format "'[v' 'run'  m  'in' '/' k ']'") : go_scope.
Local Open Scope go_scope.

(** ** Package jobs: the job record *)

Module Jobs.

Inductive JobStatus : Type :=
| StatusPending
| StatusProcessing
| StatusCompleted
| StatusFailed
| StatusCancelled.

Global Instance JobStatus_eq_dec : EqDecision JobStatus.
Proof. solve_decision. Defined.

Definition status_string (s : JobStatus) : string :=
  match s with
  | StatusPending => "pending"
  | StatusProcessing => "processing"
  | StatusCompleted => "completed"
  | StatusFailed => "failed"
  | StatusCancelled => "cancelled"
  end.

(** Instants are abstract ticks of the world clock. *)
Definition Time : Type := Z.

Record Job : Type := mkJob {
  ID : string;
  Status : JobStatus;
  InputPath : string;
  OutputPath : string;
  DriveURL : string;
  DriveFileID : string;
  Progress : Z;
  Error : string;
  OriginalName : string;
  CreatedAt : Time;
  UpdatedAt : Time;
  CompletedAt : option Time;
  DeletedAt : option Time
}.

Global Instance Job_eq_dec : EqDecision Job.
Proof. solve_decision. Defined.

Definition set_Status (v : JobStatus) (j : Job) : Job :=
  mkJob (ID j) v (InputPath j) (OutputPath j) (DriveURL j) (DriveFileID j)
    (Progress j) (Error j) (OriginalName j) (CreatedAt j) (UpdatedAt j)
    (CompletedAt j) (DeletedAt j).
Definition set_DriveURL (v : string) (j : Job) : Job :=
  mkJob (ID j) (Status j) (InputPath j) (OutputPath j) v (DriveFileID j)
    (Progress j) (Error j) (OriginalName j) (CreatedAt j) (UpdatedAt j)
    (CompletedAt j) (DeletedAt j).
Definition set_DriveFileID (v : string) (j : Job) : Job :=
  mkJob (ID j) (Status j) (InputPath j) (OutputPath j) (DriveURL j) v
    (Progress j) (Error j) (OriginalName j) (CreatedAt j) (UpdatedAt j)
    (CompletedAt j) (DeletedAt j).
Definition set_Progress (v : Z) (j : Job) : Job :=
  mkJob (ID j) (Status j) (InputPath j) (OutputPath j) (DriveURL j)
    (DriveFileID j) v (Error j) (OriginalName j) (CreatedAt j) (UpdatedAt j)
    (CompletedAt j) (DeletedAt j).
Definition set_Error (v : string) (j : Job) : Job :=
  mkJob (ID j) (Status j) (InputPath j) (OutputPath j) (DriveURL j)
    (DriveFileID j) (Progress j) v (OriginalName j) (CreatedAt j)
    (UpdatedAt j) (CompletedAt j) (DeletedAt j).
Definition set_UpdatedAt (v : Time) (j : Job) : Job :=
  mkJob (ID j) (Status j) (InputPath j) (OutputPath j) (DriveURL j)
    (DriveFileID j) (Progress j) (Error j) (OriginalName j) (CreatedAt j) v
    (CompletedAt j) (DeletedAt j).
Definition set_CompletedAt (v : option Time) (j : Job) : Job :=
  mkJob (ID j) (Status j) (InputPath j) (OutputPath j) (DriveURL j)
    (DriveFileID j) (Progress j) (Error j) (OriginalName j) (CreatedAt j)
    (UpdatedAt j) v (DeletedAt j).
Definition set_DeletedAt (v : option Time) (j : Job) : Job :=
  mkJob (ID j) (Status j) (InputPath j) (OutputPath j) (DriveURL j)
    (DriveFileID j) (Progress j) (Error j) (OriginalName j) (CreatedAt j)
    (UpdatedAt j) (CompletedAt j) v.

Record JobResponse : Type := mkJobResponse {
  rID : string;
  rStatus : JobStatus;
  rProgress : Z;
  rDriveURL : string;
  rError : string;
  rOriginalName : string;
  rCreatedAt : Time;
  rCompletedAt : option Time
}.

Definition ToResponse (j : Job) : JobResponse :=
  mkJobResponse (ID j) (Status j) (Progress j) (DriveURL j) (Error j)
    (OriginalName j) (CreatedAt j) (CompletedAt j).

(** Custom errors of the package. *)
Definition ErrQueueFull : string := "job queue is full".
Definition ErrJobNotFound : string := "job not found".
Definition ErrJobCancelled : string := "job was cancelled".

(** The queue: a buffered channel of job references (its buffer and its
    capacity) and the running set.  The program never closes the channel
    ([Close] has no caller), so the buffer and the capacity are all the
    state a non-blocking send depends on while no goroutine is parked in
    a receive on the channel.  That is the channel as [World] keeps it,
    between two runs of a worker: a job that the runtime hands to a
    parked worker is there a job that is buffered and then received.
    The channel with its parked receivers, on which the outcome of a
    send depends in general, is [Chan] below. *)
Record Queue : Type := mkQueue {
  jobs : list Job;
  capacity : nat;
  running : gset string
}.

Definition NewQueue (bufferSize : nat) : Queue := mkQueue [] bufferSize ∅.

(** [select { case q.jobs <- job: ...; default: ... }] with no receiver
    parked: the send goes through exactly when the buffer has room;
    [None] is the default case. *)
Definition try_send (job : Job) (q : Queue) : option Queue :=
  if decide (length (jobs q) < capacity q)%nat
  then Some (mkQueue (jobs q ++ [job]) (capacity q) (running q))
  else None.

(** A receive from the channel; [None] where the receiver would be
    parked, which ends the run of a worker in [World]. *)
Definition Dequeue (q : Queue) : option (Job * Queue) :=
  match jobs q with
  | [] => None
  | j :: rest => Some (j, mkQueue rest (capacity q) (running q))
  end.

Definition MarkRunning (jobID : string) (q : Queue) : Queue :=
  mkQueue (jobs q) (capacity q) ({[jobID]} ∪ running q).

Definition MarkDone (jobID : string) (q : Queue) : Queue :=
  mkQueue (jobs q) (capacity q) (running q ∖ {[jobID]}).

Definition IsRunning (jobID : string) (q : Queue) : bool :=
  bool_decide (jobID ∈ running q).

Definition Size (q : Queue) : nat := length (jobs q).

End Jobs.
Export Jobs.

(** ** The channel of the queue, with the goroutines parked on it

    A goroutine that receives from the empty channel is parked on it, and
    the runtime hands the next job that is sent straight to the goroutine
    parked longest, without using the buffer.  On a channel made with
    size 0, which has no buffer, that is the only way for a send to go
    through. *)

Module Chan.

Record Chan : Type := mkChan {
  buf : list Job;     (* the jobs buffered, oldest first *)
  dataqsiz : nat;     (* the size given to make *)
  recvq : list Z      (* the goroutines parked in a receive, longest first *)
}.

(** [make(chan *Job, size)]. *)
Definition make (size : nat) : Chan := mkChan [] size [].

(** [full]: whether a send on the channel would have to wait. *)
Definition full (c : Chan) : bool :=
  if (dataqsiz c =? 0)%nat then bool_decide (recvq c = [])
  else (length (buf c) =? dataqsiz c)%nat.

(** [chansend] without blocking, the send of
    [select { case c <- job: ...; default: ... }].  On a channel that is
    full the send does not go through ([None]) and the default case
    runs.  Else a parked receiver takes the job directly, and is
    returned beside the channel; else the job goes to the buffer, if
    that has room.  No goroutine is ever parked in a send: the program
    has no other send. *)
Definition chansend (job : Job) (c : Chan) : option (Chan * option Z) :=
  if full c then None
  else
    match recvq c with
    | g :: rest => Some (mkChan (buf c) (dataqsiz c) rest, Some g)
    | [] =>
        if decide (length (buf c) < dataqsiz c)%nat
        then Some (mkChan (buf c ++ [job]) (dataqsiz c) [], None)
        else None
    end.

(** [chanrecv], blocking, of [<-c] by the goroutine [g]: the oldest job
    of the buffer, or [None] where [g] is parked until a send wakes
    it. *)
Definition chanrecv (g : Z) (c : Chan) : Chan * option Job :=
  match buf c with
  | job :: rest => (mkChan rest (dataqsiz c) (recvq c), Some job)
  | [] => (mkChan [] (dataqsiz c) (recvq c ++ [g]), None)
  end.

(** The queue on such a channel: the channel, the jobs received so far,
    each with the goroutine that received it, in the order of the
    receptions, and the log.  The running set plays no part in the
    sends and the receives and is left out. *)
Record Queue : Type := mkQueue {
  jobs : Chan;
  received : list (Z * Job);
  lines : list string
}.

Definition NewQueue (bufferSize : nat) : Queue := mkQueue (make bufferSize) [] [].

(** [Enqueue]: the send without blocking; the log line on success. *)
Definition Enqueue (job : Job) : M Queue Go.error :=
  fun q =>
    match chansend job (jobs q) with
    | Some (c, woken) =>
        (Val None,
         mkQueue c
           (received q ++ match woken with Some g => [(g, job)] | None => [] end)
           (lines q ++ ["Job " +:+ ID job +:+ " enqueued"]))
    | None => (Val (Some ErrQueueFull), q)
    end.

(** [Dequeue] by the goroutine [g]; [None] where [g] is parked: its call
    returns when a later [Enqueue] hands it a job. *)
Definition Dequeue (g : Z) : M Queue (option Job) :=
  fun q =>
    match chanrecv g (jobs q) with
    | (c, Some job) => (Val (Some job), mkQueue c (received q ++ [(g, job)]) (lines q))
    | (c, None) => (Val None, mkQueue c (received q) (lines q))
    end.

(** [Size]: [len(q.jobs)], the number of jobs buffered. *)
Definition Size (q : Queue) : nat := length (buf (jobs q)).

End Chan.

(** ** The process-wide state *)

Module Webhook.

Record Payload : Type := mkPayload {
  pJobID : string;
  pStatus : string;
  pDriveURL : string;
  pDriveFileID : string;
  pError : string;
  pOriginalName : string;
  pCompletedAt : Time
}.

Global Instance Payload_eq_dec : EqDecision Payload.
Proof. solve_decision. Defined.

End Webhook.
Export Webhook.

(** What the process does that an observer outside it can see, in the
    order in which it happens: log lines, writes to the jobs table, calls
    of the external collaborators and the webhook goroutines that
    [SendAsync] spawns. *)
Inductive Event : Type :=
| EvLog (msg : string)
| EvCreate (j : Job)
| EvSave (j : Job)
| EvSoftDelete (id : string)
| EvTranscode (input output : string) (err : Go.error)
| EvUpload (path name : string) (err : Go.error)
| EvSendAsync (url : string) (p : Payload).

Global Instance Event_eq_dec : EqDecision Event.
Proof. solve_decision. Defined.

Record World : Type := mkWorld {
  w_db : gmap string Job;        (* the jobs table, by primary key *)
  w_files : gmap string string;  (* local disk: path to content *)
  w_queue : Queue;               (* the one jobs.Queue of the process *)
  w_clock : Time;                (* time.Now() *)
  w_stop : bool;                 (* the pool context has been cancelled *)
  w_trace : list Event
}.

Definition set_db (f : gmap string Job -> gmap string Job) (w : World) : World :=
  mkWorld (f (w_db w)) (w_files w) (w_queue w) (w_clock w) (w_stop w) (w_trace w).
Definition set_files (f : gmap string string -> gmap string string) (w : World) : World :=
  mkWorld (w_db w) (f (w_files w)) (w_queue w) (w_clock w) (w_stop w) (w_trace w).
Definition set_queue (f : Queue -> Queue) (w : World) : World :=
  mkWorld (w_db w) (w_files w) (f (w_queue w)) (w_clock w) (w_stop w) (w_trace w).
Definition set_clock (f : Time -> Time) (w : World) : World :=
  mkWorld (w_db w) (w_files w) (w_queue w) (f (w_clock w)) (w_stop w) (w_trace w).
Definition emit (e : Event) (w : World) : World :=
  mkWorld (w_db w) (w_files w) (w_queue w) (w_clock w) (w_stop w) (w_trace w ++ [e]).

(** [time.Now().UTC()]: reads the clock, which then moves on. *)
Definition Now : M World Time :=
  fun w => (Val (w_clock w), set_clock (fun t => t + 1) w).

(** [log.Printf]. *)
Definition logf (msg : string) : M World unit := modify (emit (EvLog msg)).

(** [Queue.Enqueue] on the queue of the process. *)
Definition Enqueue (job : Job) : M World Go.error :=
  let* w := get in
  match try_send job (w_queue w) with
  | Some q' =>
      run modify (set_queue (fun _ => q')) in
      run logf ("Job " +:+ ID job +:+ " enqueued") in
      ret None
  | None => ret (Some ErrQueueFull)
  end.

(** ** Package db: the jobs table behind GORM

    The table is a finite map from the primary key to the row.  GORM's
    soft delete keeps the row and stamps [DeletedAt]; its queries and
    updates see only rows whose [DeletedAt] is null.  [DB.Save] writes
    every column of the record under its primary key: it updates the live
    row, and where no live row was updated it inserts with
    "on conflict update all", so a soft-deleted row is overwritten too.
    The timestamps GORM maintains on its own are left as the code sets
    them.  The store itself is taken to work: an operation fails only
    where the table gives it a reason (a key that is taken, a record that
    is not found), never for want of space, a lock or a connection.  The
    handlers keep their branches for such failures; nothing in [World]
    takes them. *)

Module DB.

Definition live (j : Job) : bool := bool_decide (DeletedAt j = None).

(** [CreateJob]: INSERT; the primary key must be new. *)
Definition CreateJob (job : Job) : M World Go.error :=
  let* w := get in
  match w_db w !! ID job with
  | Some _ => ret (Some "UNIQUE constraint failed: jobs.id")
  | None =>
      run modify (fun w => emit (EvCreate job) (set_db (insert (ID job) job) w)) in
      ret None
  end.

(** [GetJob]: first live row with this id. *)
Definition GetJob (id : string) : M World (option Job * Go.error) :=
  let* w := get in
  match w_db w !! id with
  | Some j => if live j then ret (Some j, None)
              else ret (None, Some "record not found")
  | None => ret (None, Some "record not found")
  end.

(** [UpdateJob]: [DB.Save]. *)
Definition UpdateJob (job : Job) : M World Go.error :=
  run modify (fun w => emit (EvSave job) (set_db (insert (ID job) job) w)) in
  ret None.

(** [DeleteJob]: soft delete of the live row with this id. *)
Definition DeleteJob (id : string) : M World Go.error :=
  let* now := Now in
  run modify (fun w =>
        emit (EvSoftDelete id)
          (set_db (alter (fun j => if live j then set_DeletedAt (Some now) j else j) id) w)) in
  ret None.

Definition is_pending (j : Job) : bool :=
  bool_decide (Status j = StatusPending ∨ Status j = StatusProcessing).

Definition created_le (a b : Job) : Prop := CreatedAt a <= CreatedAt b.

Global Instance created_le_dec : RelDecision created_le.
Proof. intros a b. unfold created_le. apply _. Defined.

(** [GetPendingJobs]: live rows with status pending or processing, by
    creation time. *)
Definition GetPendingJobs : M World (list Job * Go.error) :=
  let* w := get in
  ret (merge_sort created_le
         (filter (fun j => is_pending j && live j = true)
                 (snd <$> map_to_list (w_db w))),
       None).

Definition created_ge (a b : Job) : Prop := CreatedAt b <= CreatedAt a.

Global Instance created_ge_dec : RelDecision created_ge.
Proof. intros a b. unfold created_ge. apply _. Defined.

(** [ListJobs]: the number of live rows, and the page of at most [limit]
    live rows that starts [offset] rows into the live rows ordered by
    creation time, latest first.  The handler, the only caller, passes
    [1 <= limit <= 100] and [0 <= offset]; GORM leaves out a negative
    limit and an offset that is not positive. *)
Definition ListJobs (limit offset : Z) : M World (list Job * Z * Go.error) :=
  let* w := get in
  let rows := filter (fun j => live j = true) (snd <$> map_to_list (w_db w)) in
  let total := Z.of_nat (length rows) in
  let ordered := merge_sort created_ge rows in
  let from := drop (Z.to_nat offset) ordered in
  ret (if limit <? 0 then from else take (Z.to_nat limit) from, total, None).

End DB.

(** ** Package storage: local files *)

Module Storage.

Record LocalStorage : Type := mkLocalStorage { baseDir : string }.

(** [filepath.Ext]: the suffix of the last path element from its last
    dot on, or nothing. *)
Fixpoint ext_scan (rev_path acc : list ascii) : list ascii :=
  match rev_path with
  | [] => []
  | c :: rest =>
      if decide (c = "/"%char) then []
      else if decide (c = "."%char) then c :: acc
      else ext_scan rest (c :: acc)
  end.

Definition Ext (path : string) : string :=
  String.string_of_list_ascii (ext_scan (rev (String.list_ascii_of_string path)) []).

(** The elements of a path, between its separators; [cur] is the
    element being read, backwards. *)
Fixpoint path_elems (path cur : list ascii) : list string :=
  match path with
  | [] => [String.string_of_list_ascii (rev cur)]
  | c :: rest =>
      if decide (c = "/"%char)
      then String.string_of_list_ascii (rev cur) :: path_elems rest []
      else path_elems rest (c :: cur)
  end.

(** The elements that [Clean] keeps; [out] holds those kept so far, the
    last one first.  An empty element and [.] are dropped; [..] takes
    back the element before it, unless there is none to take back: then
    it is dropped at the root and kept elsewhere. *)
Fixpoint clean_elems (rooted : bool) (elems out : list string) : list string :=
  match elems with
  | [] => rev out
  | e :: rest =>
      if decide (e = "") then clean_elems rooted rest out
      else if decide (e = ".") then clean_elems rooted rest out
      else if decide (e = "..") then
        match out with
        | top :: out' =>
            if decide (top = "..") then clean_elems rooted rest (e :: out)
            else clean_elems rooted rest out'
        | [] => clean_elems rooted rest (if rooted then [] else [e])
        end
      else clean_elems rooted rest (e :: out)
  end.

(** [strings.Join(elems, "/")]. *)
Fixpoint join_sep (elems : list string) : string :=
  match elems with
  | [] => ""
  | [e] => e
  | e :: rest => e +:+ "/" +:+ join_sep rest
  end.

(** [filepath.Clean] on a system whose separator is the slash: the
    shortest path that names the same file by the text of the path
    alone; the empty path becomes [.]. *)
Definition Clean (path : string) : string :=
  match path with
  | EmptyString => "."
  | String c _ =>
      let rooted := bool_decide (c = "/"%char) in
      let kept := clean_elems rooted (path_elems (String.list_ascii_of_string path) []) [] in
      if rooted then "/" +:+ join_sep kept
      else match kept with
           | [] => "."
           | _ => join_sep kept
           end
  end.

(** [filepath.Join]: the elements from the first one that is not empty
    on, joined by separators and cleaned; the empty path where there is
    no such element. *)
Fixpoint Join (elems : list string) : string :=
  match elems with
  | [] => ""
  | e :: rest =>
      if decide (e = "") then Join rest
      else Clean (join_sep (e :: rest))
  end.

(** An uploaded multipart file: its name and its content, which may fail
    to read. *)
Record Upload : Type := mkUpload {
  Filename : string;
  Content : option string
}.

(** [SaveUpload]; the disk is taken to accept the file ([os.Create]
    succeeds), so that a save fails only where the upload cannot be read
    through. *)
Definition SaveUpload (ls : LocalStorage) (jobID filename : string)
    (reader : option string) : M World (string * Go.error) :=
  let ext := Ext filename in
  let savePath := Join [baseDir ls; "uploads"; jobID +:+ ext] in
  (* os.Create *)
  run modify (set_files (insert savePath "")) in
  match reader with
  | None =>
      (* io.Copy failed *)
      run modify (set_files (delete savePath)) in
      ret ("", Some "failed to write file: unexpected EOF")
  | Some content =>
      run modify (set_files (insert savePath content)) in
      ret (savePath, None)
  end.

Definition GetOutputPath (ls : LocalStorage) (jobID : string) : string :=
  Join [baseDir ls; "outputs"; jobID +:+ ".mp4"].

Definition DeleteFile (ls : LocalStorage) (path : string) : M World Go.error :=
  if decide (path = "") then ret None
  else
    let* w := get in
    match w_files w !! path with
    | None => ret (Some ("remove " +:+ path +:+ ": no such file or directory"))
    | Some _ => run modify (set_files (delete path)) in ret None
    end.

Definition CleanupJob (ls : LocalStorage) (inputPath outputPath : string) : M World unit :=
  run (if decide (inputPath ≠ "") then modify (set_files (delete inputPath)) else ret tt) in
  if decide (outputPath ≠ "") then modify (set_files (delete outputPath)) else ret tt.

(** [FileExists]: [os.Stat] succeeds. *)
Definition FileExists (ls : LocalStorage) (path : string) : M World bool :=
  let* w := get in
  ret (bool_decide (is_Some (w_files w !! path))).

(** [GetFileSize]: the size in bytes. *)
Definition GetFileSize (ls : LocalStorage) (path : string) : M World (Z * Go.error) :=
  let* w := get in
  match w_files w !! path with
  | None => ret (0, Some ("stat " +:+ path +:+ ": no such file or directory"))
  | Some content => ret (Z.of_nat (String.length content), None)
  end.

(** [OpenFile]: the file open for reading, given by what can be read
    from it. *)
Definition OpenFile (ls : LocalStorage) (path : string) : M World (option string * Go.error) :=
  let* w := get in
  match w_files w !! path with
  | None => ret (None, Some ("open " +:+ path +:+ ": no such file or directory"))
  | Some content => ret (Some content, None)
  end.

End Storage.

(** ** Package transcoder: the FFmpeg wrapper *)

Module Transcoder.

(** *** Pieces of the Go library the wrapper calls *)

Fixpoint strip_prefix (prefix s : string) : option string :=
  match prefix, s with
  | EmptyString, _ => Some s
  | String a p', String b s' =>
      if decide (a = b) then strip_prefix p' s' else None
  | String _ _, EmptyString => None
  end.

(** [strings.HasPrefix] and [strings.TrimPrefix]. *)
Definition HasPrefix (s prefix : string) : bool :=
  match strip_prefix prefix s with Some _ => true | None => false end.
Definition TrimPrefix (s prefix : string) : string :=
  match strip_prefix prefix s with Some r => r | None => s end.

Definition digit_val (c : ascii) : option Z :=
  let n := Z.of_nat (nat_of_ascii c) in
  if (48 <=? n) && (n <=? 57) then Some (n - 48) else None.

Fixpoint parse_digits (s : string) (acc : Z) : option Z :=
  match s with
  | EmptyString => Some acc
  | String c r =>
      match digit_val c with
      | Some d => parse_digits r (acc * 10 + d)
      | None => None
      end
  end.

Definition parse_uint (s : string) : option Z :=
  match s with
  | EmptyString => None
  | _ => parse_digits s 0
  end.

Definition minInt64 : Z := - 2 ^ 63.
Definition maxInt64 : Z := 2 ^ 63 - 1.

(** [strconv.ParseInt(s, 10, 64)]: an optional sign, then decimal
    digits; [None] is a syntax or range error. *)
Definition ParseInt (s : string) : option Z :=
  let signed :=
    match s with
    | String "+"%char r => (false, r)
    | String "-"%char r => (true, r)
    | _ => (false, s)
    end in
  match parse_uint (snd signed) with
  | None => None
  | Some un =>
      let v := if fst signed then - un else un in
      if (minInt64 <=? v) && (v <=? maxInt64) then Some v else None
  end.

(** IEEE 754 binary64 with round-to-nearest-even, as Go's [float64]. *)
Definition float64 : Type := spec_float.
Definition prec64 : Z := 53.
Definition emax64 : Z := 1024.

(** [float64(z)] for an integer [z]. *)
Definition float64_of_int (z : Z) : float64 :=
  binary_normalize prec64 emax64 z 0 false.

Definition fdiv (x y : float64) : float64 := SFdiv prec64 emax64 x y.
Definition fmul (x y : float64) : float64 := SFmul prec64 emax64 x y.

(** [int(f)]: truncation toward zero.  Go leaves the conversion of a NaN,
    an infinity or a value outside [int64] to the implementation; amd64
    yields the minimal [int64]. *)
Definition int_of_float64 (f : float64) : Z :=
  match f with
  | S754_zero _ => 0
  | S754_finite s m e =>
      let mag := if 0 <=? e then Z.pos m * 2 ^ e else Z.pos m / 2 ^ (- e) in
      let v := if s then - mag else mag in
      if (minInt64 <=? v) && (v <=? maxInt64) then v else minInt64
  | S754_infinity _ | S754_nan => minInt64
  end.

(** *** The wrapper *)

(** What the external programs do during one [Transcode] call. *)
Record FFmpegRun : Type := mkFFmpegRun {
  ff_duration : Z * Go.error;   (* result of getDuration (ffprobe), in ms *)
  ff_pipe : Go.error;           (* cmd.StdoutPipe() *)
  ff_start : Go.error;          (* cmd.Start() *)
  ff_stdout : list string;      (* the lines the scanner yields *)
  ff_wait : Go.error;           (* cmd.Wait() *)
  ff_output : option string     (* what ffmpeg leaves at the output path *)
}.

(** The files once the command [ffmpeg -i input ... -y output] has run:
    where it was started and has written an output, whole or in part,
    that output is at the output path, in place of what was there. *)
Definition written_files (r : FFmpegRun) (output : string)
    (files : gmap string string) : gmap string string :=
  match ff_pipe r, ff_start r, ff_output r with
  | None, None, Some content => <[output := content]> files
  | _, _, _ => files
  end.

(** The percentage computed for one [out_time_ms] value. *)
Definition percent (timeMs duration : Z) : Z :=
  let progress :=
    int_of_float64
      (fmul (fdiv (float64_of_int timeMs)
                  (float64_of_int (wrap64 (duration * 1000))))
            (float64_of_int 100)) in
  if 100 <? progress then 100 else progress.

Section Transcode.
Context {S : Type}.
(** The process-wide logger and the registered callback ([None]: nil). *)
Variable logf : string -> M S unit.
Variable onProgress : option (Z -> M S unit).

Definition scan_line (duration : Z) (line : string) : M S unit :=
  if HasPrefix line "out_time_ms=" then
    match onProgress with
    | Some cb =>
        if 0 <? duration then
          let timeStr := TrimPrefix line "out_time_ms=" in
          match ParseInt timeStr with
          | Some timeMs => cb (percent timeMs duration)
          | None => ret tt
          end
        else ret tt
    | None => ret tt
    end
  else ret tt.

Fixpoint scan (duration : Z) (lines : list string) : M S unit :=
  match lines with
  | [] => ret tt
  | line :: rest => run scan_line duration line in scan duration rest
  end.

Definition Transcode (r : FFmpegRun) : M S Go.error :=
  let* duration :=
    match ff_duration r with
    | (d, None) => ret d
    | (_, Some err) =>
        run logf ("Warning: could not get duration: " +:+ err) in ret 0
    end in
  match ff_pipe r with
  | Some err => ret (Some ("failed to get stdout pipe: " +:+ err))
  | None =>
  match ff_start r with
  | Some err => ret (Some ("failed to start ffmpeg: " +:+ err))
  | None =>
      run scan duration (ff_stdout r) in
      match ff_wait r with
      | Some err => ret (Some ("ffmpeg failed: " +:+ err))
      | None =>
          run (match onProgress with
               | Some cb => cb 100
               | None => ret tt
               end) in
          ret None
      end
  end
  end.
End Transcode.

(** The progress values a run delivers to a callback that only records
    them. *)
Definition record_progress (p : Z) : M (list Z) unit :=
  modify (fun l => (l ++ [p])%list).

Definition delivered (r : FFmpegRun) : list Z :=
  snd (Transcode (fun _ => ret tt) (Some record_progress) r []).

End Transcoder.

(** ** The conversions of [strconv] behind the configuration and the
       list handler *)

Module Strconv.
Import Transcoder.

Definition maxUint64 : Z := 2 ^ 64 - 1.

(** The two ways in which a conversion fails. *)
Inductive NumError : Type := ErrSyntax | ErrRange.

(** The digit loop of [ParseUint(s, 10, 64)], [n] being the value read
    so far: a byte that is no digit is a syntax error; a digit that takes
    the value past [maxUint64] is a range error, returned with
    [maxUint64]. *)
Fixpoint parse_uint64 (s : string) (n : Z) : Z * option NumError :=
  match s with
  | EmptyString => (n, None)
  | String c r =>
      match digit_val c with
      | None => (0, Some ErrSyntax)
      | Some d =>
          if maxUint64 / 10 + 1 <=? n then (maxUint64, Some ErrRange)
          else
            let n1 := n * 10 + d in
            if maxUint64 <? n1 then (maxUint64, Some ErrRange)
            else parse_uint64 r n1
      end
  end.

Definition ParseUint (s : string) : Z * option NumError :=
  match s with
  | EmptyString => (0, Some ErrSyntax)
  | _ => parse_uint64 s 0
  end.

(** [ParseInt(s, 10, 64)], with the value it returns beside an error:
    0 on a syntax error, the nearest [int64] on a range error. *)
Definition ParseInt (s : string) : Z * option NumError :=
  match s with
  | EmptyString => (0, Some ErrSyntax)
  | String c r =>
      (* Pick off leading sign. *)
      let '(neg, s') :=
        if decide (c = "+"%char) then (false, r)
        else if decide (c = "-"%char) then (true, r)
        else (false, s) in
      (* Convert unsigned and check range. *)
      match ParseUint s' with
      | (_, Some ErrSyntax) => (0, Some ErrSyntax)
      | (un, _) =>
          let cutoff := 2 ^ 63 in
          if negb neg && (cutoff <=? un) then (cutoff - 1, Some ErrRange)
          else if neg && (cutoff <? un) then (- cutoff, Some ErrRange)
          else (if neg then - un else un, None)
      end
  end.

(** [Atoi]: [ParseInt(s, 10, 0)] as an [int], which has 64 bits. *)
Definition Atoi (s : string) : Z * option NumError := ParseInt s.

End Strconv.

(** ** Package fmt: a format without operands

    [handleJobFailure] returns [fmt.Errorf(errMsg)]: the message is read
    as a format, with no operand to go with it.  What is not a verb is
    copied; [%%] gives a percent sign; every other verb comes out as a
    complaint about its missing operand, its flags, width and precision
    being read and dropped. *)

Module Fmt.

Definition byte (c : ascii) : Z := Z.of_nat (nat_of_ascii c).
Definition chr (n : Z) : ascii := ascii_of_nat (Z.to_nat n).

Definition percentBangString : list ascii := String.list_ascii_of_string "%!".
Definition missingString : list ascii := String.list_ascii_of_string "(MISSING)".
Definition badIndexString : list ascii := String.list_ascii_of_string "(BADINDEX)".
Definition noVerbString : list ascii := String.list_ascii_of_string "%!(NOVERB)".
Definition badWidthString : list ascii := String.list_ascii_of_string "%!(BADWIDTH)".
Definition badPrecString : list ascii := String.list_ascii_of_string "%!(BADPREC)".

(** The replacement character, as [writeRune] encodes it. *)
Definition runeError : list ascii := [chr 239; chr 191; chr 189].

(** The flags are read and dropped. *)
Definition is_flag (c : ascii) : bool :=
  bool_decide (c = "#"%char \/ c = "0"%char \/ c = "+"%char \/ c = "-"%char \/ c = " "%char).

Fixpoint skip_flags (s : list ascii) : list ascii :=
  match s with
  | c :: rest => if is_flag c then skip_flags rest else s
  | [] => []
  end.

(** [parsenum]: the digits at the start of [s], [num] being their value
    so far; whether there is a number, and what follows it.  A number
    past a million gives up and takes all that is left. *)
Fixpoint parsenum (s : list ascii) (num : Z) (isnum : bool) : bool * list ascii :=
  match s with
  | c :: rest =>
      match Transcoder.digit_val c with
      | Some d =>
          if 1000000 <? num then (false, [])
          else parsenum rest (num * 10 + d) true
      | None => (isnum, s)
      end
  | [] => (isnum, [])
  end.

(** The place of the first closing bracket. *)
Fixpoint closing (s : list ascii) : option nat :=
  match s with
  | [] => None
  | c :: rest =>
      if decide (c = "]"%char) then Some O else S <$> closing rest
  end.

(** [parseArgNumber] on a format that starts with an opening bracket:
    the bytes it takes, and whether they are an index [[n]]. *)
Definition parseArgNumber (s : list ascii) : nat * bool :=
  if (length s <? 3)%nat then (1%nat, false)
  else
    match closing (tail s) with
    | None => (1%nat, false)
    | Some k =>
        (S (S k),
         match parsenum (take k (tail s)) 0 false with
         | (true, []) => negb (k =? 0)%nat
         | _ => false
         end)
    end.

(** [argNumber] with no operand: an index, well-formed or not, is out
    of range.  What follows it, whether an index was found, and whether
    the indices so far are good. *)
Definition argNumber (s : list ascii) (good : bool) : list ascii * bool * bool :=
  match s with
  | c :: _ =>
      if decide (c = "["%char) then
        let '(wid, ok) := parseArgNumber s in (drop wid s, ok, false)
      else (s, false, good)
  | [] => (s, false, good)
  end.

(** [utf8.DecodeRuneInString] and [writeRune] on the verb: the bytes of
    the verb as they are written, and what follows the verb.  Bytes that
    do not start a well-formed rune are taken one at a time, and
    written as the replacement character. *)
Definition continuation (lo hi : Z) (c : ascii) : bool :=
  (lo <=? byte c) && (byte c <=? hi).

Definition decode_verb (s : list ascii) : list ascii * list ascii :=
  match s with
  | [] => ([], [])
  | s0 :: rest =>
      let b := byte s0 in
      if b <? 128 then ([s0], rest)
      else
        let bad := (runeError, rest) in
        let '(sz, lo, hi) :=
          if (194 <=? b) && (b <=? 223) then (2%nat, 128, 191)
          else if b =? 224 then (3%nat, 160, 191)
          else if (225 <=? b) && (b <=? 236) then (3%nat, 128, 191)
          else if b =? 237 then (3%nat, 128, 159)
          else if (238 <=? b) && (b <=? 239) then (3%nat, 128, 191)
          else if b =? 240 then (4%nat, 144, 191)
          else if (241 <=? b) && (b <=? 243) then (4%nat, 128, 191)
          else if b =? 244 then (4%nat, 128, 143)
          else (1%nat, 0, 0) in
        if (sz =? 1)%nat then bad
        else if (length s <? sz)%nat then bad
        else
          match rest with
          | s1 :: r1 =>
              if negb (continuation lo hi s1) then bad
              else if (sz <=? 2)%nat then ([s0; s1], r1)
              else
                match r1 with
                | s2 :: r2 =>
                    if negb (continuation 128 191 s2) then bad
                    else if (sz <=? 3)%nat then ([s0; s1; s2], r2)
                    else
                      match r2 with
                      | s3 :: r3 =>
                          if negb (continuation 128 191 s3) then bad
                          else ([s0; s1; s2; s3], r3)
                      | [] => bad
                      end
                | [] => bad
                end
          | [] => bad
          end
  end.

(** One verb, the percent sign being read already: what it writes, and
    what follows it. *)
Definition verb (s : list ascii) : list ascii * list ascii :=
  (* Do we have flags? *)
  let s := skip_flags s in
  (* Do we have an explicit argument index? *)
  let '(s, afterIndex, good) := argNumber s true in
  (* Do we have width? *)
  let '(out1, s, afterIndex, good) :=
    match s with
    | c :: rest =>
        if decide (c = "*"%char) then (badWidthString, rest, false, good)
        else
          let '(isnum, rest') := parsenum s 0 false in
          ([], rest', afterIndex, good && negb (afterIndex && isnum))
    | [] => ([], [], afterIndex, good)
    end in
  (* Do we have precision? *)
  let '(out2, s, afterIndex, good) :=
    match s with
    | c :: rest =>
        if decide (c = "."%char) then
          let good := good && negb afterIndex in
          let '(rest, afterIndex, good) := argNumber rest good in
          match rest with
          | c' :: rest' =>
              if decide (c' = "*"%char) then (badPrecString, rest', false, good)
              else ([], snd (parsenum rest 0 false), afterIndex, good)
          | [] => ([], [], afterIndex, good)
          end
        else ([], s, afterIndex, good)
    | [] => ([], [], afterIndex, good)
    end in
  let '(s, afterIndex, good) :=
    if afterIndex then (s, afterIndex, good) else argNumber s good in
  match s with
  | [] => (out1 ++ out2 ++ noVerbString, [])
  | c :: _ =>
      let '(v, rest) := decode_verb s in
      (out1 ++ out2 ++
         (if decide (c = "%"%char) then ["%"%char]
          else if good then percentBangString ++ v ++ missingString
          else percentBangString ++ v ++ badIndexString),
       rest)
  end.

(** [doPrintf] with no operand; [fuel] bounds the verbs, each of which
    takes at least its percent sign. *)
Fixpoint doPrintf (fuel : nat) (format : list ascii) : list ascii :=
  match fuel with
  | O => []
  | S fuel' =>
      match format with
      | [] => []
      | c :: rest =>
          if decide (c = "%"%char) then
            let '(out, rest') := verb rest in out ++ doPrintf fuel' rest'
          else c :: doPrintf fuel' rest
      end
  end.

Definition Sprintf (format : string) : string :=
  String.string_of_list_ascii
    (doPrintf (String.length format) (String.list_ascii_of_string format)).

(** [Errorf(format)]: the text of the error it returns. *)
Definition Errorf (format : string) : string := Sprintf format.

End Fmt.

(** ** Package webhook: the notifier *)

Module WebhookClient.

Record Client : Type := mkClient { retryCount : Z }.

Definition NewClient (retryCount : Z) : Client := mkClient retryCount.

(** What one HTTP exchange with the endpoint comes to. *)
Inductive Reply : Type :=
| ReplyStatus (code : Z)
| ReplyTransportError (msg : string)
| ReplyTimeout.

(** The surroundings of one [Send] call: whether the URL parses; whether
    the caller's context is done before the backoff that precedes a given
    attempt has elapsed, and if so with which [ctx.Err()]; and what the
    endpoint answers to the [k]-th request issued. *)
Record Env : Type := mkEnv {
  url_parses : string -> bool;
  ctx_done : Z -> Go.error;
  reply : nat -> Reply
}.

(** What [Send] leaves behind: the requests issued and the log. *)
Record Net : Type := mkNet {
  n_requests : list (string * Payload);
  n_log : list string
}.

Definition net0 : Net := mkNet [] [].

Definition net_log (msg : string) : M Net unit :=
  modify (fun n => mkNet (n_requests n) (n_log n ++ [msg])).

Definition sendRequest (env : Env) (url : string) (jsonData : Payload) : M Net Go.error :=
  if negb (url_parses env url) then ret (Some "failed to create request: parse error")
  else
    let* k := gets (fun n => length (n_requests n)) in
    run modify (fun n => mkNet (n_requests n ++ [(url, jsonData)]) (n_log n)) in
    match reply env k with
    | ReplyTransportError msg => ret (Some ("request failed: " +:+ msg))
    | ReplyTimeout => ret (Some "request failed: context deadline exceeded")
    | ReplyStatus code =>
        if (200 <=? code) && (code <? 300) then ret None
        else ret (Some ("webhook returned status " +:+ pretty code))
    end.

(** [time.Duration(1<<uint(attempt-1)) * time.Second], in nanoseconds. *)
Definition backoff (attempt : Z) : Z :=
  wrap64 (wrap64 (2 ^ (attempt - 1)) * 1000000000).

Definition err_text (e : Go.error) : string :=
  match e with Some m => m | None => "%!w(<nil>)" end.

(** The retry loop, [n] iterations left, at [attempt]. *)
Fixpoint attempts (c : Client) (env : Env) (url : string) (payload : Payload)
    (n : nat) (attempt : Z) (lastErr : Go.error) : M Net Go.error :=
  match n with
  | O =>
      ret (Some ("webhook failed after " +:+ pretty (retryCount c + 1)
                 +:+ " attempts: " +:+ err_text lastErr))
  | S n' =>
      let* cancelled :=
        if 0 <? attempt then
          run net_log ("Webhook retry " +:+ pretty attempt +:+ "/"
                       +:+ pretty (retryCount c) +:+ " for job " +:+ pJobID payload
                       +:+ " in " +:+ pretty (backoff attempt) +:+ "ns") in
          (* select { case <-ctx.Done(): ...; case <-time.After(backoff): } *)
          ret (ctx_done env attempt)
        else ret None in
      match cancelled with
      | Some ctxErr => ret (Some ctxErr)
      | None =>
          let* err := sendRequest env url payload in
          match err with
          | None =>
              run net_log ("Webhook sent successfully for job " +:+ pJobID payload) in
              ret None
          | Some e =>
              run net_log ("Webhook attempt " +:+ pretty (attempt + 1)
                           +:+ " failed for job " +:+ pJobID payload +:+ ": " +:+ e) in
              attempts c env url payload n' (attempt + 1) (Some e)
          end
      end
  end.

(** [Send].  Encoding the payload, a struct of strings, cannot fail; the
    request body is kept as the payload itself. *)
Definition Send (c : Client) (env : Env) (url : string) (payload : Payload) : M Net Go.error :=
  if decide (url = "") then
    run net_log ("No webhook URL configured, skipping notification for job "
                 +:+ pJobID payload) in
    ret None
  else attempts c env url payload (Z.to_nat (retryCount c + 1)) 0 None.

(** [SendAsync]: the send runs in a goroutine of its own. *)
Definition SendAsync (c : Client) (url : string) (payload : Payload) : M World unit :=
  modify (emit (EvSendAsync url payload)).

End WebhookClient.

(** ** Package jobs: the worker pool *)

Module Pool.

(** A processor works on the job it is handed and on the world. *)
Definition ProcessorFunc : Type := M (Job * World) Go.error.

Record WorkerPool : Type := mkWorkerPool {
  numWorkers : Z;
  processor : ProcessorFunc
}.

Definition processJob (wp : WorkerPool) (workerID : Z) (job : Job) : M World unit :=
  run logf ("Worker " +:+ pretty workerID +:+ ": processing job " +:+ ID job) in
  run modify (set_queue (MarkRunning (ID job))) in
  (* defer wp.queue.MarkDone(job.ID) *)
  with_defer (set_queue (MarkDone (ID job)))
    (let* start := Now in
     let* err := (fun w => let '(r, (_, w')) := processor wp (job, w) in (r, w')) in
     let* stop := Now in
     let duration := stop - start in
     match err with
     | Some e =>
         logf ("Worker " +:+ pretty workerID +:+ ": job " +:+ ID job
               +:+ " failed after " +:+ pretty duration +:+ ": " +:+ e)
     | None =>
         logf ("Worker " +:+ pretty workerID +:+ ": job " +:+ ID job
               +:+ " completed in " +:+ pretty duration)
     end).

(** How a run of the worker loop ends in the model: the pool context was
    cancelled, the queue is empty (the goroutine would block in the
    select), or the iteration bound of the model is used up. *)
Inductive WorkerExit : Type := ExitStopped | ExitIdle | ExitBound.

(** The loop of one worker, at most [fuel] iterations.  Where both cases
    of the select are ready the model takes the cancellation.  The
    receive never reports a closed channel, the program closing none. *)
Fixpoint worker_loop (wp : WorkerPool) (id : Z) (fuel : nat) : M World WorkerExit :=
  match fuel with
  | O => ret ExitBound
  | S fuel' =>
      let* w := get in
      if w_stop w then
        run logf ("Worker " +:+ pretty id +:+ " stopping") in ret ExitStopped
      else
        match Dequeue (w_queue w) with
        | None => ret ExitIdle
        | Some (job, q') =>
            run modify (set_queue (fun _ => q')) in
            run processJob wp id job in
            worker_loop wp id fuel'
        end
  end.

Definition worker (wp : WorkerPool) (id : Z) (fuel : nat) : M World WorkerExit :=
  run logf ("Worker " +:+ pretty id +:+ " started") in
  worker_loop wp id fuel.

End Pool.

(** ** Package api: the handlers and the key check *)

Module Api.
Import Storage.

Inductive Body : Type :=
| ErrorBody (msg : string)
| MessageBody (msg : string)
| JobBody (job : JobResponse).

Record Response : Type := mkResponse { code : Z; body : Body }.

Record Handler : Type := mkHandler { localStorage : LocalStorage }.

(** [CreateJob]; [uuid] is the identifier [uuid.New()] draws and [file]
    the form file of the request, if it has one. *)
Definition CreateJob (h : Handler) (uuid : string) (file : option Upload) : M World Response :=
  match file with
  | None => ret (mkResponse 400 (ErrorBody "no file uploaded"))
  | Some header =>
      let jobID := uuid in
      let* '(inputPath, err) :=
        SaveUpload (localStorage h) jobID (Filename header) (Content header) in
      match err with
      | Some _ => ret (mkResponse 500 (ErrorBody "failed to save uploaded file"))
      | None =>
          let* created := Now in
          let* updated := Now in
          let job :=
            mkJob jobID StatusPending inputPath
              (GetOutputPath (localStorage h) jobID) "" "" 0 ""
              (Filename header) created updated None None in
          let* err := DB.CreateJob job in
          match err with
          | Some _ =>
              run DeleteFile (localStorage h) inputPath in
              ret (mkResponse 500 (ErrorBody "failed to create job"))
          | None =>
              let* err := Enqueue job in
              match err with
              | Some _ =>
                  ret (mkResponse 503
                         (ErrorBody "job queue is full, please try again later"))
              | None => ret (mkResponse 202 (JobBody (ToResponse job)))
              end
          end
      end
  end.

(** [DeleteJob]: cancel or delete. *)
Definition DeleteJob (h : Handler) (jobID : string) : M World Response :=
  let* found := DB.GetJob jobID in
  match found with
  | (Some job, None) =>
      let* job :=
        if decide (Status job = StatusPending ∨ Status job = StatusProcessing) then
          let* now := Now in
          let job := set_UpdatedAt now (set_Status StatusCancelled job) in
          run DB.UpdateJob job in
          ret job
        else ret job in
      run CleanupJob (localStorage h) (InputPath job) (OutputPath job) in
      let* err := DB.DeleteJob jobID in
      match err with
      | Some _ => ret (mkResponse 500 (ErrorBody "failed to delete job"))
      | None => ret (mkResponse 200 (MessageBody "job deleted"))
      end
  | _ => ret (mkResponse 404 (ErrorBody "job not found"))
  end.

Definition NewHandler (localStorage : LocalStorage) : Handler := mkHandler localStorage.

(** [HealthCheck]: the status and the time of the answer. *)
Record Health : Type := mkHealth { hcode : Z; hstatus : string; htimestamp : Time }.

Definition HealthCheck (h : Handler) : M World Health :=
  let* now := Now in
  ret (mkHealth 200 "healthy" now).

(** [GetJob]: the status of one job. *)
Definition GetJob (h : Handler) (jobID : string) : M World Response :=
  let* found := DB.GetJob jobID in
  match found with
  | (Some job, None) => ret (mkResponse 200 (JobBody (ToResponse job)))
  | _ => ret (mkResponse 404 (ErrorBody "job not found"))
  end.

(** The query of a request: its pairs of key and value, in order. *)
Definition Values : Type := list (string * string).

(** [c.GetQuery]: the first value given for the key, and whether there
    is one. *)
Definition GetQuery (query : Values) (key : string) : string * bool :=
  match filter (fun kv => fst kv = key) query with
  | kv :: _ => (snd kv, true)
  | [] => ("", false)
  end.

Definition DefaultQuery (query : Values) (key defaultValue : string) : string :=
  let '(value, ok) := GetQuery query key in
  if ok then value else defaultValue.

Inductive ListBody : Type :=
| ListErrorBody (msg : string)
| PageBody (jobs : list JobResponse) (total limit offset : Z).

Record ListResponse : Type := mkListResponse { lcode : Z; lbody : ListBody }.

(** [ListJobs]: one page of the jobs. *)
Definition ListJobs (h : Handler) (query : Values) : M World ListResponse :=
  let limit := fst (Strconv.Atoi (DefaultQuery query "limit" "20")) in
  let offset := fst (Strconv.Atoi (DefaultQuery query "offset" "0")) in
  let limit := if 100 <? limit then 100 else limit in
  let limit := if limit <? 1 then 20 else limit in
  let offset := if offset <? 0 then 0 else offset in
  let* '(jobList, total, err) := DB.ListJobs limit offset in
  match err with
  | Some _ => ret (mkListResponse 500 (ListErrorBody "failed to list jobs"))
  | None =>
      (* Convert to response format *)
      let responses := ToResponse <$> jobList in
      ret (mkListResponse 200 (PageBody responses total limit offset))
  end.

(** Request headers by canonical name, each with its values in order. *)
Record Context : Type := mkContext { headers : gmap string (list string) }.

Definition is_lower (c : ascii) : bool :=
  let n := nat_of_ascii c in (97 <=? n)%nat && (n <=? 122)%nat.
Definition is_upper (c : ascii) : bool :=
  let n := nat_of_ascii c in (65 <=? n)%nat && (n <=? 90)%nat.
Definition to_upper (c : ascii) : ascii :=
  if is_lower c then ascii_of_nat (nat_of_ascii c - 32) else c.
Definition to_lower (c : ascii) : ascii :=
  if is_upper c then ascii_of_nat (nat_of_ascii c + 32) else c.

(** [textproto.CanonicalMIMEHeaderKey] on header names made of letters,
    digits and hyphens: a capital at the start and after each hyphen. *)
Fixpoint canonical (upper : bool) (s : string) : string :=
  match s with
  | EmptyString => EmptyString
  | String c r =>
      String (if upper then to_upper c else to_lower c)
             (canonical (bool_decide (c = "-"%char)) r)
  end.

Definition CanonicalMIMEHeaderKey (s : string) : string := canonical true s.

(** [c.GetHeader]: the first value of the header, or the empty string. *)
Definition GetHeader (c : Context) (key : string) : string :=
  match headers c !! CanonicalMIMEHeaderKey key with
  | Some (v :: _) => v
  | _ => ""
  end.

Inductive AuthResult : Type :=
| Next
| AbortWithStatusJSON (code : Z) (err : string).

Definition APIKeyAuth (apiKey : string) (c : Context) : AuthResult :=
  if decide (apiKey = "") then Next
  else
    let providedKey := GetHeader c "X-API-Key" in
    if decide (providedKey = "") then AbortWithStatusJSON 401 "missing API key"
    else if decide (providedKey ≠ apiKey) then AbortWithStatusJSON 401 "invalid API key"
    else Next.

End Api.

(** ** Package main: the pipeline and the recovery *)

Module Main.
Import Storage WebhookClient Pool Transcoder.

Record Config : Type := mkConfig {
  Port : string;
  APIKey : string;
  WorkerCount : Z;
  TempDir : string;
  GoogleCredentialsFile : string;
  GoogleDriveFolderID : string;
  WebhookURL : string;
  WebhookRetryCount : Z
}.

(** The Drive client as the pipeline sees it: [UploadFile] answers with
    a file id, a link and an error, or panics. *)
Record GoogleDriveClient : Type := mkGoogleDriveClient {
  UploadFile : string -> string -> Res (string * string * Go.error)
}.

(** Access to the job a processor was handed, and to the world. *)
Definition theJob : M (Job * World) Job := gets fst.
Definition setJob (f : Job -> Job) : M (Job * World) unit :=
  modify (fun s => (f (fst s), snd s)).
Definition inWorld {A} (m : M World A) : M (Job * World) A := lift_snd m.
(** [db.UpdateJob(job)], the result dropped. *)
Definition saveJob : M (Job * World) unit :=
  let* job := theJob in
  run inWorld (DB.UpdateJob job) in
  ret tt.

Definition handleJobFailure (webhookClient : Client) (webhookURL errMsg : string)
    : M (Job * World) Go.error :=
  let* job := theJob in
  run inWorld (logf ("Job " +:+ ID job +:+ " failed: " +:+ errMsg)) in
  let* now := inWorld Now in
  run setJob (set_Status StatusFailed) in
  run setJob (set_Error errMsg) in
  run setJob (set_CompletedAt (Some now)) in
  run setJob (set_UpdatedAt now) in
  run saveJob in
  let* job := theJob in
  run inWorld (SendAsync webhookClient webhookURL
                 (mkPayload (ID job) (status_string (Status job)) "" "" errMsg
                    (OriginalName job) now)) in
  ret (Some (Fmt.Errorf errMsg)).

(** The progress callback the processor registers; the job it closes
    over is the job of the state. *)
Definition progressCallback (progress : Z) : M (Job * World) unit :=
  run setJob (set_Progress progress) in
  let* now := inWorld Now in
  run setJob (set_UpdatedAt now) in
  saveJob.

(** The name under which the output is uploaded. *)
Definition outputName (job : Job) : string :=
  let name := OriginalName job in
  if (4 <? String.length name)%nat
  then String.substring 0 (String.length name - 4) name +:+ ".mp4"
  else ID job +:+ ".mp4".

(** [createJobProcessor]; [ffmpeg] tells what the external programs do
    for a given input and output path, the output file they write
    included. *)
Definition createJobProcessor (cfg : Config) (localStorage : LocalStorage)
    (driveClient : option GoogleDriveClient) (webhookClient : Client)
    (ffmpeg : string -> string -> FFmpegRun) : ProcessorFunc :=
  (* Update job status to processing *)
  run setJob (set_Status StatusProcessing) in
  let* now := inWorld Now in
  run setJob (set_UpdatedAt now) in
  run saveJob in
  (* Transcode the video, with the progress callback *)
  let* job := theJob in
  let* err :=
    Transcode (fun msg => inWorld (logf msg)) (Some progressCallback)
      (ffmpeg (InputPath job) (OutputPath job)) in
  (* by now the external program has written what it writes *)
  run inWorld (modify (set_files
                 (written_files (ffmpeg (InputPath job) (OutputPath job))
                    (OutputPath job)))) in
  run inWorld (modify (emit (EvTranscode (InputPath job) (OutputPath job) err))) in
  match err with
  | Some e =>
      handleJobFailure webhookClient (WebhookURL cfg) ("transcoding failed: " +:+ e)
  | None =>
      (* Upload to Google Drive if configured *)
      let* failed :=
        match driveClient with
        | None => ret None
        | Some drive =>
            let* job := theJob in
            let* '(fileID, webViewLink, err) :=
              (fun s => (UploadFile drive (OutputPath job) (outputName job), s)) in
            run inWorld (modify (emit (EvUpload (OutputPath job) (outputName job) err))) in
            match err with
            | Some e => ret (Some ("drive upload failed: " +:+ e))
            | None =>
                run setJob (set_DriveFileID fileID) in
                run setJob (set_DriveURL webViewLink) in
                ret None
            end
        end in
      match failed with
      | Some errMsg => handleJobFailure webhookClient (WebhookURL cfg) errMsg
      | None =>
          (* Mark as completed *)
          let* now := inWorld Now in
          run setJob (set_Status StatusCompleted) in
          run setJob (set_Progress 100) in
          run setJob (set_CompletedAt (Some now)) in
          run setJob (set_UpdatedAt now) in
          run saveJob in
          (* Clean up local files after successful upload *)
          let* job := theJob in
          run (match driveClient with
               | Some _ => inWorld (CleanupJob localStorage (InputPath job) (OutputPath job))
               | None => ret tt
               end) in
          (* Send webhook notification *)
          run inWorld (SendAsync webhookClient (WebhookURL cfg)
                         (mkPayload (ID job) (status_string (Status job)) (DriveURL job)
                            (DriveFileID job) "" (OriginalName job) now)) in
          ret None
      end
  end.

(** The body of the recovery loop for one selected record. *)
Definition recoverJob (job : Job) : M World unit :=
  (* Reset status to pending for re-processing *)
  let job := set_Progress 0 (set_Status StatusPending job) in
  run DB.UpdateJob job in
  let* err := Enqueue job in
  match err with
  | Some e => logf ("Failed to re-enqueue job " +:+ ID job +:+ ": " +:+ e)
  | None => ret tt
  end.

Fixpoint recoverAll (pendingJobs : list Job) : M World unit :=
  match pendingJobs with
  | [] => ret tt
  | job :: rest => run recoverJob job in recoverAll rest
  end.

Definition recoverPendingJobs : M World unit :=
  let* '(pendingJobs, err) := DB.GetPendingJobs in
  match err with
  | Some e => logf ("Warning: failed to recover pending jobs: " +:+ e)
  | None =>
      if decide (length pendingJobs = 0%nat) then ret tt
      else
        run logf ("Recovering " +:+ pretty (Z.of_nat (length pendingJobs))
                  +:+ " pending jobs") in
        recoverAll pendingJobs
  end.

(** The world in which [main] starts on an empty data directory, with
    the queue of [bufferSize] slots it creates. *)
Definition initial (bufferSize : nat) : World :=
  mkWorld ∅ ∅ (NewQueue bufferSize) 0 false [].

End Main.

(** ** Package config: the settings of the process *)

Module Config.
Import Main.

(** [os.Getenv] on the environment of the process: the value of the
    variable, the empty string where it is not set. *)
Definition Getenv (env : gmap string string) (key : string) : string :=
  default "" (env !! key).

Definition getEnv (env : gmap string string) (key defaultValue : string) : string :=
  let value := Getenv env key in
  if decide (value ≠ "") then value else defaultValue.

Definition getEnvInt (env : gmap string string) (key : string) (defaultValue : Z) : Z :=
  let value := Getenv env key in
  if decide (value ≠ "") then
    match Strconv.Atoi value with
    | (intValue, None) => intValue
    | (_, Some _) => defaultValue
    end
  else defaultValue.

Definition Load (env : gmap string string) : Config :=
  mkConfig
    (getEnv env "PORT" "8080")
    (getEnv env "API_KEY" "")
    (getEnvInt env "WORKER_COUNT" 2)
    (getEnv env "TEMP_DIR" "/tmp/transcoder")
    (getEnv env "GOOGLE_CREDENTIALS_FILE" "/config/credentials.json")
    (getEnv env "GOOGLE_DRIVE_FOLDER_ID" "")
    (getEnv env "WEBHOOK_URL" "")
    (getEnvInt env "WEBHOOK_RETRY_COUNT" 3).

End Config.

(** ** Package storage: the Drive client

    The Drive service is outside the process: it is given by what it
    answers to each of the calls the client makes, and the calls made are
    recorded beside the state of the process. *)

Module Drive.

(** A file of Drive, as far as the client reads it. *)
Record File : Type := mkFile { Id : string; WebViewLink : string }.

(** The calls of the client on the service. *)
Inductive Call : Type :=
| FilesCreate (name : string) (parents : list string) (media : string)
| PermissionsCreate (fileId type role : string)
| FilesGet (fileId fields : string)
| FilesDelete (fileId : string).

(** The answers of the service.  No operation of the client makes the
    same call twice, so an answer is given by the call alone. *)
Record Service : Type := mkService {
  files_create : string -> list string -> string -> File * Go.error;
  permissions_create : string -> string -> string -> Go.error;
  files_get : string -> string -> File * Go.error;
  files_delete : string -> Go.error
}.

Record GoogleDriveClient : Type := mkGoogleDriveClient {
  service : Service;
  folderID : string
}.

(** The calls made so far, and the process. *)
Definition Session : Type := (list Call * World)%type.

Definition call (c : Call) : M Session unit :=
  modify (fun s => (fst s ++ [c], snd s)).

(** [UploadFileFromReader]; the reader is given by what can be read
    from it. *)
Definition UploadFileFromReader (gd : GoogleDriveClient) (reader fileName : string)
    : M Session (string * string * Go.error) :=
  (* Upload the file *)
  run call (FilesCreate fileName [folderID gd] reader) in
  match files_create (service gd) fileName [folderID gd] reader with
  | (_, Some err) => ret ("", "", Some ("failed to upload file: " +:+ err))
  | (uploadedFile, None) =>
      (* Make the file accessible via link *)
      run call (PermissionsCreate (Id uploadedFile) "anyone" "reader") in
      run (match permissions_create (service gd) (Id uploadedFile) "anyone" "reader" with
           | Some err =>
               lift_snd (logf ("Warning: failed to set file permissions: " +:+ err))
           | None => ret tt
           end) in
      (* Get the updated file with webViewLink *)
      run call (FilesGet (Id uploadedFile) "id, webViewLink") in
      match files_get (service gd) (Id uploadedFile) "id, webViewLink" with
      | (_, Some err) => ret ("", "", Some ("failed to get file info: " +:+ err))
      | (uploadedFile, None) =>
          run lift_snd (logf ("File uploaded to Drive: " +:+ fileName +:+ " (ID: "
                              +:+ Id uploadedFile +:+ ")")) in
          ret (Id uploadedFile, WebViewLink uploadedFile, None)
      end
  end.

(** [UploadFile]: the same for a local file, once it is open. *)
Definition UploadFile (gd : GoogleDriveClient) (filePath fileName : string)
    : M Session (string * string * Go.error) :=
  (* Open the file *)
  let* w := gets snd in
  match w_files w !! filePath with
  | None =>
      ret ("", "", Some ("failed to open file: open " +:+ filePath
                         +:+ ": no such file or directory"))
  | Some file =>
      (* Upload the file *)
      run call (FilesCreate fileName [folderID gd] file) in
      match files_create (service gd) fileName [folderID gd] file with
      | (_, Some err) => ret ("", "", Some ("failed to upload file: " +:+ err))
      | (uploadedFile, None) =>
          (* Make the file accessible via link *)
          run call (PermissionsCreate (Id uploadedFile) "anyone" "reader") in
          run (match permissions_create (service gd) (Id uploadedFile) "anyone" "reader" with
               | Some err =>
                   lift_snd (logf ("Warning: failed to set file permissions: " +:+ err))
               | None => ret tt
               end) in
          (* Get the updated file with webViewLink *)
          run call (FilesGet (Id uploadedFile) "id, webViewLink") in
          match files_get (service gd) (Id uploadedFile) "id, webViewLink" with
          | (_, Some err) => ret ("", "", Some ("failed to get file info: " +:+ err))
          | (uploadedFile, None) =>
              run lift_snd (logf ("File uploaded to Drive: " +:+ fileName +:+ " (ID: "
                                  +:+ Id uploadedFile +:+ ")")) in
              ret (Id uploadedFile, WebViewLink uploadedFile, None)
          end
      end
  end.

(** [DeleteFile]: removes a file from Drive. *)
Definition DeleteFile (gd : GoogleDriveClient) (fileID : string) : M Session Go.error :=
  if decide (fileID = "") then ret None
  else
    run call (FilesDelete fileID) in
    ret (files_delete (service gd) fileID).

(** [GetFileLink]: the shareable link for a file. *)
Definition GetFileLink (gd : GoogleDriveClient) (fileID : string)
    : M Session (string * Go.error) :=
  run call (FilesGet fileID "webViewLink") in
  match files_get (service gd) fileID "webViewLink" with
  | (_, Some err) => ret ("", Some err)
  | (file, None) => ret (WebViewLink file, None)
  end.

End Drive.

(** ** The parts of gin that the middleware and the router rest on *)

Module Gin.

(** What a handler renders into the response. *)
Inductive Rendered : Type :=
| RenderedJSON (b : Api.Body)
| RenderedList (b : Api.ListBody)
| RenderedHealth (status : string) (timestamp : Time)
| RenderedText (text : string).

(** The response writer of a request: the status, whether the header
    has gone out, the header and the body written so far. *)
Record ResponseWriter : Type := mkResponseWriter {
  rw_status : Z;
  rw_written : bool;
  rw_header : gmap string (list string);
  rw_body : list Rendered
}.

(** The writer gin hands to the first handler. *)
Definition writer0 : ResponseWriter := mkResponseWriter 200 false ∅ [].

(** A request being served: its writer, and the process around it. *)
Definition Exchange : Type := (ResponseWriter * World)%type.

Definition onWriter (f : ResponseWriter -> ResponseWriter) : M Exchange unit :=
  modify (fun s => (f (fst s), snd s)).

Definition WriteHeader (code : Z) (rw : ResponseWriter) : ResponseWriter :=
  if (0 <? code) && negb (rw_status rw =? code) then
    if rw_written rw then rw (* the header has gone out: a warning, no change *)
    else mkResponseWriter code (rw_written rw) (rw_header rw) (rw_body rw)
  else rw.

Definition WriteHeaderNow (rw : ResponseWriter) : ResponseWriter :=
  mkResponseWriter (rw_status rw) true (rw_header rw) (rw_body rw).

Definition Write (data : Rendered) (rw : ResponseWriter) : ResponseWriter :=
  let rw := WriteHeaderNow rw in
  mkResponseWriter (rw_status rw) (rw_written rw) (rw_header rw) (rw_body rw ++ [data]).

(** [c.Header]: sets the header, or removes it for an empty value. *)
Definition Header (key value : string) : M Exchange unit :=
  onWriter (fun rw =>
    mkResponseWriter (rw_status rw) (rw_written rw)
      (if decide (value = "") then delete (Api.CanonicalMIMEHeaderKey key) (rw_header rw)
       else <[Api.CanonicalMIMEHeaderKey key := [value]]> (rw_header rw))
      (rw_body rw)).

Definition writeContentType (value : string) (rw : ResponseWriter) : ResponseWriter :=
  match rw_header rw !! "Content-Type" with
  | Some (_ :: _) => rw
  | _ => mkResponseWriter (rw_status rw) (rw_written rw)
           (<["Content-Type" := [value]]> (rw_header rw)) (rw_body rw)
  end.

Definition bodyAllowedForStatus (status : Z) : bool :=
  if (100 <=? status) && (status <=? 199) then false
  else if status =? 204 then false
  else if status =? 304 then false
  else true.

Definition jsonContentType : string := "application/json; charset=utf-8".
Definition mimePlain : string := "text/plain".

(** [c.JSON]. *)
Definition JSON (code : Z) (obj : Rendered) : M Exchange unit :=
  run onWriter (WriteHeader code) in
  if bodyAllowedForStatus code then
    onWriter (fun rw => Write obj (writeContentType jsonContentType rw))
  else
    onWriter (fun rw => WriteHeaderNow (writeContentType jsonContentType rw)).

(** [c.AbortWithStatus] and [c.AbortWithStatusJSON]; that no later
    handler of the chain runs is for the caller to see to, who does not
    go on to the rest of the chain. *)
Definition AbortWithStatus (code : Z) : M Exchange unit :=
  run onWriter (WriteHeader code) in
  onWriter WriteHeaderNow.

Definition AbortWithStatusJSON (code : Z) (obj : Rendered) : M Exchange unit :=
  JSON code obj.

(** A handler of a chain, given the rest of the chain: it runs the rest
    where the source calls [c.Next()] or returns without aborting. *)
Definition HandlerFunc : Type := M Exchange unit -> M Exchange unit.

(** How gin serves a request that matches no route: the chain runs with
    the status preset, and the default body follows where the chain
    wrote nothing and left the status. *)
Definition serveError (code : Z) (defaultMessage : string) (chain : M Exchange unit)
    : M Exchange unit :=
  run onWriter (fun rw => mkResponseWriter code (rw_written rw) (rw_header rw) (rw_body rw)) in
  run chain in
  let* rw := gets fst in
  if rw_written rw then ret tt
  else if rw_status rw =? code then
    onWriter (fun rw =>
      Write (RenderedText defaultMessage)
        (mkResponseWriter (rw_status rw) (rw_written rw)
           (<["Content-Type" := [mimePlain]]> (rw_header rw)) (rw_body rw)))
  else onWriter WriteHeaderNow.

End Gin.

(** ** Package api: the middleware and the router *)

Module Router.
Import Storage Main Gin.

(** An incoming request, as far as the middleware and the handlers read
    it. *)
Record Request : Type := mkRequest {
  Method : string;
  Path : string;                (* URL.Path *)
  RawQuery : string;            (* URL.RawQuery *)
  Query : Api.Values;           (* URL.Query() *)
  ClientIP : string;
  Headers : Api.Context;
  FormFile : option Upload      (* the form file named file *)
}.

(** [%3d], [%13v], [%15s] and [%-7s]: padding with spaces to a width. *)
Definition spaces (n : nat) : string :=
  String.string_of_list_ascii (replicate n " "%char).
Definition pad_left (width : nat) (s : string) : string :=
  spaces (width - String.length s) +:+ s.
Definition pad_right (width : nat) (s : string) : string :=
  s +:+ spaces (width - String.length s).

(** [RequestLogger]: logs the request once the rest of the chain has
    returned; the time and the latency are printed as ticks of the
    clock. *)
Definition RequestLogger (req : Request) : HandlerFunc := fun next =>
  let* start := lift_snd Now in
  let path := Path req in
  let raw := RawQuery req in
  run next in
  let* stop := lift_snd Now in
  let latency := stop - start in
  let clientIP := ClientIP req in
  let method := Method req in
  let* statusCode := gets (fun s => rw_status (fst s)) in
  let path := if decide (raw ≠ "") then path +:+ "?" +:+ raw else path in
  let* now := lift_snd Now in
  lift_snd (logf (pretty now +:+ " | " +:+ pad_left 3 (pretty statusCode)
                  +:+ " | " +:+ pad_left 13 (pretty latency)
                  +:+ " | " +:+ pad_left 15 clientIP
                  +:+ " | " +:+ pad_right 7 method +:+ " " +:+ path)).

(** [CORS]: the headers on every response, and the answer to a
    preflight request. *)
Definition CORS (req : Request) : HandlerFunc := fun next =>
  run Header "Access-Control-Allow-Origin" "*" in
  run Header "Access-Control-Allow-Methods" "GET, POST, PUT, DELETE, OPTIONS" in
  run Header "Access-Control-Allow-Headers" "Origin, Content-Type, Accept, X-API-Key" in
  run Header "Access-Control-Max-Age" "86400" in
  if decide (Method req = "OPTIONS") then AbortWithStatus 204
  else next.

(** [Recovery]: a panic of the rest of the chain is logged and answered
    with status 500. *)
Definition Recovery : HandlerFunc := fun next s =>
  match next s with
  | (Panicked err, s') =>
      (run lift_snd (logf ("Panic recovered: " +:+ err)) in
       AbortWithStatusJSON 500 (RenderedJSON (Api.ErrorBody "internal server error"))) s'
  | (Val tt, s') => (Val tt, s')
  end.

(** [APIKeyAuth] as a handler of the chain. *)
Definition APIKeyAuth (apiKey : string) (req : Request) : HandlerFunc := fun next =>
  match Api.APIKeyAuth apiKey (Headers req) with
  | Api.Next => next
  | Api.AbortWithStatusJSON code err =>
      AbortWithStatusJSON code (RenderedJSON (Api.ErrorBody err))
  end.

(** The handlers, each ending in its one call of [c.JSON]. *)
Definition respond (m : M World Api.Response) : M Exchange unit :=
  let* r := lift_snd m in
  JSON (Api.code r) (RenderedJSON (Api.body r)).
Definition respond_list (m : M World Api.ListResponse) : M Exchange unit :=
  let* r := lift_snd m in
  JSON (Api.lcode r) (RenderedList (Api.lbody r)).
Definition respond_health (m : M World Api.Health) : M Exchange unit :=
  let* r := lift_snd m in
  JSON (Api.hcode r) (RenderedHealth (Api.hstatus r) (Api.htimestamp r)).

(** The route gin finds for a request among those that [SetupRouter]
    registers; [NoRoute] where it finds none, as for every request
    whose method has no route at all. *)
Inductive Route : Type :=
| GET_health
| POST_jobs
| GET_jobs
| GET_job (id : string)
| DELETE_job (id : string)
| NoRoute.

(** [SetupRouter]: the engine, as what it does with a request for which
    gin found [route]; [uuid] is the identifier a submission draws. *)
Definition SetupRouter (cfg : Config) (localStorage : LocalStorage)
    (uuid : string) (route : Route) (req : Request) : M Exchange unit :=
  (* Global middleware *)
  let global : HandlerFunc := fun rest =>
    Recovery (RequestLogger req (CORS req rest)) in
  (* Create handler *)
  let handler := Api.NewHandler localStorage in
  (* API v1 routes (auth required) *)
  let v1 : HandlerFunc := fun rest =>
    global (APIKeyAuth (APIKey cfg) req rest) in
  match route with
  | GET_health => global (respond_health (Api.HealthCheck handler))
  | POST_jobs => v1 (respond (Api.CreateJob handler uuid (FormFile req)))
  | GET_jobs => v1 (respond_list (Api.ListJobs handler (Query req)))
  | GET_job id => v1 (respond (Api.GetJob handler id))
  | DELETE_job id => v1 (respond (Api.DeleteJob handler id))
  | NoRoute => serveError 404 "404 page not found" (global (ret tt))
  end.

End Router.

(** * Vocabulary of the statements *)

Global Arguments Storage.Join : simpl never.
Global Arguments Storage.Ext : simpl never.

(** ** Requests and replies *)

(** The values of the [X-API-Key] header of a request, if present. *)
Definition key_header (c : Api.Context) : option (list string) :=
  Api.headers c !! "X-Api-Key".

(** An attempt succeeds on a 2xx status and on nothing else. *)
Definition reply_ok (r : WebhookClient.Reply) : bool :=
  match r with
  | WebhookClient.ReplyStatus code => (200 <=? code) && (code <? 300)
  | _ => false
  end.

(** ** The channel of the queue *)

(** A goroutine is parked in a receive only while the buffer is empty:
    the runtime parks a receiver on an empty buffer alone, and buffers a
    job only where no receiver is parked. *)
Definition parked_on_empty (c : Chan.Chan) : Prop :=
  Chan.recvq c <> [] -> Chan.buf c = [].

(** ** Versions of a job record *)

Definition terminal (s : JobStatus) : Prop :=
  s = StatusCompleted \/ s = StatusFailed \/ s = StatusCancelled.

(** [completed_at] is set exactly on completed and failed jobs. *)
Definition completion_ok (j : Job) : Prop :=
  CompletedAt j <> None <-> (Status j = StatusCompleted \/ Status j = StatusFailed).

(** Two versions of a job that differ at most in [Progress] and
    [UpdatedAt]. *)
Definition same_but_progress (j j' : Job) : Prop :=
  set_UpdatedAt 0 (set_Progress 0 j) = set_UpdatedAt 0 (set_Progress 0 j').

(** The versions of a job that the pipeline writes. *)
Definition processing_job (t : Time) (j : Job) : Job :=
  set_UpdatedAt t (set_Status StatusProcessing j).
Definition failed_job (msg : string) (t : Time) (j : Job) : Job :=
  set_UpdatedAt t (set_CompletedAt (Some t) (set_Error msg (set_Status StatusFailed j))).
Definition completed_job (t : Time) (j : Job) : Job :=
  set_UpdatedAt t (set_CompletedAt (Some t) (set_Progress 100 (set_Status StatusCompleted j))).

(** The version of a job that a cancel request writes. *)
Definition cancelled_job (t : Time) (j : Job) : Job :=
  set_UpdatedAt t (set_Status StatusCancelled j).

(** The soft delete of a row. *)
Definition stamp_deleted (t : Time) (j : Job) : Job :=
  if DB.live j then set_DeletedAt (Some t) j else j.

(** What the recovery makes of a selected row. *)
Definition reset_job (j : Job) : Job := set_Progress 0 (set_Status StatusPending j).

(** ** The table and the trace *)

(** Every row of the table sits under its own primary key. *)
Definition db_wf (db : gmap string Job) : Prop :=
  forall k j, db !! k = Some j -> ID j = k.

(** Soft-deleted rows are in a terminal state: the delete handler cancels
    an unfinished job before it deletes it. *)
Definition deleted_terminal (db : gmap string Job) : Prop :=
  forall k j, db !! k = Some j -> DeletedAt j <> None -> terminal (Status j).

(** The rows the recovery query returns: not soft-deleted, and pending or
    processing. *)
Definition recoverable (j : Job) : bool := DB.is_pending j && DB.live j.

(** Every version of a job record written to the table, in order. *)
Definition written (tr : list Event) : list Job :=
  omap (fun e => match e with
                 | EvCreate j | EvSave j => Some j
                 | _ => None
                 end) tr.

(** The statuses written to the jobs table, in order. *)
Definition saved_statuses (tr : list Event) : list (string * JobStatus) :=
  omap (fun e => match e with
                 | EvCreate j | EvSave j => Some (ID j, Status j)
                 | _ => None
                 end) tr.

(** The transcodes run, in order, by input and output path. *)
Definition transcodes (tr : list Event) : list (string * string) :=
  omap (fun e => match e with
                 | EvTranscode input output _ => Some (input, output)
                 | _ => None
                 end) tr.

(** The [out_time_ms] values among the lines of a run, in order. *)
Definition reported_times (lines : list string) : list Z :=
  omap (fun line =>
          if Transcoder.HasPrefix line "out_time_ms="
          then Transcoder.ParseInt (Transcoder.TrimPrefix line "out_time_ms=")
          else None) lines.

(** What the recovery of the selected rows leaves in the trace when the
    queue has [free] slots left: for each row in turn the saved, reset
    version and then the log line of its enqueue attempt. *)
Fixpoint recovery_events (free : nat) (sel : list Job) : list Event :=
  match sel with
  | [] => []
  | j :: rest =>
      EvSave (reset_job j)
      :: EvLog (match free with
                | O => "Failed to re-enqueue job " +:+ ID j +:+ ": " +:+ ErrQueueFull
                | S _ => "Job " +:+ ID j +:+ " enqueued"
                end)
      :: recovery_events (pred free) rest
  end.

(** [CleanupJob] on the files. *)
Definition released (input output : string) (files : gmap string string) : gmap string string :=
  let files := if decide (input ≠ "") then delete input files else files in
  if decide (output ≠ "") then delete output files else files.

(** ** The pipeline *)

(** The transcode of a run succeeds. *)
Definition transcode_ok (r : Transcoder.FFmpegRun) : Prop :=
  Transcoder.ff_pipe r = None /\ Transcoder.ff_start r = None /\
  Transcoder.ff_wait r = None.

(** What a transcode with the progress callback may leave in the trace:
    log lines and saved versions of the job. *)
Definition progress_event (job : Job) (e : Event) : Prop :=
  (exists msg, e = EvLog msg) \/ (exists j, e = EvSave j /\ same_but_progress job j).

(** How the state [(job', w')] after a transcode relates to the state
    [(job, w)] before it: only progress was reported and saved. *)
Definition tracks (job : Job) (w : World) (job' : Job) (w' : World) : Prop :=
  same_but_progress job job' /\
  w_files w' = w_files w /\ w_queue w' = w_queue w /\ w_stop w' = w_stop w /\
  (w_db w' = w_db w /\ job' = job \/ w_db w' = <[ID job := job']> (w_db w)) /\
  exists evs, w_trace w' = w_trace w ++ evs /\ Forall (progress_event job) evs.

(** The world right after the pipeline has persisted [processing]. *)
Definition started (job : Job) (w : World) : World :=
  emit (EvSave (processing_job (w_clock w) job))
    (set_db (insert (ID job) (processing_job (w_clock w) job))
       (set_clock (fun t => t + 1) w)).

(** The ways in which the pipeline ends, told from the state [(j2, w2)] in
    which the transcode ended with [err]: what comes back, the final job,
    what follows the transcode in the trace, and whether the local files
    are released. *)
Inductive pipeline_end (url : string) (drive : option Main.GoogleDriveClient)
    (j2 : Job) (w2 : World) (err : Go.error)
    : Res Go.error -> Job -> list Event -> bool -> Prop :=
| end_transcode_failed (e : string) :
    err = Some e ->
    let msg := "transcoding failed: " +:+ e in
    let j := failed_job msg (w_clock w2) j2 in
    pipeline_end url drive j2 w2 err (Val (Some (Fmt.Errorf msg))) j
      [EvLog ("Job " +:+ ID j2 +:+ " failed: " +:+ msg); EvSave j;
       EvSendAsync url (mkPayload (ID j2) "failed" "" "" msg (OriginalName j2) (w_clock w2))]
      false
| end_upload_failed (d : Main.GoogleDriveClient) (fid link e : string) :
    err = None -> drive = Some d ->
    Main.UploadFile d (OutputPath j2) (Main.outputName j2) = Val (fid, link, Some e) ->
    let msg := "drive upload failed: " +:+ e in
    let j := failed_job msg (w_clock w2) j2 in
    pipeline_end url drive j2 w2 err (Val (Some (Fmt.Errorf msg))) j
      [EvUpload (OutputPath j2) (Main.outputName j2) (Some e);
       EvLog ("Job " +:+ ID j2 +:+ " failed: " +:+ msg); EvSave j;
       EvSendAsync url (mkPayload (ID j2) "failed" "" "" msg (OriginalName j2) (w_clock w2))]
      false
| end_upload_panicked (d : Main.GoogleDriveClient) (v : string) :
    err = None -> drive = Some d ->
    Main.UploadFile d (OutputPath j2) (Main.outputName j2) = Panicked v ->
    pipeline_end url drive j2 w2 err (Panicked v) j2 [] false
| end_completed_uploaded (d : Main.GoogleDriveClient) (fid link : string) :
    err = None -> drive = Some d ->
    Main.UploadFile d (OutputPath j2) (Main.outputName j2) = Val (fid, link, None) ->
    let j := completed_job (w_clock w2) (set_DriveURL link (set_DriveFileID fid j2)) in
    pipeline_end url drive j2 w2 err (Val None) j
      [EvUpload (OutputPath j2) (Main.outputName j2) None; EvSave j;
       EvSendAsync url (mkPayload (ID j2) "completed" link fid "" (OriginalName j2) (w_clock w2))]
      true
| end_completed_local :
    err = None -> drive = None ->
    let j := completed_job (w_clock w2) j2 in
    pipeline_end url drive j2 w2 err (Val None) j
      [EvSave j;
       EvSendAsync url (mkPayload (ID j2) "completed" (DriveURL j2) (DriveFileID j2) ""
                          (OriginalName j2) (w_clock w2))]
      false.

(** A pool whose processor is the pipeline of [main]. *)
Definition pipeline_pool (cfg : Main.Config) (ls : Storage.LocalStorage)
    (drive : option Main.GoogleDriveClient) (client : WebhookClient.Client)
    (ffmpeg : string -> string -> Transcoder.FFmpegRun) : Pool.WorkerPool :=
  Pool.mkWorkerPool (Main.WorkerCount cfg)
    (Main.createJobProcessor cfg ls drive client ffmpeg).

(** ** The states the service can reach *)

(** [Stop] cancels the context of the pool. *)
Definition stop_pool (w : World) : World :=
  mkWorld (w_db w) (w_files w) (w_queue w) (w_clock w) true (w_trace w).

(** A new process on the same data directory: the table and the files
    are as the last process left them, the queue is new and empty. *)
Definition restart (bufferSize : nat) (w : World) : World :=
  mkWorld (w_db w) (w_files w) (NewQueue bufferSize) (w_clock w) false (w_trace w).

(** The steps by which the state of the service evolves: a submission, a
    cancel-or-delete request, a run of a worker on the pipeline of [main]
    (with whatever the external programs and the Drive client do), the
    stop of the pool, and a restart followed by the recovery. *)
Inductive step : World -> World -> Prop :=
| step_submit (h : Api.Handler) (uuid : string) (file : option Storage.Upload) (w : World) :
    step w (snd (Api.CreateJob h uuid file w))
| step_cancel (h : Api.Handler) (id : string) (w : World) :
    step w (snd (Api.DeleteJob h id w))
| step_work (cfg : Main.Config) (ls : Storage.LocalStorage)
    (driveClient : option Main.GoogleDriveClient) (client : WebhookClient.Client)
    (ffmpeg : string -> string -> Transcoder.FFmpegRun) (id : Z) (fuel : nat) (w : World) :
    step w (snd (Pool.worker (pipeline_pool cfg ls driveClient client ffmpeg) id fuel w))
| step_stop (w : World) :
    step w (stop_pool w)
| step_restart (bufferSize : nat) (w : World) :
    step w (snd (Main.recoverPendingJobs (restart bufferSize w))).

Inductive reachable : World -> Prop :=
| reach_initial (bufferSize : nat) : reachable (Main.initial bufferSize)
| reach_step (w w' : World) : reachable w -> step w w' -> reachable w'.

(** A row is in order when its [completed_at] is and when, if it is
    soft-deleted, it is in a terminal state. *)
Definition row_ok (j : Job) : Prop :=
  completion_ok j /\ (DeletedAt j <> None -> terminal (Status j)).

(** A queued reference is to a job that is neither finished nor deleted. *)
Definition queued_ok (j : Job) : Prop :=
  CompletedAt j = None /\ DeletedAt j = None.

(** The invariant of the lifecycle: rows sit under their keys and are in
    order, queued references too, and every version of a record ever
    written has [completed_at] set exactly when it is completed or
    failed. *)
Definition lifecycle_inv (w : World) : Prop :=
  db_wf (w_db w) /\
  (forall k j, w_db w !! k = Some j -> row_ok j) /\
  Forall queued_ok (jobs (w_queue w)) /\
  Forall completion_ok (written (w_trace w)).

(** * Sample inputs *)

Definition sample_job (id : string) (st : JobStatus) (created : Z) : Job :=
  mkJob id st ("/data/uploads/" +:+ id +:+ ".mov") ("/data/outputs/" +:+ id +:+ ".mp4")
    "" "" 0 "" (id +:+ ".mov") created created None None.

Definition sample_config : Main.Config :=
  Main.mkConfig "8080" "" 2 "/data" "/config/credentials.json" "" "http://hook" 3.
Definition sample_storage : Storage.LocalStorage := Storage.mkLocalStorage "/data".
Definition sample_handler : Api.Handler := Api.mkHandler sample_storage.
Definition sample_upload : Storage.Upload := Storage.mkUpload "video.mov" (Some "bytes").

Definition request_with_key (values : list string) : Api.Context :=
  Api.mkContext {[ "X-Api-Key" := values ]}.

(** A queue made with capacity 0 on which the worker 1 waits for a job. *)
Definition waiting_unbuffered : Chan.Queue := snd (Chan.Dequeue 1 (Chan.NewQueue 0)).

(** A ten-second input whose transcode reports 0, 5 and 10 seconds. *)
Definition progress_run : Transcoder.FFmpegRun :=
  Transcoder.mkFFmpegRun (10000, None) None None
    ["frame=1"; "out_time_ms=0"; "out_time_ms=5000000"; "out_time_ms=10000000";
     "progress=end"] None (Some "mp4").

(** A ten-second input whose transcode reports 5 seconds, then -2. *)
Definition regress_run : Transcoder.FFmpegRun :=
  Transcoder.mkFFmpegRun (10000, None) None None
    ["out_time_ms=5000000"; "out_time_ms=-2000000"] None (Some "mp4").

(** External programs that report 0, 50 and 100 percent and succeed. *)
Definition ffmpeg_ok (input output : string) : Transcoder.FFmpegRun := progress_run.

(** External programs that fail: the input is gone. *)
Definition ffmpeg_missing_input (input output : string) : Transcoder.FFmpegRun :=
  Transcoder.mkFFmpegRun (0, Some "exit status 1") None None [] (Some "exit status 1") None.

(** A Drive client whose upload succeeds with id x. *)
Definition drive_ok : Main.GoogleDriveClient :=
  Main.mkGoogleDriveClient (fun _ _ => Val ("x", "http://drive/x", None)).


Definition sample_payload : Payload :=
  mkPayload "j1" "completed" "" "" "" "video.mov" 7.

(** An endpoint that answers 500 twice and then 200; the context stays
    live. *)
Definition flaky_env : WebhookClient.Env :=
  WebhookClient.mkEnv (fun _ => true) (fun _ => None)
    (fun k => if (k <? 2)%nat then WebhookClient.ReplyStatus 500
              else WebhookClient.ReplyStatus 200).

(** An endpoint that always answers 500; the context stays live. *)
Definition down_env : WebhookClient.Env :=
  WebhookClient.mkEnv (fun _ => true) (fun _ => None)
    (fun _ => WebhookClient.ReplyStatus 500).

(** The same endpoint, with a context that is done during the first
    backoff. *)
Definition down_env_expired : WebhookClient.Env :=
  WebhookClient.mkEnv (fun _ => true) (fun _ => Some "context deadline exceeded")
    (fun _ => WebhookClient.ReplyStatus 500).

(** A table with one job in each of three states. *)
Definition mixed_db : gmap string Job :=
  <["a" := sample_job "a" StatusPending 1]>
    (<["b" := set_Progress 40 (sample_job "b" StatusProcessing 2)]>
       (<["c" := set_CompletedAt (Some 9) (set_Progress 100 (sample_job "c" StatusCompleted 3))]> ∅)).

Definition mixed_world : World := mkWorld mixed_db ∅ (NewQueue 100) 10 false [].

(** Submit j1, cancel it while it is pending, then let a worker run. *)
Definition submitted : World :=
  snd (Api.CreateJob sample_handler "j1" (Some sample_upload) (Main.initial 100)).
Definition cancelled_pending : World := snd (Api.DeleteJob sample_handler "j1" submitted).
Definition after_stale_run : World :=
  snd (Pool.worker
         (pipeline_pool sample_config sample_storage None (WebhookClient.NewClient 3)
            ffmpeg_missing_input) 0 2 cancelled_pending).

(** Submit j1 and j2, then let a worker run whose upload panics. *)
Definition two_submitted : World :=
  snd (Api.CreateJob sample_handler "j2" (Some sample_upload) submitted).

(** Submit j1, let a worker complete it, restart. *)
Definition served : World :=
  snd (Pool.worker
         (pipeline_pool sample_config sample_storage (Some drive_ok)
            (WebhookClient.NewClient 3) ffmpeg_ok) 0 2 submitted).
Definition served_restarted : World :=
  snd (Main.recoverPendingJobs (restart 100 served)).


(** * Vocabulary of the further properties *)

(** ** Uses of the queue *)

(** The operations of the queue, as its users call them: the handlers
    and the recovery enqueue, the workers receive and mark. *)
Inductive QueueOp : Type :=
| DoEnqueue (job : Job)
| DoDequeue
| DoMarkRunning (jobID : string)
| DoMarkDone (jobID : string).

(** One operation on the queue of the process; beside the new state, the
    job that went into the buffer or came out of it. *)
Definition queue_step (op : QueueOp) (w : World) : World * option Job * option Job :=
  match op with
  | DoEnqueue job =>
      match Enqueue job w with
      | (Val None, w') => (w', Some job, None)
      | (_, w') => (w', None, None)
      end
  | DoDequeue =>
      match Dequeue (w_queue w) with
      | Some (job, q') => (set_queue (fun _ => q') w, None, Some job)
      | None => (w, None, None)
      end
  | DoMarkRunning jobID => (set_queue (MarkRunning jobID) w, None, None)
  | DoMarkDone jobID => (set_queue (MarkDone jobID) w, None, None)
  end.

(** A sequence of operations: the final state, the jobs accepted and the
    jobs received, each in order. *)
Fixpoint queue_run (ops : list QueueOp) (w : World) : World * list Job * list Job :=
  match ops with
  | [] => (w, [], [])
  | op :: rest =>
      let '(w1, sent, got) := queue_step op w in
      let '(w2, accepted, received) := queue_run rest w1 in
      (w2, from_option (fun j => [j]) [] sent ++ accepted,
           from_option (fun j => [j]) [] got ++ received)
  end.

(** The last marking of [jobID] among the operations, if any: whether it
    marked the job as running. *)
Fixpoint last_mark (jobID : string) (ops : list QueueOp) (before : bool) : bool :=
  match ops with
  | [] => before
  | DoMarkRunning id :: rest =>
      last_mark jobID rest (if decide (id = jobID) then true else before)
  | DoMarkDone id :: rest =>
      last_mark jobID rest (if decide (id = jobID) then false else before)
  | _ :: rest => last_mark jobID rest before
  end.

(** The sends and the receives on the channel of a queue: the handlers
    and the recovery send, the goroutines of the workers receive. *)
Inductive ChanOp : Type :=
| DoSend (job : Job)
| DoReceive (g : Z).

(** A sequence of them: the final state, and the jobs whose [Enqueue]
    returned no error, in order. *)
Fixpoint chan_run (ops : list ChanOp) (q : Chan.Queue) : Chan.Queue * list Job :=
  match ops with
  | [] => (q, [])
  | DoSend job :: rest =>
      match Chan.Enqueue job q with
      | (Val None, q1) => let '(q2, accepted) := chan_run rest q1 in (q2, job :: accepted)
      | (_, q1) => chan_run rest q1
      end
  | DoReceive g :: rest => chan_run rest (snd (Chan.Dequeue g q))
  end.

(** ** Notifications *)

(** The webhook notifications handed to [SendAsync], in order, each with
    its URL. *)
Definition notifications (tr : list Event) : list (string * Payload) :=
  omap (fun e => match e with
                 | EvSendAsync url p => Some (url, p)
                 | _ => None
                 end) tr.

(** ** The queue of a running service *)

(** The queue is in order: it holds no more references than it has
    slots, no job twice, and every reference is to a job that has a row
    in the table. *)
Definition queue_inv (w : World) : Prop :=
  (length (jobs (w_queue w)) <= capacity (w_queue w))%nat /\
  NoDup (ID <$> jobs (w_queue w)) /\
  Forall (fun j => is_Some (w_db w !! ID j)) (jobs (w_queue w)).

(** No identifier of the table [db] is missing from [db']. *)
Definition keeps_records (db db' : gmap string Job) : Prop :=
  forall k, is_Some (db !! k) -> is_Some (db' !! k).

(** ** Requests through the router *)

(** The writer after the four calls of [c.Header] in [CORS]. *)
Definition with_cors (rw : Gin.ResponseWriter) : Gin.ResponseWriter :=
  Gin.mkResponseWriter (Gin.rw_status rw) (Gin.rw_written rw)
    (<["Access-Control-Max-Age" := ["86400"]]>
       (<["Access-Control-Allow-Headers" := ["Origin, Content-Type, Accept, X-API-Key"]]>
          (<["Access-Control-Allow-Methods" := ["GET, POST, PUT, DELETE, OPTIONS"]]>
             (<["Access-Control-Allow-Origin" := ["*"]]> (Gin.rw_header rw)))))
    (Gin.rw_body rw).

(** A response carries the headers of [CORS]. *)
Definition has_cors (rw : Gin.ResponseWriter) : Prop :=
  Gin.rw_header rw !! "Access-Control-Allow-Origin" = Some ["*"] /\
  Gin.rw_header rw !! "Access-Control-Allow-Methods" = Some ["GET, POST, PUT, DELETE, OPTIONS"] /\
  Gin.rw_header rw !! "Access-Control-Allow-Headers" =
    Some ["Origin, Content-Type, Accept, X-API-Key"] /\
  Gin.rw_header rw !! "Access-Control-Max-Age" = Some ["86400"].

(** The routes of the group [/api/v1]. *)
Definition v1_route (route : Router.Route) : Prop :=
  route <> Router.GET_health /\ route <> Router.NoRoute.

(** What serving a request leaves untouched when no handler runs: the
    table, the files and the queue. *)
Definition same_store (w w' : World) : Prop :=
  w_db w' = w_db w /\ w_files w' = w_files w /\ w_queue w' = w_queue w.

(** A request with these headers, and a request for a path with a
    method. *)
Definition sample_request (method path : string) (values : list string) : Router.Request :=
  Router.mkRequest method path "" [] "10.0.0.1" (request_with_key values) None.
(** * Properties *)

(** ** The bounded queue *)

Section QueueProperties.
Variable job : Job.
Variable w : World.

Lemma Enqueue_full :
  (capacity (w_queue w) <= length (jobs (w_queue w)))%nat ->
  Enqueue job w = (Val (Some ErrQueueFull), w).
Proof.
  intros Hfull. unfold Enqueue, bind, get, try_send.
  destruct (decide _) as [Hlt | _]; [lia | reflexivity].
Qed.

Lemma Enqueue_free :
  (length (jobs (w_queue w)) < capacity (w_queue w))%nat ->
  Enqueue job w =
    (Val None,
     emit (EvLog ("Job " +:+ ID job +:+ " enqueued"))
       (set_queue (fun q => mkQueue (jobs q ++ [job]) (capacity q) (running q)) w)).
Proof.
  intros Hfree. unfold Enqueue, bind, get, try_send.
  destruct (decide _) as [_ | Hge]; [reflexivity | lia].
Qed.
End QueueProperties.

(** The send of the runtime, case by case. *)
Lemma chansend_cases (job : Job) (c : Chan.Chan) :
  Chan.chansend job c =
    match Chan.recvq c with
    | g :: rest =>
        if decide (0 < Chan.dataqsiz c /\ length (Chan.buf c) = Chan.dataqsiz c)%nat
        then None
        else Some (Chan.mkChan (Chan.buf c) (Chan.dataqsiz c) rest, Some g)
    | [] =>
        if decide (length (Chan.buf c) < Chan.dataqsiz c)%nat
        then Some (Chan.mkChan (Chan.buf c ++ [job]) (Chan.dataqsiz c) [], None)
        else None
    end.
Proof.
  unfold Chan.chansend, Chan.full.
  destruct (Chan.dataqsiz c =? 0)%nat eqn:Hz;
    [apply Nat.eqb_eq in Hz | apply Nat.eqb_neq in Hz].
  - destruct (Chan.recvq c) as [| g rest]; simpl.
    + destruct (decide _) as [Hlt | _]; [lia | reflexivity].
    + destruct (decide _) as [(Hpos & _) | _]; [lia | reflexivity].
  - destruct (length (Chan.buf c) =? Chan.dataqsiz c)%nat eqn:Hfull;
      [apply Nat.eqb_eq in Hfull | apply Nat.eqb_neq in Hfull].
    + destruct (Chan.recvq c) as [| g rest].
      * destruct (decide _) as [Hlt | _]; [lia | reflexivity].
      * destruct (decide _) as [_ | Hn]; [reflexivity | exfalso; apply Hn; lia].
    + destruct (Chan.recvq c) as [| g rest]; [reflexivity |].
      destruct (decide _) as [(_ & Heq) | _]; [contradiction | reflexivity].
Qed.

(** The queue of [World] is the channel on which no receiver is parked:
    there [Enqueue] answers, and buffers, as the send of the runtime
    does. *)
Lemma Enqueue_unparked (job : Job) (w : World) :
  let q :=
    Chan.mkQueue (Chan.mkChan (jobs (w_queue w)) (capacity (w_queue w)) []) [] [] in
  fst (Enqueue job w) = fst (Chan.Enqueue job q) /\
  jobs (w_queue (snd (Enqueue job w))) = Chan.buf (Chan.jobs (snd (Chan.Enqueue job q))).
Proof.
  cbv zeta. unfold Enqueue, Chan.Enqueue, try_send, bind, get.
  rewrite chansend_cases. simpl.
  destruct (decide _); split; reflexivity.
Qed.

(** What the sends and the receives keep: a goroutine is parked only on
    an empty buffer, and the buffer stays within its size. *)
Lemma Enqueue_keeps_channel (job : Job) (q : Chan.Queue) :
  parked_on_empty (Chan.jobs q) ->
  let q' := snd (Chan.Enqueue job q) in
  parked_on_empty (Chan.jobs q') /\
  Chan.dataqsiz (Chan.jobs q') = Chan.dataqsiz (Chan.jobs q) /\
  ((Chan.Size q <= Chan.dataqsiz (Chan.jobs q))%nat ->
   (Chan.Size q' <= Chan.dataqsiz (Chan.jobs q'))%nat).
Proof.
  intros Hinv. cbv zeta. unfold Chan.Enqueue. rewrite chansend_cases.
  unfold Chan.Size, parked_on_empty in *.
  destruct (Chan.recvq (Chan.jobs q)) as [| g rest] eqn:Hq; simpl.
  - destruct (decide _) as [Hfree | Hfull]; simpl.
    + split; [intros Hne; contradiction Hne; reflexivity |]. split; [reflexivity |].
      intros _. rewrite length_app. simpl. lia.
    + rewrite Hq. split; [exact Hinv | split; [reflexivity | auto]].
  - destruct (decide _) as [Hfull | Hfree]; simpl.
    + rewrite Hq. split; [exact Hinv | split; [reflexivity | auto]].
    + split; [intros _; apply Hinv; discriminate |]. split; [reflexivity | auto].
Qed.

Lemma Dequeue_keeps_channel (g : Z) (q : Chan.Queue) :
  parked_on_empty (Chan.jobs q) ->
  let q' := snd (Chan.Dequeue g q) in
  parked_on_empty (Chan.jobs q') /\
  Chan.dataqsiz (Chan.jobs q') = Chan.dataqsiz (Chan.jobs q) /\
  ((Chan.Size q <= Chan.dataqsiz (Chan.jobs q))%nat ->
   (Chan.Size q' <= Chan.dataqsiz (Chan.jobs q'))%nat).
Proof.
  intros Hinv. cbv zeta. unfold Chan.Dequeue, Chan.chanrecv, Chan.Size, parked_on_empty in *.
  destruct (Chan.buf (Chan.jobs q)) as [| job rest] eqn:Hbuf; simpl.
  - split; [reflexivity |]. split; [reflexivity |]. intros _. lia.
  - split.
    + intros Hne. specialize (Hinv Hne). discriminate.
    + split; [reflexivity |]. intros Hle. lia.
Qed.

(** C6 (as amended). On a queue made with a buffer of at least one slot,
    [Enqueue] on a buffer that holds as many entries as its capacity
    returns the queue-full error and leaves the queue as it was, its size
    and its buffered entries included.  On a queue with room it returns at
    once without an error: the job goes to the tail of the buffer or,
    where a goroutine is parked in a receive, straight to the one parked
    longest, the buffer staying as it is.  On a queue made with capacity
    0, which has no buffer, [Enqueue] goes through exactly when a
    goroutine is parked in a receive. *)
Theorem Enqueue_bounded (job : Job) (q : Chan.Queue) :
  ((0 < Chan.dataqsiz (Chan.jobs q))%nat ->
   Chan.Size q = Chan.dataqsiz (Chan.jobs q) ->
   Chan.Enqueue job q = (Val (Some ErrQueueFull), q)) /\
  ((Chan.Size q < Chan.dataqsiz (Chan.jobs q))%nat ->
   exists q',
     Chan.Enqueue job q = (Val None, q') /\
     Chan.dataqsiz (Chan.jobs q') = Chan.dataqsiz (Chan.jobs q) /\
     match Chan.recvq (Chan.jobs q) with
     | [] =>
         Chan.buf (Chan.jobs q') = Chan.buf (Chan.jobs q) ++ [job] /\
         Chan.Size q' = S (Chan.Size q) /\
         Chan.received q' = Chan.received q
     | g :: rest =>
         Chan.buf (Chan.jobs q') = Chan.buf (Chan.jobs q) /\
         Chan.recvq (Chan.jobs q') = rest /\
         Chan.received q' = Chan.received q ++ [(g, job)]
     end) /\
  (Chan.dataqsiz (Chan.jobs q) = 0%nat ->
   (fst (Chan.Enqueue job q) = Val None <-> Chan.recvq (Chan.jobs q) <> [])).
Proof.
  unfold Chan.Enqueue, Chan.Size. rewrite chansend_cases.
  split; [| split].
  - intros Hpos Hfull.
    destruct (Chan.recvq (Chan.jobs q)) as [| g rest] eqn:Hq.
    + destruct (decide _) as [Hfree | _]; [lia | reflexivity].
    + destruct (decide _) as [_ | Hn]; [reflexivity | exfalso; apply Hn; lia].
  - intros Hfree.
    destruct (Chan.recvq (Chan.jobs q)) as [| g rest] eqn:Hq.
    + destruct (decide _) as [_ | Hfull]; [| lia].
      eexists. split; [reflexivity |]. simpl. rewrite length_app, app_nil_r. simpl.
      repeat split; lia.
    + destruct (decide _) as [(_ & Heq) | _]; [lia |].
      eexists. split; [reflexivity |]. simpl. repeat split.
  - intros Hzero.
    destruct (Chan.recvq (Chan.jobs q)) as [| g rest] eqn:Hq.
    + destruct (decide _) as [Hfree | _]; [lia |]. simpl.
      split; [discriminate | intros Hne; contradiction Hne; reflexivity].
    + destruct (decide _) as [(Hpos & _) | _]; [lia |]. simpl.
      split; [discriminate | reflexivity].
Qed.

Lemma Enqueue_bounded_witness :
  let q1 := snd (Chan.Enqueue (sample_job "a" StatusPending 0) (Chan.NewQueue 1)) in
  Chan.Enqueue (sample_job "b" StatusPending 1) q1 = (Val (Some ErrQueueFull), q1) /\
  exists q',
    Chan.Enqueue (sample_job "a" StatusPending 0) (Chan.NewQueue 1) = (Val None, q') /\
    Chan.buf (Chan.jobs q') = [sample_job "a" StatusPending 0].
Proof.
  split.
  - apply (proj1 (Enqueue_bounded (sample_job "b" StatusPending 1)
                    (snd (Chan.Enqueue (sample_job "a" StatusPending 0) (Chan.NewQueue 1))))).
    + vm_compute. lia.
    + reflexivity.
  - destruct (proj1 (proj2 (Enqueue_bounded (sample_job "a" StatusPending 0)
                              (Chan.NewQueue 1))))
      as (q' & He & _ & Hb & _).
    + vm_compute. lia.
    + exists q'. split; [exact He | exact Hb].
Defined.

(** C6, as stated, fails on a queue made with capacity 0: its buffer
    holds as many entries as its capacity, none, and yet [Enqueue]
    returns no error where a worker is parked in a receive: the worker
    gets the job, and the size stays 0. *)
Lemma Enqueue_unbuffered_hands_over :
  Chan.Size waiting_unbuffered = Chan.dataqsiz (Chan.jobs waiting_unbuffered) /\
  exists q',
    Chan.Enqueue (sample_job "a" StatusPending 0) waiting_unbuffered = (Val None, q') /\
    Chan.Size q' = 0%nat /\
    Chan.received q' = [(1, sample_job "a" StatusPending 0)].
Proof.
  split; [reflexivity |]. eexists. split; [reflexivity |]. split; reflexivity.
Qed.

(** ** The API key check *)

Section Auth.
Import Api.
Variable apiKey : string.
Variable c : Context.

Lemma GetHeader_key :
  GetHeader c "X-API-Key" =
    match key_header c with Some (v :: _) => v | _ => "" end.
Proof. reflexivity. Qed.

Lemma APIKeyAuth_open : apiKey = "" -> APIKeyAuth apiKey c = Next.
Proof. intros ->. reflexivity. Qed.

Lemma APIKeyAuth_cases :
  apiKey <> "" ->
  APIKeyAuth apiKey c =
    let v := GetHeader c "X-API-Key" in
    if decide (v = "") then AbortWithStatusJSON 401 "missing API key"
    else if decide (v = apiKey) then Next
    else AbortWithStatusJSON 401 "invalid API key".
Proof.
  intros Hk. unfold APIKeyAuth.
  destruct (decide (apiKey = "")); [contradiction |].
  cbv zeta. destruct (decide (GetHeader c "X-API-Key" = "")); [reflexivity |].
  destruct (decide (GetHeader c "X-API-Key" <> apiKey)) as [Hne | Heq];
    destruct (decide (GetHeader c "X-API-Key" = apiKey)) as [He | Hn];
    try reflexivity; contradiction.
Qed.
End Auth.

(** C10 (as amended). With an empty configured key every request is
    admitted, whatever its [X-API-Key] header.  With a non-empty key a
    request is admitted exactly when the first value of its [X-API-Key]
    header equals the key; a request without the header, or whose header is
    empty, is rejected with 401 "missing API key"; a request whose header
    is non-empty and differs from the key is rejected with 401 "invalid API
    key". *)
Theorem APIKeyAuth_decides (apiKey : string) (c : Api.Context) :
  (apiKey = "" -> Api.APIKeyAuth apiKey c = Api.Next) /\
  (apiKey <> "" ->
     (Api.APIKeyAuth apiKey c = Api.Next <->
        exists rest, key_header c = Some (apiKey :: rest)) /\
     (key_header c = None \/ key_header c = Some [] \/
        (exists rest, key_header c = Some ("" :: rest)) ->
      Api.APIKeyAuth apiKey c = Api.AbortWithStatusJSON 401 "missing API key") /\
     (forall v rest, key_header c = Some (v :: rest) -> v <> "" -> v <> apiKey ->
      Api.APIKeyAuth apiKey c = Api.AbortWithStatusJSON 401 "invalid API key")).
Proof.
  split; [apply APIKeyAuth_open |].
  intros Hk. rewrite (APIKeyAuth_cases apiKey c Hk), GetHeader_key. cbv zeta.
  repeat split.
  - destruct (key_header c) as [[| v rest] |]; simpl; try discriminate.
    destruct (decide (v = "")); [discriminate |].
    destruct (decide (v = apiKey)) as [-> | _]; [eauto | discriminate].
  - intros (rest & ->). simpl.
    destruct (decide (apiKey = "")); [contradiction |].
    destruct (decide (apiKey = apiKey)); [reflexivity | contradiction].
  - intros [-> | [-> | (rest & ->)]]; reflexivity.
  - intros v rest -> Hv Hne. simpl.
    destruct (decide (v = "")); [contradiction |].
    destruct (decide (v = apiKey)); [contradiction | reflexivity].
Qed.

Lemma APIKeyAuth_decides_witness :
  Api.APIKeyAuth "" (request_with_key ["anything"]) = Api.Next /\
  Api.APIKeyAuth "secret" (request_with_key ["secret"]) = Api.Next /\
  Api.APIKeyAuth "secret" (Api.mkContext ∅) =
    Api.AbortWithStatusJSON 401 "missing API key" /\
  Api.APIKeyAuth "secret" (request_with_key ["guess"]) =
    Api.AbortWithStatusJSON 401 "invalid API key".
Proof.
  split; [| split; [| split]].
  - apply (proj1 (APIKeyAuth_decides "" (request_with_key ["anything"]))). reflexivity.
  - apply (proj1 (proj2 (APIKeyAuth_decides "secret" (request_with_key ["secret"]))
                    ltac:(discriminate))).
    exists []. reflexivity.
  - apply (proj1 (proj2 (proj2 (APIKeyAuth_decides "secret" (Api.mkContext ∅))
                    ltac:(discriminate)))).
    left. reflexivity.
  - apply (proj2 (proj2 (proj2 (APIKeyAuth_decides "secret" (request_with_key ["guess"]))
                    ltac:(discriminate))) "guess" []).
    + reflexivity.
    + discriminate.
    + discriminate.
Defined.

(** C10, as stated, fails: a request that carries the header with an empty
    value has a header that does not match the key, yet it is rejected as
    "missing API key", not as "invalid API key". *)
Lemma APIKeyAuth_empty_header_is_missing :
  key_header (request_with_key [""]) = Some [""] /\
  "" <> "secret" /\
  Api.APIKeyAuth "secret" (request_with_key [""]) =
    Api.AbortWithStatusJSON 401 "missing API key" /\
  Api.APIKeyAuth "secret" (request_with_key [""]) <>
    Api.AbortWithStatusJSON 401 "invalid API key".
Proof.
  repeat split; try reflexivity; discriminate.
Qed.

(** ** Progress reporting *)

Section Progress.
Import Transcoder.

Lemma percent_le_100 (timeMs duration : Z) : percent timeMs duration <= 100.
Proof.
  unfold percent. cbv zeta.
  destruct (100 <? _) eqn:Hcmp; [lia | apply Z.ltb_ge in Hcmp; exact Hcmp].
Qed.

Lemma scan_record (d : Z) (lines : list string) :
  forall l,
    scan (Some record_progress) d lines l =
      (Val tt,
       l ++ (if 0 <? d then (fun t => percent t d) <$> reported_times lines else [])).
Proof.
  induction lines as [| line rest IH]; intros l.
  - simpl. destruct (0 <? d); rewrite app_nil_r; reflexivity.
  - simpl. unfold bind. unfold scan_line, reported_times. simpl.
    fold (reported_times rest).
    destruct (HasPrefix line "out_time_ms=");
      [destruct (0 <? d) eqn:Hd; [destruct (ParseInt _) as [t |] |] |];
      simpl; rewrite IH; try rewrite Hd; try reflexivity.
    rewrite <- app_assoc. reflexivity.
Qed.

(** The values a run delivers: nothing unless the program starts; then,
    if the duration is known and positive, the percentage of each
    reported time, in order; and a final 100 if the program succeeds. *)
Lemma delivered_exact (r : FFmpegRun) :
  delivered r =
    match ff_pipe r, ff_start r with
    | None, None =>
        (let d := match ff_duration r with (d, None) => d | (_, Some _) => 0 end in
         if 0 <? d then (fun t => percent t d) <$> reported_times (ff_stdout r) else [])
        ++ match ff_wait r with None => [100] | Some _ => [] end
    | _, _ => []
    end.
Proof.
  unfold delivered, Transcode.
  destruct (ff_duration r) as [d0 [e |]]; unfold bind at 1; simpl;
    (destruct (ff_pipe r); [reflexivity |]);
    (destruct (ff_start r); [reflexivity |]);
    unfold bind at 1; rewrite scan_record; simpl;
    destruct (ff_wait r); simpl; rewrite ?app_nil_r; reflexivity.
Qed.

Lemma percents_le_100 (d : Z) (ts : list Z) :
  Forall (fun p => p <= 100) ((fun t => percent t d) <$> ts).
Proof. apply Forall_fmap, Forall_forall. intros t _. apply percent_le_100. Qed.

Lemma omap_length_le {A B} (f : A -> option B) (l : list A) :
  (length (omap f l) <= length l)%nat.
Proof.
  induction l as [| a l IH]; [reflexivity |].
  change (omap f (a :: l)) with (match f a with Some b => b :: omap f l | None => omap f l end).
  destruct (f a); simpl; lia.
Qed.

Lemma reported_times_length (lines : list string) :
  (length (reported_times lines) <= length lines)%nat.
Proof. apply omap_length_le. Qed.
End Progress.

(** What the code does bound: no value delivered to the callback exceeds
    100; at most one value is delivered per line of output, plus the
    closing one; and when the transcode succeeds the last value delivered
    is 100. *)
Lemma delivered_le_100 (r : Transcoder.FFmpegRun) :
  Forall (fun p => p <= 100) (Transcoder.delivered r) /\
  (length (Transcoder.delivered r) <= S (length (Transcoder.ff_stdout r)))%nat /\
  (transcode_ok r -> last (Transcoder.delivered r) = Some 100).
Proof.
  rewrite delivered_exact.
  split; [| split].
  - destruct (Transcoder.ff_pipe r), (Transcoder.ff_start r); try constructor.
    apply Forall_app. split.
    + cbv zeta. destruct (0 <? _); [apply percents_le_100 | constructor].
    + destruct (Transcoder.ff_wait r); repeat constructor. lia.
  - destruct (Transcoder.ff_pipe r), (Transcoder.ff_start r); simpl; try lia.
    rewrite length_app. cbv zeta.
    pose proof (reported_times_length (Transcoder.ff_stdout r)) as Hlen.
    destruct (0 <? _); [rewrite length_fmap |];
      destruct (Transcoder.ff_wait r); simpl; lia.
  - intros (-> & -> & ->). apply last_snoc.
Qed.

(** C9 does not hold of the code: with a duration of ten seconds, a run
    that reports five seconds and then minus two seconds delivers 50, then
    -20, then the closing 100: a value below 0, and a decrease.  The code
    clamps a value from above only and compares no value with the one
    before. *)
Lemma delivered_negative_and_decreasing :
  0 < fst (Transcoder.ff_duration regress_run) /\
  Transcoder.delivered regress_run = [50; -20; 100] /\
  ~ Forall (fun p => 0 <= p <= 100) (Transcoder.delivered regress_run) /\
  ~ (forall i a b, Transcoder.delivered regress_run !! i = Some a ->
                   Transcoder.delivered regress_run !! S i = Some b -> a <= b).
Proof.
  assert (Hd : Transcoder.delivered regress_run = [50; -20; 100]) by (vm_compute; reflexivity).
  split; [reflexivity | split; [exact Hd | split]].
  - rewrite Hd. intros HF. inversion HF as [| ? ? _ HF']. inversion HF' as [| ? ? Hneg _]. lia.
  - rewrite Hd. intros Hmono. specialize (Hmono 0%nat 50 (-20) eq_refl eq_refl). lia.
Qed.

(** ** The notifier *)

Section Notifier.
Import WebhookClient.
Variable c : Client.
Variable env : Env.
Variable url : string.
Variable payload : Payload.

Hypothesis url_ok : url_parses env url = true.
Hypothesis ctx_live : forall a, ctx_done env a = None.

Lemma sendRequest_result (n : Net) :
  exists e,
    sendRequest env url payload n =
      (Val e, mkNet (n_requests n ++ [(url, payload)]) (n_log n)) /\
    (e = None <-> reply_ok (reply env (length (n_requests n))) = true).
Proof using url_ok.
  unfold sendRequest. rewrite url_ok. simpl. unfold bind, gets, modify. simpl.
  destruct (reply env (length (n_requests n))) as [code | msg |]; simpl.
  - destruct ((200 <=? code) && (code <? 300)); eexists; (split; [reflexivity |]);
      split; congruence.
  - eexists. split; [reflexivity |]. split; congruence.
  - eexists. split; [reflexivity |]. split; congruence.
Qed.

Lemma attempts_wait (n : nat) (a : Z) (last : Go.error) (net : Net) :
  exists lg,
    attempts c env url payload (S n) a last net =
      (let* err := sendRequest env url payload in
       match err with
       | None =>
           run net_log ("Webhook sent successfully for job " +:+ pJobID payload) in
           ret None
       | Some e =>
           run net_log ("Webhook attempt " +:+ pretty (a + 1)
                        +:+ " failed for job " +:+ pJobID payload +:+ ": " +:+ e) in
           attempts c env url payload n (a + 1) (Some e)
       end) (mkNet (n_requests net) (n_log net ++ lg)).
Proof using ctx_live.
  simpl. destruct (0 <? a).
  - eexists [_]. unfold bind at 1. unfold bind at 1. unfold net_log at 1, modify.
    unfold ret at 1. rewrite ctx_live. reflexivity.
  - exists []. unfold bind at 1. unfold ret at 1. rewrite app_nil_r.
    destruct net; reflexivity.
Qed.

(** Every attempt fails: [n] requests are issued and an error comes back. *)
Lemma attempts_exhausted (n : nat) :
  forall (a : Z) (last : Go.error) (net : Net),
    (forall i, (length (n_requests net) <= i < length (n_requests net) + n)%nat ->
               reply_ok (reply env i) = false) ->
    exists e lg,
      attempts c env url payload n a last net =
        (Val (Some e), mkNet (n_requests net ++ replicate n (url, payload)) lg).
Proof using url_ok ctx_live.
  induction n as [| n IH]; intros a last net Hfail.
  - simpl. rewrite app_nil_r. destruct net. eexists _, _. reflexivity.
  - destruct (attempts_wait n a last net) as (lg & ->).
    destruct (sendRequest_result (mkNet (n_requests net) (n_log net ++ lg)))
      as (e & Hs & Hok).
    unfold bind at 1. rewrite Hs. simpl in Hok.
    destruct e as [e |].
    + unfold bind at 1, net_log at 1, modify. simpl.
      destruct (IH (a + 1) (Some e)
                  (mkNet (n_requests net ++ [(url, payload)])
                     ((n_log net ++ lg) ++
                      ["Webhook attempt " +:+ pretty (a + 1) +:+ " failed for job "
                       +:+ pJobID payload +:+ ": " +:+ e])))
        as (e' & lg' & ->).
      * intros i Hi. simpl in Hi. rewrite length_app in Hi. simpl in Hi.
        apply Hfail. lia.
      * simpl. rewrite <- app_assoc. eexists _, _. reflexivity.
    + rewrite (Hfail (length (n_requests net))) in Hok by lia.
      destruct Hok as [Hok _]. specialize (Hok eq_refl). discriminate.
Qed.

(** The first [k] attempts fail and the next one succeeds, within the
    bound: [k + 1] requests are issued and no error comes back. *)
Lemma attempts_succeed (k : nat) :
  forall (n : nat) (a : Z) (last : Go.error) (net : Net),
    (k < n)%nat ->
    (forall i, (length (n_requests net) <= i < length (n_requests net) + k)%nat ->
               reply_ok (reply env i) = false) ->
    reply_ok (reply env (length (n_requests net) + k)) = true ->
    exists lg,
      attempts c env url payload n a last net =
        (Val None, mkNet (n_requests net ++ replicate (S k) (url, payload)) lg).
Proof using url_ok ctx_live.
  induction k as [| k IH]; intros n a last net Hk Hfail Hok;
    (destruct n as [| m]; [lia |]);
    destruct (attempts_wait m a last net) as (lg & ->);
    destruct (sendRequest_result (mkNet (n_requests net) (n_log net ++ lg)))
      as (e & Hs & He);
    unfold bind at 1; rewrite Hs; simpl in He.
  - rewrite Nat.add_0_r in Hok. rewrite Hok in He.
    destruct He as [_ He]. rewrite (He eq_refl).
    eexists. reflexivity.
  - destruct e as [e |].
    + unfold bind at 1, net_log at 1, modify. simpl.
      destruct (IH m (a + 1) (Some e)
                  (mkNet (n_requests net ++ [(url, payload)])
                     ((n_log net ++ lg) ++
                      ["Webhook attempt " +:+ pretty (a + 1) +:+ " failed for job "
                       +:+ pJobID payload +:+ ": " +:+ e])))
        as (lg' & ->).
      * lia.
      * intros i Hi. simpl in Hi. rewrite length_app in Hi. simpl in Hi.
        apply Hfail. lia.
      * simpl. rewrite length_app. simpl.
        replace (length (n_requests net) + 1 + k)%nat
          with (length (n_requests net) + S k)%nat by lia.
        exact Hok.
      * simpl. rewrite <- app_assoc. eexists. reflexivity.
    + destruct He as [He _]. specialize (He eq_refl).
      rewrite (Hfail (length (n_requests net))) in He by lia. discriminate.
Qed.
End Notifier.

(** C5 (as amended). Let the webhook URL be non-empty and well formed and
    the caller's context stay live through every backoff wait, for any
    retry count [R].  If the endpoint fails the first [k] attempts and
    succeeds on the next, with [k <= R] (in particular [k = 2] with
    [R >= 2]), Send returns success and exactly [k + 1] requests have been
    issued (3 for [k = 2]); if the endpoint fails every attempt, Send
    returns an error after exactly [R + 1] requests (none for a negative
    [R]); and an attempt succeeds if and only if the endpoint answers with
    a 2xx status, every other status, a transport error and a timeout
    being failed attempts. *)
Theorem Send_retries (c : WebhookClient.Client) (env : WebhookClient.Env)
    (url : string) (payload : Payload) :
  url <> "" ->
  WebhookClient.url_parses env url = true ->
  (forall a, WebhookClient.ctx_done env a = None) ->
  (forall k : nat,
     Z.of_nat k <= WebhookClient.retryCount c ->
     (forall i, (i < k)%nat -> reply_ok (WebhookClient.reply env i) = false) ->
     reply_ok (WebhookClient.reply env k) = true ->
     exists lg,
       WebhookClient.Send c env url payload WebhookClient.net0 =
         (Val None, WebhookClient.mkNet (replicate (S k) (url, payload)) lg)) /\
  ((forall i, Z.of_nat i <= WebhookClient.retryCount c ->
              reply_ok (WebhookClient.reply env i) = false) ->
   exists e lg,
     WebhookClient.Send c env url payload WebhookClient.net0 =
       (Val (Some e),
        WebhookClient.mkNet
          (replicate (Z.to_nat (WebhookClient.retryCount c + 1)) (url, payload)) lg)) /\
  (forall n : WebhookClient.Net,
     fst (WebhookClient.sendRequest env url payload n) = Val None <->
     reply_ok (WebhookClient.reply env (length (WebhookClient.n_requests n))) = true).
Proof.
  intros Hurl Hparse Hctx. unfold WebhookClient.Send.
  destruct (decide (url = "")); [contradiction |].
  split; [| split].
  - intros k Hk Hfail Hok.
    destruct (attempts_succeed c env url payload Hparse Hctx k
                (Z.to_nat (WebhookClient.retryCount c + 1)) 0 None WebhookClient.net0)
      as (lg & ->); [lia | | | eexists; reflexivity].
    + intros i Hi. simpl in Hi. apply Hfail. lia.
    + exact Hok.
  - intros Hfail.
    destruct (attempts_exhausted c env url payload Hparse Hctx
                (Z.to_nat (WebhookClient.retryCount c + 1)) 0 None WebhookClient.net0)
      as (e & lg & ->); [| eexists _, _; reflexivity].
    intros i Hi. simpl in Hi. apply Hfail. lia.
  - intros net.
    destruct (sendRequest_result env url payload Hparse net) as (e & -> & He).
    simpl. rewrite <- He. split; [intros [= ->] | intros ->]; reflexivity.
Qed.

Lemma Send_retries_witness :
  (exists lg,
     WebhookClient.Send (WebhookClient.NewClient 3) flaky_env "http://hook" sample_payload
       WebhookClient.net0 =
       (Val None, WebhookClient.mkNet (replicate 3 ("http://hook", sample_payload)) lg)) /\
  (exists e lg,
     WebhookClient.Send (WebhookClient.NewClient 3) down_env "http://hook" sample_payload
       WebhookClient.net0 =
       (Val (Some e), WebhookClient.mkNet (replicate 4 ("http://hook", sample_payload)) lg)).
Proof.
  split.
  - apply (proj1 (Send_retries (WebhookClient.NewClient 3) flaky_env "http://hook"
                    sample_payload ltac:(discriminate) eq_refl (fun _ => eq_refl)) 2%nat).
    + simpl. lia.
    + intros i Hi. simpl. destruct (Nat.ltb_spec i 2); [reflexivity | lia].
    + reflexivity.
  - apply (proj1 (proj2 (Send_retries (WebhookClient.NewClient 3) down_env "http://hook"
                    sample_payload ltac:(discriminate) eq_refl (fun _ => eq_refl)))).
    intros i _. reflexivity.
Defined.

(** C5, as stated, fails: with [R = 3] and an endpoint that fails every
    attempt, a caller whose context is done during the first backoff gets
    the error back after 1 request, not after [R + 1 = 4]. *)
Lemma Send_stops_when_context_done :
  (forall i, reply_ok (WebhookClient.reply down_env_expired i) = false) /\
  exists e lg,
    WebhookClient.Send (WebhookClient.NewClient 3) down_env_expired "http://hook"
      sample_payload WebhookClient.net0 =
      (Val (Some e), WebhookClient.mkNet [("http://hook", sample_payload)] lg) /\
    length [("http://hook", sample_payload)] <> Z.to_nat (3 + 1).
Proof.
  split; [intros i; reflexivity |].
  eexists _, _. split; [vm_compute; reflexivity | simpl; lia].
Qed.

(** ** The pipeline *)

Section Pipeline.
Import Storage WebhookClient Pool Transcoder Main.

Lemma same_but_progress_refl (j : Job) : same_but_progress j j.
Proof. reflexivity. Qed.

Lemma same_but_progress_trans (a b c : Job) :
  same_but_progress a b -> same_but_progress b c -> same_but_progress a c.
Proof. unfold same_but_progress. congruence. Qed.

Lemma same_but_progress_fields (j j' : Job) :
  same_but_progress j j' ->
  ID j' = ID j /\ Status j' = Status j /\ InputPath j' = InputPath j /\
  OutputPath j' = OutputPath j /\ DriveURL j' = DriveURL j /\
  DriveFileID j' = DriveFileID j /\ Error j' = Error j /\
  OriginalName j' = OriginalName j /\ CreatedAt j' = CreatedAt j /\
  CompletedAt j' = CompletedAt j /\ DeletedAt j' = DeletedAt j.
Proof.
  unfold same_but_progress. destruct j, j'. simpl. intros [=]. subst.
  repeat split.
Qed.

Lemma tracks_refl (job : Job) (w : World) : tracks job w job w.
Proof.
  repeat split; auto.
  exists []. rewrite app_nil_r. split; [reflexivity | constructor].
Qed.

Lemma progress_event_trans (a b : Job) (e : Event) :
  same_but_progress a b -> progress_event b e -> progress_event a e.
Proof.
  intros Hab [Hl | (j & -> & Hj)]; [left; exact Hl | right].
  exists j. split; [reflexivity | eapply same_but_progress_trans; eauto].
Qed.

Lemma tracks_trans (j0 j1 j2 : Job) (w0 w1 w2 : World) :
  tracks j0 w0 j1 w1 -> tracks j1 w1 j2 w2 -> tracks j0 w0 j2 w2.
Proof.
  intros (S1 & F1 & Q1 & T1 & D1 & e1 & E1 & P1) (S2 & F2 & Q2 & T2 & D2 & e2 & E2 & P2).
  destruct (same_but_progress_fields _ _ S1) as (I1 & _).
  split; [eapply same_but_progress_trans; eauto |].
  repeat split; try congruence.
  - destruct D2 as [[D2 ->] | D2]; [rewrite D2; exact D1 |].
    right. rewrite D2, I1.
    destruct D1 as [[-> _] | ->]; [reflexivity | apply insert_insert_eq].
  - exists (e1 ++ e2). rewrite E2, E1, app_assoc. split; [reflexivity |].
    apply Forall_app. split; [exact P1 |].
    eapply Forall_impl; [exact P2 |]. intros e. apply progress_event_trans, S1.
Qed.

Lemma progressCallback_run (p : Z) (job : Job) (w : World) :
  let j := set_UpdatedAt (w_clock w) (set_Progress p job) in
  progressCallback p (job, w) =
    (Val tt, (j, emit (EvSave j) (set_db (insert (ID job) j) (set_clock (fun t => t + 1) w)))).
Proof. reflexivity. Qed.

Lemma progressCallback_tracks (p : Z) (job : Job) (w : World) :
  exists job' w',
    progressCallback p (job, w) = (Val tt, (job', w')) /\ tracks job w job' w'.
Proof.
  eexists _, _. split; [apply progressCallback_run |].
  repeat split.
  - right. reflexivity.
  - eexists [_]. split; [reflexivity |].
    constructor; [| constructor]. right. eexists. split; [reflexivity |]. reflexivity.
Qed.

Lemma scan_line_tracks (d : Z) (line : string) (job : Job) (w : World) :
  exists job' w',
    scan_line (Some progressCallback) d line (job, w) = (Val tt, (job', w')) /\
    tracks job w job' w'.
Proof.
  unfold scan_line.
  destruct (HasPrefix line "out_time_ms=");
    [destruct (0 <? d); [destruct (ParseInt _) as [t |] |] |];
    try (exists job, w; split; [reflexivity | apply tracks_refl]).
  apply progressCallback_tracks.
Qed.

Lemma scan_tracks (d : Z) (lines : list string) :
  forall (job : Job) (w : World),
  exists job' w',
    scan (Some progressCallback) d lines (job, w) = (Val tt, (job', w')) /\
    tracks job w job' w'.
Proof.
  induction lines as [| line rest IH]; intros job w.
  - exists job, w. split; [reflexivity | apply tracks_refl].
  - destruct (scan_line_tracks d line job w) as (j1 & w1 & H1 & T1).
    destruct (IH j1 w1) as (j2 & w2 & H2 & T2).
    exists j2, w2. simpl. unfold bind. rewrite H1, H2.
    split; [reflexivity | eapply tracks_trans; eauto].
Qed.

Lemma logf_tracks (msg : string) (job : Job) (w : World) :
  exists w', inWorld (logf msg) (job, w) = (Val tt, (job, w')) /\ tracks job w job w'.
Proof.
  eexists. split; [reflexivity |]. repeat split; auto.
  eexists [_]. split; [reflexivity |]. constructor; [| constructor].
  left. eexists. reflexivity.
Qed.

(** The transcode never panics; it returns an error exactly when the
    external program fails, and it touches only the job's progress. *)
Lemma Transcode_tracks (r : FFmpegRun) (job : Job) (w : World) :
  exists err job' w',
    Transcode (fun msg => inWorld (logf msg)) (Some progressCallback) r (job, w) =
      (Val err, (job', w')) /\
    tracks job w job' w' /\
    (err = None <-> transcode_ok r) /\
    (err = None -> Progress job' = 100).
Proof.
  unfold Transcode, transcode_ok.
  assert (Hd : exists d w0,
             (let* duration :=
                match ff_duration r with
                | (d, None) => ret d
                | (_, Some err) =>
                    run inWorld (logf ("Warning: could not get duration: " +:+ err)) in ret 0
                end in ret duration) (job, w) = (Val d, (job, w0)) /\ tracks job w job w0).
  { destruct (ff_duration r) as [d0 [e |]].
    - destruct (logf_tracks ("Warning: could not get duration: " +:+ e) job w)
        as (w0 & Hl & Tl).
      exists 0, w0. unfold bind at 1 2. rewrite Hl. split; [reflexivity | exact Tl].
    - exists d0, w. split; [reflexivity | apply tracks_refl]. }
  destruct Hd as (d & w0 & Hd & T0).
  unfold bind at 1. unfold bind at 1 in Hd.
  destruct (match ff_duration r with (d0, None) => ret d0 | (_, Some err) => _ end (job, w))
    as [[dv | v] s0] eqn:Hdur; simpl in Hd; [| discriminate].
  injection Hd as -> ->.
  destruct (ff_pipe r) as [e |].
  { eexists _, _, _. split; [reflexivity |]. split; [exact T0 |].
    split; [split; [discriminate | intros (? & _); discriminate] | discriminate]. }
  destruct (ff_start r) as [e |].
  { eexists _, _, _. split; [reflexivity |]. split; [exact T0 |].
    split; [split; [discriminate | intros (_ & ? & _); discriminate] | discriminate]. }
  destruct (scan_tracks d (ff_stdout r) job w0) as (j1 & w1 & Hs & T1).
  unfold bind at 1. rewrite Hs.
  pose proof (tracks_trans _ _ _ _ _ _ T0 T1) as T01.
  destruct (ff_wait r) as [e |].
  { eexists _, _, _. split; [reflexivity |]. split; [exact T01 |].
    split; [split; [discriminate | intros (_ & _ & ?); discriminate] | discriminate]. }
  destruct (progressCallback_tracks 100 j1 w1) as (j2 & w2 & Hc & T2).
  unfold bind at 1. rewrite Hc.
  exists None, j2, w2. split; [reflexivity |].
  split; [eapply tracks_trans; eauto |].
  split; [split; auto |]. intros _.
  rewrite progressCallback_run in Hc. injection Hc as <- _. reflexivity.
Qed.
End Pipeline.

Section PipelineOutcome.
Import Storage WebhookClient Pool Transcoder Main.
Variable cfg : Config.
Variable ls : LocalStorage.
Variable driveClient : option GoogleDriveClient.
Variable client : Client.
Variable ffmpeg : string -> string -> FFmpegRun.

Lemma CleanupJob_run (input output : string) (j : Job) (w : World) :
  inWorld (CleanupJob ls input output) (j, w) =
    (Val tt, (j, set_files (released input output) w)).
Proof.
  unfold inWorld, lift_snd, CleanupJob, released, bind. simpl.
  destruct (decide (input ≠ "")), (decide (output ≠ "")); destruct w; reflexivity.
Qed.

Lemma tracks_started (job j2 : Job) (w w2 : World) :
  tracks (processing_job (w_clock w) job) (started job w) j2 w2 ->
  w_db w2 = <[ID job := j2]> (w_db w) /\ ID j2 = ID job /\
  w_queue w2 = w_queue w /\ w_stop w2 = w_stop w /\ w_files w2 = w_files w.
Proof.
  intros (S & F & Q & T & D & _).
  destruct (same_but_progress_fields _ _ S) as (I & _). simpl in I.
  repeat split; auto.
  destruct D as [[-> ->] | ->]; simpl; [reflexivity | apply insert_insert_eq].
Qed.

(** The pipeline, end to end: it persists [processing], runs the
    transcode, and ends in one of the ways of [pipeline_end]. *)
Lemma pipeline_outcome (job : Job) (w : World) :
  exists err j2 w2 res job' tail cleanup w',
    createJobProcessor cfg ls driveClient client ffmpeg (job, w) = (res, (job', w')) /\
    tracks (processing_job (w_clock w) job) (started job w) j2 w2 /\
    (err = None <-> transcode_ok (ffmpeg (InputPath job) (OutputPath job))) /\
    (err = None -> Progress j2 = 100) /\
    pipeline_end (WebhookURL cfg) driveClient j2 w2 err res job' tail cleanup /\
    w_db w' = <[ID job := job']> (w_db w) /\
    w_queue w' = w_queue w /\ w_stop w' = w_stop w /\
    w_files w' =
      (let files :=
         written_files (ffmpeg (InputPath job) (OutputPath job)) (OutputPath job)
           (w_files w) in
       if cleanup then released (InputPath job) (OutputPath job) files else files) /\
    w_trace w' = w_trace w2 ++ EvTranscode (InputPath job) (OutputPath job) err :: tail.
Proof.
  destruct (Transcode_tracks (ffmpeg (InputPath job) (OutputPath job))
              (processing_job (w_clock w) job) (started job w))
    as (err & j2 & w2 & Ht & T & Hok & Hp).
  destruct (tracks_started _ _ _ _ T) as (D2 & I2 & Q2 & S2 & F2).
  destruct (same_but_progress_fields _ _ (proj1 T))
    as (_ & _ & In2 & Out2 & _ & _ & _ & On2 & _). simpl in In2, Out2, On2.
  exists err, j2, w2.
  unfold createJobProcessor.
  do 5 (unfold bind at 1; simpl).
  unfold bind at 1.
  change (set_UpdatedAt (w_clock w) (set_Status StatusProcessing job))
    with (processing_job (w_clock w) job).
  change (emit (EvSave (processing_job (w_clock w) job)) _) with (started job w).
  rewrite Ht. unfold bind at 1. simpl. unfold bind at 1. simpl.
  destruct err as [e |].
  - (* the transcode failed *)
    eexists _, _, _, false, _. split; [reflexivity |].
    split; [exact T |]. split; [exact Hok |]. split; [exact Hp |].
    split; [apply end_transcode_failed; reflexivity |]. simpl.
    rewrite D2, I2, Q2, S2, F2, insert_insert_eq, <- !app_assoc. simpl.
    repeat split.
  - destruct driveClient as [d |].
    + unfold bind at 1. simpl. unfold bind at 1. simpl. unfold bind at 1.
      destruct (UploadFile d (OutputPath j2) (outputName j2))
        as [[[fid link] [e |]] | v] eqn:Hup.
      * (* the upload failed *)
        simpl. eexists _, _, _, false, _. split; [reflexivity |].
        split; [exact T |]. split; [exact Hok |]. split; [exact Hp |].
        split; [eapply end_upload_failed; eauto |]. simpl.
        rewrite D2, I2, Q2, S2, F2, insert_insert_eq, <- !app_assoc. simpl.
        repeat split.
      * (* the job completed, uploaded *)
        simpl. do 7 (unfold bind at 1; simpl).
        unfold bind at 1. rewrite CleanupJob_run.
        eexists _, _, _, true, _. split; [reflexivity |].
        split; [exact T |]. split; [exact Hok |]. split; [exact Hp |].
        split; [eapply end_completed_uploaded; eauto |]. simpl.
        rewrite D2, I2, Q2, S2, F2, In2, Out2, insert_insert_eq, <- !app_assoc. simpl.
        repeat split.
      * (* the upload panicked *)
        simpl. eexists _, _, _, false, _. split; [reflexivity |].
        split; [exact T |]. split; [exact Hok |]. split; [exact Hp |].
        split; [eapply end_upload_panicked; eauto |]. simpl.
        rewrite D2, Q2, S2, F2. repeat split.
    + (* the job completed, no upload configured *)
      eexists _, _, _, false, _. split; [reflexivity |].
      split; [exact T |]. split; [exact Hok |]. split; [exact Hp |].
      split; [apply end_completed_local; reflexivity |]. simpl.
      rewrite D2, I2, Q2, S2, F2, insert_insert_eq, <- !app_assoc. simpl.
      repeat split.
Qed.
End PipelineOutcome.
(** ** Paths *)

Section Paths.
Import Storage.

Lemma clean_elems_nonempty (rooted : bool) (elems : list string) :
  forall out,
    Forall (fun e => e <> "") out ->
    Forall (fun e => e <> "") (clean_elems rooted elems out).
Proof.
  induction elems as [| e rest IH]; intros out Hout; simpl.
  - apply Forall_rev, Hout.
  - destruct (decide (e = "")) as [-> | Hne]; [apply IH, Hout |].
    destruct (decide (e = ".")) as [-> | Hdot]; [apply IH, Hout |].
    destruct (decide (e = "..")) as [-> | Hdd].
    + destruct out as [| top out'].
      * apply IH. destruct rooted; repeat constructor. discriminate.
      * destruct (decide (top = "..")).
        -- apply IH. constructor; [discriminate | exact Hout].
        -- apply IH. inversion Hout; assumption.
    + apply IH. constructor; assumption.
Qed.

Lemma join_sep_nonempty (e : string) (rest : list string) :
  e <> "" -> join_sep (e :: rest) <> "".
Proof.
  intros Hne. destruct e as [| c e]; [contradiction |].
  destruct rest; simpl; discriminate.
Qed.

(** A cleaned path is never empty. *)
Lemma Clean_nonempty (path : string) : Clean path <> "".
Proof.
  unfold Clean. destruct path as [| c path]; [discriminate |]. cbv zeta.
  pose proof (clean_elems_nonempty (bool_decide (c = "/"%char))
                (path_elems (String.list_ascii_of_string (String c path)) []) []
                (Forall_nil_2 _)) as Hkept.
  destruct (bool_decide (c = "/"%char)); [discriminate |].
  destruct (clean_elems false _ []) as [| e kept]; [discriminate |].
  apply join_sep_nonempty. inversion Hkept; assumption.
Qed.

Lemma Join_uploads_nonempty (base name : string) :
  Join [base; "uploads"; name] <> "".
Proof.
  unfold Join. destruct (decide (base = "")); [| apply Clean_nonempty].
  destruct (decide ("uploads" = "")); [discriminate | apply Clean_nonempty].
Qed.
End Paths.


(** C8. When the transcode succeeds and the configured upload succeeds
    with a remote id and a remote url, the pipeline returns without an
    error and the final record, which is also the stored one, has status
    completed, progress 100, that remote id and url and a completion time.
    The completed version is written only after both stages have
    succeeded: every version written before the two stage events is still
    processing. *)
Theorem pipeline_completes (cfg : Main.Config) (ls : Storage.LocalStorage)
    (d : Main.GoogleDriveClient) (client : WebhookClient.Client)
    (ffmpeg : string -> string -> Transcoder.FFmpegRun)
    (job : Job) (w : World) (fid link : string) :
  transcode_ok (ffmpeg (InputPath job) (OutputPath job)) ->
  Main.UploadFile d (OutputPath job) (Main.outputName job) = Val (fid, link, None) ->
  exists job' w' before hook,
    Main.createJobProcessor cfg ls (Some d) client ffmpeg (job, w) =
      (Val None, (job', w')) /\
    Status job' = StatusCompleted /\ Progress job' = 100 /\
    DriveFileID job' = fid /\ DriveURL job' = link /\
    CompletedAt job' <> None /\
    w_db w' !! ID job = Some job' /\
    w_trace w' =
      w_trace w ++ before ++
        [EvTranscode (InputPath job) (OutputPath job) None;
         EvUpload (OutputPath job) (Main.outputName job) None;
         EvSave job'; EvSendAsync (Main.WebhookURL cfg) hook] /\
    Forall (fun e => forall j, e = EvSave j -> Status j = StatusProcessing) before /\
    pStatus hook = "completed" /\ pDriveFileID hook = fid /\ pDriveURL hook = link.
Proof.
  intros Hok Hup.
  destruct (pipeline_outcome cfg ls (Some d) client ffmpeg job w)
    as (err & j2 & w2 & res & job' & tail & cleanup & w' & Hrun & T & Herr & _ & Hend
        & Hdb & _ & _ & _ & Htr).
  apply Herr in Hok. subst err.
  destruct T as (S & _ & _ & _ & _ & evs & Hevs & Pevs).
  destruct (same_but_progress_fields _ _ S)
    as (I2 & _ & _ & O2 & _ & _ & _ & N2 & _). simpl in I2, O2, N2.
  assert (Hname : Main.outputName j2 = Main.outputName job).
  { unfold Main.outputName. rewrite N2, I2. reflexivity. }
  assert (Hbefore : Forall (fun e => forall j, e = EvSave j -> Status j = StatusProcessing)
                      (EvSave (processing_job (w_clock w) job) :: evs)).
  { constructor.
    - intros j [= <-]. reflexivity.
    - eapply Forall_impl; [exact Pevs |].
      intros e [(msg & ->) | (j' & -> & Hj')] j; [discriminate |].
      intros [= <-]. destruct (same_but_progress_fields _ _ Hj') as (_ & St & _). exact St. }
  inversion Hend as [e He | d' f l e He Hd Hu | d' v He Hd Hu | d' f l He Hd Hu | He Hd];
    subst; try discriminate.
  - injection Hd as <-. rewrite O2, Hname, Hup in Hu. discriminate.
  - injection Hd as <-. rewrite O2, Hname, Hup in Hu. discriminate.
  - injection Hd as <-. rewrite O2, Hname, Hup in Hu. injection Hu as <- <-.
    eexists _, w', (EvSave (processing_job (w_clock w) job) :: evs), _.
    split; [exact Hrun |].
    repeat split; try exact Hbefore.
    + discriminate.
    + rewrite Hdb. apply lookup_insert_eq.
    + rewrite Htr, Hevs, O2, Hname. unfold started. simpl.
      rewrite <- !app_assoc. reflexivity.
    + reflexivity.
    + reflexivity.
    + reflexivity.
Qed.

Lemma pipeline_completes_witness :
  exists job' w',
    Main.createJobProcessor sample_config sample_storage (Some drive_ok)
      (WebhookClient.NewClient 3) ffmpeg_ok
      (sample_job "j1" StatusPending 0, Main.initial 100) = (Val None, (job', w')) /\
    Status job' = StatusCompleted /\ Progress job' = 100 /\
    DriveFileID job' = "x" /\ DriveURL job' = "http://drive/x" /\
    CompletedAt job' <> None.
Proof.
  destruct (pipeline_completes sample_config sample_storage drive_ok
              (WebhookClient.NewClient 3) ffmpeg_ok (sample_job "j1" StatusPending 0)
              (Main.initial 100) "x" "http://drive/x")
    as (job' & w' & before & hook & Hrun & Hs & Hp & Hf & Hu & Hc & _).
  - repeat split.
  - reflexivity.
  - exists job', w'. repeat split; assumption.
Defined.

(** ** Submission *)

(** C3: what the code does when the queue is full. For an upload that can
    be read and a fresh job id, [CreateJob] on a full queue answers 503,
    but the pending record it has created stays in the table and the
    uploaded file stays on disk. *)
Theorem CreateJob_queue_full_keeps_record_and_file (h : Api.Handler) (uuid : string)
    (file : Storage.Upload) (content : string) (w : World) :
  Storage.Content file = Some content ->
  w_db w !! uuid = None ->
  (capacity (w_queue w) <= length (jobs (w_queue w)))%nat ->
  exists w' job,
    Api.CreateJob h uuid (Some file) w =
      (Val (Api.mkResponse 503 (Api.ErrorBody "job queue is full, please try again later")),
       w') /\
    w_db w' !! uuid = Some job /\ Status job = StatusPending /\
    w_files w' !! InputPath job = Some content /\
    w_queue w' = w_queue w.
Proof.
  intros Hc Hfresh Hfull.
  unfold Api.CreateJob, Storage.SaveUpload. rewrite Hc.
  do 3 (unfold bind at 1; simpl).
  unfold bind at 1. unfold DB.CreateJob. unfold bind at 1. simpl. rewrite Hfresh.
  unfold bind at 1. simpl. unfold bind at 1.
  rewrite Enqueue_full by (simpl; exact Hfull). simpl.
  eexists _, _. split; [reflexivity |]. simpl.
  repeat split.
  - rewrite lookup_insert_eq. reflexivity.
  - reflexivity.
  - simpl. rewrite lookup_insert_eq. reflexivity.
Qed.

(** The sibling error path: when the insert into the table fails, the
    handler answers 500 and removes the file it has just saved. *)
Lemma CreateJob_store_failure_releases_file (h : Api.Handler) (uuid : string)
    (file : Storage.Upload) (content : string) (old : Job) (w : World) :
  Storage.Content file = Some content ->
  w_db w !! uuid = Some old ->
  exists w' path,
    Api.CreateJob h uuid (Some file) w =
      (Val (Api.mkResponse 500 (Api.ErrorBody "failed to create job")), w') /\
    w_files w' !! path = None /\
    path = Storage.Join [Storage.baseDir (Api.localStorage h); "uploads";
                         uuid +:+ Storage.Ext (Storage.Filename file)] /\
    w_db w' = w_db w.
Proof.
  intros Hc Hold.
  unfold Api.CreateJob, Storage.SaveUpload. rewrite Hc.
  do 3 (unfold bind at 1; simpl).
  unfold bind at 1. unfold DB.CreateJob. unfold bind at 1. simpl. rewrite Hold.
  unfold bind at 1. simpl. unfold Storage.DeleteFile.
  destruct (decide _) as [Hempty | _]; simpl.
  - exfalso. exact (Join_uploads_nonempty _ _ Hempty).
  - unfold bind at 1. simpl. rewrite lookup_insert_eq. simpl.
    eexists _, _. split; [reflexivity |]. simpl.
    split; [apply lookup_delete_eq | split; reflexivity].
Qed.

Lemma CreateJob_queue_full_keeps_record_and_file_witness :
  let w1 := snd (Api.CreateJob sample_handler "j1" (Some sample_upload) (Main.initial 1)) in
  exists w' job,
    Api.CreateJob sample_handler "j2" (Some sample_upload) w1 =
      (Val (Api.mkResponse 503 (Api.ErrorBody "job queue is full, please try again later")),
       w') /\
    w_db w' !! "j2" = Some job /\ Status job = StatusPending /\
    w_files w' !! InputPath job = Some "bytes" /\
    w_queue w' = w_queue w1.
Proof.
  apply (CreateJob_queue_full_keeps_record_and_file sample_handler "j2" sample_upload "bytes").
  - reflexivity.
  - vm_compute. reflexivity.
  - vm_compute. lia.
Defined.

(** ** Recovery *)

Section Recovery.
Import Main.

Global Instance created_le_total : Total DB.created_le.
Proof. intros a b. unfold DB.created_le. lia. Qed.

Lemma recoverJob_run (j : Job) (w : World) :
  recoverJob j w =
    (Val tt,
     let w1 := emit (EvSave (reset_job j)) (set_db (insert (ID j) (reset_job j)) w) in
     if decide (length (jobs (w_queue w)) < capacity (w_queue w))%nat
     then emit (EvLog ("Job " +:+ ID j +:+ " enqueued"))
            (set_queue (fun q => mkQueue (jobs q ++ [reset_job j]) (capacity q) (running q)) w1)
     else emit (EvLog ("Failed to re-enqueue job " +:+ ID j +:+ ": " +:+ ErrQueueFull)) w1).
Proof.
  unfold recoverJob. unfold bind at 1. simpl. unfold bind at 1.
  destruct (decide (length (jobs (w_queue w)) < capacity (w_queue w))%nat) as [Hfree | Hfull].
  - rewrite Enqueue_free by (simpl; exact Hfree). reflexivity.
  - rewrite Enqueue_full by (simpl; lia). reflexivity.
Qed.

Lemma recoverAll_run (sel : list Job) :
  forall w : World,
  exists w',
    recoverAll sel w = (Val tt, w') /\
    w_db w' = foldl (fun db j => <[ID j := reset_job j]> db) (w_db w) sel /\
    jobs (w_queue w') =
      jobs (w_queue w) ++
      take (capacity (w_queue w) - length (jobs (w_queue w))) (reset_job <$> sel) /\
    capacity (w_queue w') = capacity (w_queue w) /\
    running (w_queue w') = running (w_queue w) /\
    w_files w' = w_files w /\
    w_trace w' =
      w_trace w ++
      recovery_events (capacity (w_queue w) - length (jobs (w_queue w))) sel.
Proof.
  induction sel as [| j rest IH]; intros w.
  - exists w. simpl. rewrite take_nil, !app_nil_r. repeat split.
  - simpl. unfold bind at 1. rewrite recoverJob_run. cbv zeta.
    destruct (decide (length (jobs (w_queue w)) < capacity (w_queue w))%nat) as [Hfree | Hfull].
    + match goal with |- context [recoverAll rest ?w1] =>
        destruct (IH w1) as (w' & -> & Hdb & Hq & Hc & Hr & Hf & Ht) end.
      exists w'. split; [reflexivity |]. simpl in *.
      rewrite Hdb, Hq, Hc, Hr, Hf, Ht, length_app. simpl.
      destruct (capacity (w_queue w) - length (jobs (w_queue w)))%nat as [| free] eqn:Hfr;
        [lia |].
      replace (capacity (w_queue w) - (length (jobs (w_queue w)) + 1))%nat with free by lia.
      simpl. rewrite <- !app_assoc. repeat split.
    + match goal with |- context [recoverAll rest ?w1] =>
        destruct (IH w1) as (w' & -> & Hdb & Hq & Hc & Hr & Hf & Ht) end.
      exists w'. split; [reflexivity |]. simpl in *.
      rewrite Hdb, Hq, Hc, Hr, Hf, Ht.
      replace (capacity (w_queue w) - length (jobs (w_queue w)))%nat with 0%nat by lia.
      simpl. rewrite take_0, <- !app_assoc. repeat split.
Qed.

Lemma foldl_reset_other (sel : list Job) (k : string) :
  forall db : gmap string Job,
    k ∉ ID <$> sel ->
    foldl (fun db j => <[ID j := reset_job j]> db) db sel !! k = db !! k.
Proof.
  induction sel as [| j rest IH]; intros db Hk; [reflexivity |].
  simpl. rewrite fmap_cons in Hk. apply not_elem_of_cons in Hk as [Hne Hk].
  rewrite IH by exact Hk. apply lookup_insert_ne. congruence.
Qed.

Lemma foldl_reset_member (sel : list Job) (j : Job) :
  forall db : gmap string Job,
    NoDup (ID <$> sel) -> j ∈ sel ->
    foldl (fun db j => <[ID j := reset_job j]> db) db sel !! ID j = Some (reset_job j).
Proof.
  induction sel as [| j0 rest IH]; intros db Hnd Hj; [inversion Hj |].
  rewrite fmap_cons in Hnd. apply NoDup_cons in Hnd as [Hfresh Hnd].
  apply elem_of_cons in Hj as [-> | Hj]; simpl.
  - rewrite foldl_reset_other by exact Hfresh. apply lookup_insert_eq.
  - apply IH; assumption.
Qed.

(** The query of the recovery: exactly the recoverable rows, each once,
    oldest first. *)
Lemma GetPendingJobs_run (w : World) :
  db_wf (w_db w) ->
  exists sel,
    DB.GetPendingJobs w = (Val (sel, None), w) /\
    (forall j, j ∈ sel <-> recoverable j = true /\ exists k, w_db w !! k = Some j) /\
    NoDup (ID <$> sel) /\ Sorted DB.created_le sel.
Proof.
  intros Hwf. eexists. split; [reflexivity |]. split; [| split].
  - intros j. rewrite merge_sort_Permutation, list_elem_of_filter, list_elem_of_fmap.
    unfold recoverable. split.
    + intros (Hr & [k j'] & -> & Hin). apply elem_of_map_to_list in Hin.
      split; [exact Hr | exists k; exact Hin].
    + intros (Hr & k & Hk). split; [exact Hr |].
      exists (k, j). split; [reflexivity | apply elem_of_map_to_list; exact Hk].
  - rewrite merge_sort_Permutation.
    eapply sublist_NoDup; [| apply (fmap_sublist ID), sublist_filter].
    replace (ID <$> (map_to_list (w_db w)).*2) with ((map_to_list (w_db w)).*1);
      [apply NoDup_fst_map_to_list |].
    rewrite <- list_fmap_compose. apply list_fmap_ext.
    intros i [k j] Hi. simpl. symmetry. apply Hwf.
    apply elem_of_map_to_list, list_elem_of_lookup. eauto.
  - apply Sorted_merge_sort. apply _.
Qed.
End Recovery.

(** The recovery, end to end. *)
Lemma recoverPendingJobs_run (w : World) :
  db_wf (w_db w) ->
  exists sel w',
    DB.GetPendingJobs w = (Val (sel, None), w) /\
    (forall j, j ∈ sel <->
       (Status j = StatusPending \/ Status j = StatusProcessing) /\
       DeletedAt j = None /\ exists k, w_db w !! k = Some j) /\
    NoDup sel /\ Sorted DB.created_le sel /\
    Main.recoverPendingJobs w = (Val tt, w') /\
    (forall k, w_db w' !! k =
       (fun j => if recoverable j then reset_job j else j) <$> (w_db w !! k)) /\
    (forall k j, w_db w !! k = Some j ->
       Status j = StatusCompleted \/ Status j = StatusFailed \/ Status j = StatusCancelled ->
       w_db w' !! k = Some j) /\
    jobs (w_queue w') =
      jobs (w_queue w) ++
      take (capacity (w_queue w) - length (jobs (w_queue w))) (reset_job <$> sel) /\
    exists header,
      w_trace w' =
        w_trace w ++ header ++
        recovery_events (capacity (w_queue w) - length (jobs (w_queue w))) sel /\
      Forall (fun e => exists msg, e = EvLog msg) header.
Proof.
  intros Hwf.
  destruct (GetPendingJobs_run w Hwf) as (sel & Hget & Hsel & Hnd & Hsorted).
  assert (Hpoint : forall k,
            foldl (fun db j => <[ID j := reset_job j]> db) (w_db w) sel !! k =
            (fun j => if recoverable j then reset_job j else j) <$> (w_db w !! k)).
  { intros k. destruct (w_db w !! k) as [j |] eqn:Hk; simpl.
    - destruct (recoverable j) eqn:Hr.
      + rewrite <- (Hwf _ _ Hk). apply foldl_reset_member; [exact Hnd |].
        apply Hsel. eauto.
      + rewrite foldl_reset_other; [exact Hk |].
        intros (j' & Hid & Hj')%list_elem_of_fmap.
        apply Hsel in Hj' as (Hr' & k' & Hk').
        assert (k' = k) by (rewrite <- (Hwf _ _ Hk'); congruence). subst k'.
        congruence.
    - rewrite foldl_reset_other; [exact Hk |].
      intros (j' & Hid & Hj')%list_elem_of_fmap.
      apply Hsel in Hj' as (_ & k' & Hk').
      assert (k' = k) by (rewrite <- (Hwf _ _ Hk'); congruence). subst k'.
      congruence. }
  assert (Hrun : exists w' header,
            Main.recoverPendingJobs w = (Val tt, w') /\
            w_db w' = foldl (fun db j => <[ID j := reset_job j]> db) (w_db w) sel /\
            jobs (w_queue w') =
              jobs (w_queue w) ++
              take (capacity (w_queue w) - length (jobs (w_queue w))) (reset_job <$> sel) /\
            w_trace w' =
              w_trace w ++ header ++
              recovery_events (capacity (w_queue w) - length (jobs (w_queue w))) sel /\
            Forall (fun e => exists msg, e = EvLog msg) header).
  { unfold Main.recoverPendingJobs. unfold bind at 1. rewrite Hget.
    destruct (decide (length sel = 0%nat)) as [Hnil | Hne].
    - apply length_zero_iff_nil in Hnil. subst sel.
      exists w, []. simpl. rewrite take_nil, !app_nil_r. repeat split. constructor.
    - unfold bind at 1. simpl.
      match goal with |- context [Main.recoverAll sel ?w1] =>
        destruct (recoverAll_run sel w1) as (w' & -> & Hdb & Hq & _ & _ & _ & Ht) end.
      exists w'. eexists [_]. simpl in *. rewrite Hdb, Hq, Ht, <- app_assoc.
      repeat split. constructor; [eexists; reflexivity | constructor]. }
  destruct Hrun as (w' & header & Hrun & Hdb & Hq & Ht & Hh).
  exists sel, w'. split; [exact Hget |]. split; [| split; [| split; [| split; [| split; [| split; [| split]]]]]].
  - intros j. rewrite Hsel. unfold recoverable, DB.is_pending, DB.live.
    rewrite andb_true_iff, !bool_decide_eq_true. tauto.
  - eapply NoDup_fmap_1. exact Hnd.
  - exact Hsorted.
  - exact Hrun.
  - intros k. rewrite Hdb. apply Hpoint.
  - intros k j Hk Hterm. rewrite Hdb, Hpoint, Hk. simpl.
    replace (recoverable j) with false; [reflexivity |].
    symmetry. unfold recoverable, DB.is_pending.
    apply andb_false_iff. left. apply bool_decide_eq_false.
    destruct Hterm as [-> | [-> | ->]]; intros [? | ?]; discriminate.
  - exact Hq.
  - exists header. split; [exact Ht | exact Hh].
Qed.



(** ** The worker *)

Section Worker.
Import Storage WebhookClient Pool Transcoder Main.
Variable cfg : Config.
Variable ls : LocalStorage.
Variable driveClient : option GoogleDriveClient.
Variable client : Client.
Variable ffmpeg : string -> string -> FFmpegRun.

Local Abbreviation wp := (pipeline_pool cfg ls driveClient client ffmpeg).

Lemma transcodes_app (a b : list Event) : transcodes (a ++ b) = transcodes a ++ transcodes b.
Proof. unfold transcodes. apply omap_app. Qed.

Lemma transcodes_progress (job : Job) (evs : list Event) :
  Forall (progress_event job) evs -> transcodes evs = [].
Proof.
  induction 1 as [| e evs He _ IH]; [reflexivity |].
  destruct He as [(msg & ->) | (j & -> & _)]; exact IH.
Qed.

Lemma pipeline_end_transcodes url j2 w2 err res job' tail cleanup :
  pipeline_end url driveClient j2 w2 err res job' tail cleanup -> transcodes tail = [].
Proof. destruct 1; reflexivity. Qed.

Lemma written_app (a b : list Event) : written (a ++ b) = written a ++ written b.
Proof. unfold written. apply omap_app. Qed.

Lemma completion_ok_same (a b : Job) :
  same_but_progress a b -> completion_ok a -> completion_ok b.
Proof.
  intros Hab. destruct (same_but_progress_fields _ _ Hab)
    as (_ & St & _ & _ & _ & _ & _ & _ & _ & Ct & _).
  unfold completion_ok. rewrite St, Ct. tauto.
Qed.

Lemma written_progress (job : Job) (evs : list Event) :
  Forall (progress_event job) evs -> completion_ok job ->
  Forall completion_ok (written evs).
Proof.
  induction 1 as [| e evs He _ IH]; intros Hok; [constructor |].
  destruct He as [(msg & ->) | (j & -> & Hj)]; [exact (IH Hok) |].
  change (written (EvSave j :: evs)) with (j :: written evs).
  constructor; [eapply completion_ok_same; eauto | exact (IH Hok)].
Qed.

Lemma completion_ok_unfinished (j : Job) :
  CompletedAt j = None -> Status j <> StatusCompleted -> Status j <> StatusFailed ->
  completion_ok j.
Proof. unfold completion_ok. intros -> ? ?. split; [congruence | tauto]. Qed.

Lemma completion_ok_finished (j : Job) (t : Time) :
  CompletedAt j = Some t -> Status j = StatusCompleted \/ Status j = StatusFailed ->
  completion_ok j.
Proof. unfold completion_ok. intros -> ?. split; [tauto | discriminate]. Qed.

Lemma pipeline_end_written url j2 w2 err res job' tail cleanup :
  pipeline_end url driveClient j2 w2 err res job' tail cleanup ->
  completion_ok j2 ->
  ID job' = ID j2 /\ completion_ok job' /\ Forall completion_ok (written tail).
Proof.
  destruct 1; intros Hok; (split; [reflexivity |]);
    try (split; [eapply completion_ok_finished; [reflexivity | simpl; auto] |];
         repeat constructor; eapply completion_ok_finished; [reflexivity | simpl; auto]).
  split; [exact Hok | constructor].
Qed.

(** One job through [processJob]: the job leaves the running set
    whatever happens; unless the pipeline panics the worker gets control
    back, with the job saved as completed or, if a stage failed, as
    failed. *)
Lemma processJob_pipeline (id : Z) (job : Job) (w : World) :
  exists res job' w' evs,
    processJob wp id job w = (res, w') /\
    w_db w' = <[ID job := job']> (w_db w) /\
    jobs (w_queue w') = jobs (w_queue w) /\
    capacity (w_queue w') = capacity (w_queue w) /\
    running (w_queue w') = running (w_queue w) ∖ {[ID job]} /\
    w_stop w' = w_stop w /\
    w_trace w' = w_trace w ++ evs /\
    transcodes evs = [(InputPath job, OutputPath job)] /\
    ID job' = ID job /\ DeletedAt job' = DeletedAt job /\
    (CompletedAt job = None ->
     completion_ok job' /\ Forall completion_ok (written evs)) /\
    ((res = Val tt /\ EvSave job' ∈ evs /\
      (Status job' = StatusCompleted \/ Status job' = StatusFailed) /\
      (~ transcode_ok (ffmpeg (InputPath job) (OutputPath job)) ->
       Status job' = StatusFailed /\
       exists msg, EvLog ("Job " +:+ ID job +:+ " failed: " +:+ msg) ∈ evs) /\
      exists msg, last evs = Some (EvLog msg))
     \/ (exists d v, res = Panicked v /\ Status job' = StatusProcessing /\
           driveClient = Some d /\
           UploadFile d (OutputPath job) (outputName job) = Panicked v)).
Proof.
  unfold processJob. do 2 (unfold bind at 1; simpl).
  unfold with_defer. unfold bind at 1. simpl. unfold bind at 1.
  match goal with |- context [createJobProcessor _ _ _ _ _ (job, ?w1)] =>
    destruct (pipeline_outcome cfg ls driveClient client ffmpeg job w1)
      as (err & j2 & w2 & res & job' & tail & cleanup & w' & Hrun & T & Herr & _ & Hend
          & Hdb & Hq & Hs & _ & Htr) end.
  simpl in *. rewrite Hrun.
  destruct T as (S & _ & _ & _ & _ & evs & Hevs & Pevs).
  destruct (same_but_progress_fields _ _ S)
    as (I2 & St2 & _ & O2 & _ & _ & _ & N2 & _ & _ & Dt2).
  simpl in I2, St2, O2, N2, Dt2.
  assert (Hname : outputName j2 = outputName job).
  { unfold outputName. rewrite N2, I2. reflexivity. }
  simpl in Hevs. rewrite Hevs in Htr.
  assert (Hrunning : forall r : gset string, ({[ID job]} ∪ r) ∖ {[ID job]} = r ∖ {[ID job]}).
  { intros r. apply set_eq. intros x.
    rewrite !elem_of_difference, elem_of_union, elem_of_singleton. tauto. }
  assert (Htcs : forall more,
            transcodes
              (EvLog ("Worker " +:+ pretty id +:+ ": processing job " +:+ ID job)
               :: EvSave (processing_job (w_clock w + 1) job)
               :: evs ++ EvTranscode (InputPath job) (OutputPath job) err :: tail ++ more) =
            (InputPath job, OutputPath job) :: transcodes more).
  { intros more.
    change (transcodes (EvLog ?m :: EvSave ?j :: ?l)) with (transcodes l).
    rewrite transcodes_app, (transcodes_progress _ _ Pevs).
    change (transcodes (EvTranscode ?i ?o ?x :: ?l)) with ((i, o) :: transcodes l).
    rewrite transcodes_app, (pipeline_end_transcodes _ _ _ _ _ _ _ _ Hend). reflexivity. }
  assert (Hwr : forall more,
            CompletedAt job = None ->
            ID job' = ID job /\ completion_ok job' /\
            Forall completion_ok
              (written
                 (EvLog ("Worker " +:+ pretty id +:+ ": processing job " +:+ ID job)
                  :: EvSave (processing_job (w_clock w + 1) job)
                  :: evs ++ EvTranscode (InputPath job) (OutputPath job) err
                  :: tail ++ [EvLog more]))).
  { intros more Hnone.
    assert (Hok1 : completion_ok (processing_job (w_clock w + 1) job))
      by (apply completion_ok_unfinished; [exact Hnone | discriminate | discriminate]).
    destruct (pipeline_end_written _ _ _ _ _ _ _ _ Hend (completion_ok_same _ _ S Hok1))
      as (Hid & Hok' & Htail).
    split; [congruence |]. split; [exact Hok' |].
    change (written (EvLog ?m :: EvSave ?j :: ?l)) with (j :: written l).
    constructor; [exact Hok1 |].
    rewrite written_app. apply Forall_app. split; [apply (written_progress _ _ Pevs Hok1) |].
    change (written (EvTranscode ?i ?o ?x :: ?l)) with (written l).
    rewrite written_app. apply Forall_app. split; [exact Htail | constructor]. }
  assert (Hid' : ID job' = ID job /\ DeletedAt job' = DeletedAt job)
    by (inversion Hend; subst; simpl; split; assumption).
  destruct Hid' as (Hid' & Hdel').
  assert (Hends :
            (exists e, res = Val e /\ ID job' = ID job /\ EvSave job' ∈ tail /\
               (Status job' = StatusCompleted \/ Status job' = StatusFailed) /\
               (~ transcode_ok (ffmpeg (InputPath job) (OutputPath job)) ->
                Status job' = StatusFailed /\
                exists msg, EvLog ("Job " +:+ ID job +:+ " failed: " +:+ msg) ∈ tail))
            \/ (exists d v, res = Panicked v /\ tail = [] /\ Status job' = StatusProcessing /\
                  driveClient = Some d /\
                  UploadFile d (OutputPath job) (outputName job) = Panicked v)).
  { inversion Hend; subst; simpl.
    - left. eexists. split; [reflexivity |]. split; [exact I2 |].
      split; [rewrite !elem_of_cons; auto |]. split; [right; reflexivity |].
      intros _. split; [reflexivity |]. eexists. rewrite <- I2, !elem_of_cons. auto.
    - left. eexists. split; [reflexivity |]. split; [exact I2 |].
      split; [rewrite !elem_of_cons; auto |]. split; [right; reflexivity |].
      intros _. split; [reflexivity |]. eexists. rewrite <- I2, !elem_of_cons. auto.
    - right. eexists _, _. split; [reflexivity |]. split; [reflexivity |].
      split; [exact St2 |]. split; [reflexivity |]. rewrite <- O2, <- Hname. assumption.
    - left. eexists. split; [reflexivity |]. split; [exact I2 |].
      split; [rewrite !elem_of_cons; auto |]. split; [left; reflexivity |].
      intros Hno. exfalso. apply Hno, Herr. reflexivity.
    - left. eexists. split; [reflexivity |]. split; [exact I2 |].
      split; [rewrite !elem_of_cons; auto |]. split; [left; reflexivity |].
      intros Hno. exfalso. apply Hno, Herr. reflexivity. }
  destruct Hends as [(e & -> & Hid & Hin & Hst & Hfail) | (d & v & -> & -> & Hst & Hd & Hp)].
  - (* the pipeline returned: the worker logs the outcome *)
    unfold bind at 1. simpl.
    assert (Hlog : exists msg w'',
              (match e with
               | Some e0 =>
                   logf ("Worker " +:+ pretty id +:+ ": job " +:+ ID job
                         +:+ " failed after " +:+ pretty (w_clock w' - w_clock w)
                         +:+ ": " +:+ e0)
               | None =>
                   logf ("Worker " +:+ pretty id +:+ ": job " +:+ ID job
                         +:+ " completed in " +:+ pretty (w_clock w' - w_clock w))
               end) (set_clock (fun t => t + 1) w') = (Val tt, w'') /\
              w'' = emit (EvLog msg) (set_clock (fun t => t + 1) w')).
    { destruct e; eexists _, _; split; reflexivity. }
    destruct Hlog as (msg & w'' & Hlog & ->). rewrite Hlog.
    eexists _, job', _, _. split; [reflexivity |]. simpl.
    rewrite Hdb, Hq, Hs, Htr. simpl. rewrite Hrunning, <- !app_assoc. simpl.
    split; [reflexivity |]. split; [reflexivity |]. split; [reflexivity |].
    split; [reflexivity |]. split; [reflexivity |]. split; [reflexivity |].
    split; [apply (Htcs [EvLog msg]) |].
    split; [exact Hid |]. split; [exact Hdel' |].
    split; [intros Hnone; apply (Hwr msg Hnone) |].
    left. split; [reflexivity |]. split.
    { rewrite !elem_of_cons, !elem_of_app, !elem_of_cons, elem_of_app. auto 10. }
    split; [exact Hst |]. split.
    { intros Hno. destruct (Hfail Hno) as (Hf & m & Hm). split; [exact Hf |].
      exists m. rewrite !elem_of_cons, !elem_of_app, !elem_of_cons, elem_of_app. auto 10. }
    exists msg. rewrite !app_comm_cons, !app_assoc. apply last_snoc.
  - (* the pipeline panicked: only the deferred call runs *)
    eexists _, job', _, _. split; [reflexivity |]. simpl.
    rewrite Hdb, Hq, Hs, Htr. simpl. rewrite Hrunning, <- !app_assoc. simpl.
    split; [reflexivity |]. split; [reflexivity |]. split; [reflexivity |].
    split; [reflexivity |]. split; [reflexivity |]. split; [reflexivity |].
    split; [rewrite <- (app_nil_r [EvTranscode _ _ _]); apply (Htcs []) |].
    split; [exact Hid' |]. split; [exact Hdel' |]. split.
    { intros Hnone. destruct (Hwr "" Hnone) as (_ & Hok' & Hall). split; [exact Hok' |].
      change (written (EvLog ?m :: EvSave ?j :: ?l)) with (j :: written l) in Hall |- *.
      apply Forall_cons in Hall as [H1 Hall]. constructor; [exact H1 |].
      rewrite written_app in Hall |- *. apply Forall_app in Hall as [H2 _].
      apply Forall_app. split; [exact H2 | constructor]. }
    right. eexists _, _. split; [reflexivity |]. split; [exact Hst |].
    split; [exact Hd | exact Hp].
Qed.
End Worker.

Section WorkerLoop.
Import Storage WebhookClient Pool Transcoder Main.
Variable cfg : Config.
Variable ls : LocalStorage.
Variable driveClient : option GoogleDriveClient.
Variable client : Client.
Variable ffmpeg : string -> string -> FFmpegRun.
Variable id : Z.

Local Abbreviation wp := (pipeline_pool cfg ls driveClient client ffmpeg).

Hypothesis upload_returns :
  forall d path name, driveClient = Some d -> exists r, UploadFile d path name = Val r.

End WorkerLoop.




(** ** Cancellation *)

Section Cancel.
Import Api.
Variable h : Handler.

(** What the cancel-or-delete handler does to the table, the queue and
    the trace. *)
Lemma DeleteJob_effect (id : string) (w : World) :
  let w' := snd (DeleteJob h id w) in
  w_queue w' = w_queue w /\
  match w_db w !! id with
  | Some j =>
      if DB.live j then
        if decide (Status j = StatusPending \/ Status j = StatusProcessing) then
          w_db w' = alter (stamp_deleted (w_clock w + 1)) id
                      (<[ID j := cancelled_job (w_clock w) j]> (w_db w)) /\
          w_trace w' = w_trace w ++ [EvSave (cancelled_job (w_clock w) j); EvSoftDelete id]
        else
          w_db w' = alter (stamp_deleted (w_clock w)) id (w_db w) /\
          w_trace w' = w_trace w ++ [EvSoftDelete id]
      else w' = w
  | None => w' = w
  end.
Proof.
  cbv zeta. unfold DeleteJob, DB.GetJob, Storage.CleanupJob, bind, get. simpl.
  destruct (w_db w !! id) as [j |] eqn:Hj; [| split; reflexivity].
  destruct (DB.live j) eqn:Hlive; [| split; reflexivity]. simpl.
  destruct (decide (Status j = StatusPending \/ Status j = StatusProcessing)) as [Hp | Hp];
    simpl;
    destruct (decide (InputPath j ≠ "")), (decide (OutputPath j ≠ "")); simpl;
    (split; [reflexivity | split; [reflexivity |]]);
    try rewrite <- app_assoc; reflexivity.
Qed.
End Cancel.

(** The pipeline does not read the table.  Handed a job, whatever the
    table holds for it (in particular a record cancelled while the job was
    pending), it first saves the job as processing, runs the transcode,
    and leaves the stored record completed or failed (or processing, when
    the upload panics), never cancelled. *)
Lemma pipeline_ignores_stored_status (cfg : Main.Config)
    (ls : Storage.LocalStorage) (driveClient : option Main.GoogleDriveClient)
    (client : WebhookClient.Client) (ffmpeg : string -> string -> Transcoder.FFmpegRun)
    (job : Job) (w : World) :
  exists res job' w' err evs,
    Main.createJobProcessor cfg ls driveClient client ffmpeg (job, w) = (res, (job', w')) /\
    w_db w' !! ID job = Some job' /\
    (Status job' = StatusProcessing \/ Status job' = StatusCompleted \/
     Status job' = StatusFailed) /\
    w_trace w' = w_trace w ++ EvSave (processing_job (w_clock w) job) :: evs /\
    EvTranscode (InputPath job) (OutputPath job) err ∈ evs.
Proof.
  destruct (pipeline_outcome cfg ls driveClient client ffmpeg job w)
    as (err & j2 & w2 & res & job' & tail & cleanup & w' & Hrun & T & _ & _ & Hend
        & Hdb & _ & _ & _ & Htr).
  destruct T as (S & _ & _ & _ & _ & evs & Hevs & _).
  destruct (same_but_progress_fields _ _ S) as (_ & St2 & _). simpl in St2.
  exists res, job', w', err, (evs ++ EvTranscode (InputPath job) (OutputPath job) err :: tail).
  split; [exact Hrun |]. split; [rewrite Hdb; apply lookup_insert_eq |].
  split; [inversion Hend; subst; simpl; auto |].
  split.
  - rewrite Htr, Hevs. unfold started. simpl. rewrite <- !app_assoc. reflexivity.
  - rewrite elem_of_app, elem_of_cons. auto.
Qed.

(** C1 does not hold of the code: j1 is cancelled while it is pending,
    its stale reference is still queued, and the worker that dequeues it
    runs the pipeline all the same: the stored status goes from cancelled
    to processing and, the input being gone, to failed. *)
Lemma cancelled_job_is_processed :
  Status <$> (w_db cancelled_pending !! "j1") = Some StatusCancelled /\
  ID <$> jobs (w_queue cancelled_pending) = ["j1"] /\
  Status <$> (w_db after_stale_run !! "j1") = Some StatusFailed /\
  saved_statuses (w_trace after_stale_run) =
    [("j1", StatusPending); ("j1", StatusCancelled); ("j1", StatusProcessing);
     ("j1", StatusFailed)] /\
  transcodes (w_trace after_stale_run) = [("/data/uploads/j1.mov", "/data/outputs/j1.mp4")].
Proof.
  repeat split; vm_compute; reflexivity.
Qed.

(** ** The lifecycle invariant *)

Section Lifecycle.
Import Storage WebhookClient Pool Transcoder Main Api.

Lemma lifecycle_inv_initial (bufferSize : nat) : lifecycle_inv (initial bufferSize).
Proof.
  split; [| split; [| split]].
  - intros k j Hk. simpl in Hk. rewrite lookup_empty in Hk. discriminate.
  - intros k j Hk. simpl in Hk. rewrite lookup_empty in Hk. discriminate.
  - constructor.
  - constructor.
Qed.

(** The invariant survives a write of one good version under its own
    key, whatever else is appended to the trace. *)
Lemma lifecycle_inv_write (w w' : World) (j : Job) (evs : list Event) :
  lifecycle_inv w ->
  w_db w' = <[ID j := j]> (w_db w) -> row_ok j ->
  Forall queued_ok (jobs (w_queue w')) ->
  w_trace w' = w_trace w ++ evs -> Forall completion_ok (written evs) ->
  lifecycle_inv w'.
Proof.
  intros (Hwf & Hrows & _ & Htr) Hdb Hok Hq Ht Hevs.
  split; [| split; [| split]].
  - intros k r. rewrite Hdb, lookup_insert. case_decide as Hk.
    + intros [= <-]. exact Hk.
    + apply Hwf.
  - intros k r. rewrite Hdb, lookup_insert. case_decide as Hk.
    + intros [= <-]. exact Hok.
    + apply Hrows.
  - exact Hq.
  - rewrite Ht, written_app. apply Forall_app. split; assumption.
Qed.

(** The invariant survives changes that leave the table alone. *)
Lemma lifecycle_inv_frame (w w' : World) (evs : list Event) :
  lifecycle_inv w ->
  w_db w' = w_db w ->
  Forall queued_ok (jobs (w_queue w')) ->
  w_trace w' = w_trace w ++ evs -> Forall completion_ok (written evs) ->
  lifecycle_inv w'.
Proof.
  intros (Hwf & Hrows & _ & Htr) Hdb Hq Ht Hevs.
  split; [| split; [| split]]; try (rewrite Hdb; assumption); [exact Hq |].
  rewrite Ht, written_app. apply Forall_app. split; assumption.
Qed.

Lemma CreateJob_inv (h : Handler) (uuid : string) (file : option Upload) (w : World) :
  lifecycle_inv w -> lifecycle_inv (snd (CreateJob h uuid file w)).
Proof.
  intros Hinv. pose proof Hinv as (_ & _ & Hq & _).
  unfold CreateJob, SaveUpload, DB.CreateJob, DeleteFile, Enqueue, try_send, bind, get.
  destruct file as [[name [content |]] |]; simpl;
    try (eapply (lifecycle_inv_frame w _ []); eauto using app_nil_r; constructor).
  destruct (w_db w !! uuid) as [old |] eqn:Hold; simpl.
  - destruct (decide _); simpl;
      [eapply (lifecycle_inv_frame w _ []); eauto using app_nil_r; constructor |].
    rewrite lookup_insert_eq. simpl.
    eapply (lifecycle_inv_frame w _ []); eauto using app_nil_r; constructor.
  - destruct (decide (length (jobs (w_queue w)) < capacity (w_queue w))%nat); simpl.
    + match goal with |- context [EvCreate ?j] =>
        eapply (lifecycle_inv_write w _ j [_; _]); [exact Hinv | reflexivity | | | | ] end.
      * split; [| intros Hd; contradiction Hd; reflexivity].
        refine (completion_ok_unfinished _ _ _ _); [reflexivity | discriminate | discriminate].
      * simpl. apply Forall_app. split; [exact Hq |].
        constructor; [split; reflexivity | constructor].
      * simpl. rewrite <- app_assoc. reflexivity.
      * constructor; [| constructor].
        refine (completion_ok_unfinished _ _ _ _); [reflexivity | discriminate | discriminate].
    + match goal with |- context [EvCreate ?j] =>
        eapply (lifecycle_inv_write w _ j [_]); [exact Hinv | reflexivity | | | | ] end.
      * split; [| intros Hd; contradiction Hd; reflexivity].
        refine (completion_ok_unfinished _ _ _ _); [reflexivity | discriminate | discriminate].
      * exact Hq.
      * reflexivity.
      * constructor; [| constructor].
        refine (completion_ok_unfinished _ _ _ _); [reflexivity | discriminate | discriminate].
Qed.

Lemma stamp_deleted_ok (t : Time) (j : Job) :
  row_ok j -> terminal (Status j) -> row_ok (stamp_deleted t j).
Proof.
  unfold stamp_deleted. destruct (DB.live j); [| tauto].
  intros (Hok & _) Hterm. destruct j; simpl in *. split; [exact Hok | intros _; exact Hterm].
Qed.

(** The invariant survives the soft delete of a row that is in a
    terminal state. *)
Lemma lifecycle_inv_stamp (w w' : World) (id : string) (t : Time) (evs : list Event) :
  lifecycle_inv w ->
  (forall r, w_db w !! id = Some r -> terminal (Status r)) ->
  w_db w' = alter (stamp_deleted t) id (w_db w) ->
  w_queue w' = w_queue w ->
  w_trace w' = w_trace w ++ evs -> written evs = [] ->
  lifecycle_inv w'.
Proof.
  intros (Hwf & Hrows & Hq & Htr) Hterm Hdb Hqueue Ht Hevs.
  split; [| split; [| split]].
  - intros k r. rewrite Hdb, lookup_alter. case_decide as Hk.
    + subst k. destruct (w_db w !! id) as [r0 |] eqn:Hr; [| discriminate].
      intros [= <-]. rewrite <- (Hwf _ _ Hr). unfold stamp_deleted.
      destruct (DB.live r0); destruct r0; reflexivity.
    + apply Hwf.
  - intros k r. rewrite Hdb, lookup_alter. case_decide as Hk.
    + subst k. destruct (w_db w !! id) as [r0 |] eqn:Hr; [| discriminate].
      intros [= <-]. apply stamp_deleted_ok; [exact (Hrows _ _ Hr) | exact (Hterm _ eq_refl)].
    + apply Hrows.
  - rewrite Hqueue. exact Hq.
  - rewrite Ht, written_app, Hevs, app_nil_r. exact Htr.
Qed.

Lemma DeleteJob_inv (h : Handler) (id : string) (w : World) :
  lifecycle_inv w -> lifecycle_inv (snd (DeleteJob h id w)).
Proof.
  intros Hinv. pose proof Hinv as (Hwf & Hrows & Hq & _).
  destruct (DeleteJob_effect h id w) as (Hqueue & Hdb). cbv zeta in Hdb.
  destruct (w_db w !! id) as [j |] eqn:Hj; [| rewrite Hdb; exact Hinv].
  destruct (DB.live j) eqn:Hlive; [| rewrite Hdb; exact Hinv].
  pose proof (Hwf _ _ Hj) as Hkey.
  destruct (decide (Status j = StatusPending \/ Status j = StatusProcessing)) as [Hp | Hp];
    destruct Hdb as (Hdb & Ht).
  - assert (Hok : row_ok (cancelled_job (w_clock w) j)).
    { destruct (Hrows _ _ Hj) as (Hj_ok & _). split.
      - unfold completion_ok in *. simpl.
        split; [| intros [? | ?]; discriminate].
        intros Hc. apply Hj_ok in Hc. destruct Hp, Hc; congruence.
      - intros _. right. right. reflexivity. }
    eapply (lifecycle_inv_stamp
              (mkWorld (<[ID j := cancelled_job (w_clock w) j]> (w_db w)) (w_files w)
                 (w_queue w) (w_clock w) (w_stop w)
                 (w_trace w ++ [EvSave (cancelled_job (w_clock w) j)]))
              _ id _ [EvSoftDelete id]).
    + eapply (lifecycle_inv_write w _ (cancelled_job (w_clock w) j) [_]);
        [exact Hinv | reflexivity | exact Hok | exact Hq | reflexivity |].
      constructor; [exact (proj1 Hok) | constructor].
    + intros r. simpl. rewrite Hkey, lookup_insert_eq. intros [= <-].
      right. right. reflexivity.
    + exact Hdb.
    + exact Hqueue.
    + simpl. rewrite Ht, <- app_assoc. reflexivity.
    + reflexivity.
  - eapply (lifecycle_inv_stamp w _ id _ [EvSoftDelete id]); eauto.
    intros r. rewrite Hj. intros [= <-].
    destruct (Status j); unfold terminal; auto; exfalso; apply Hp; auto.
Qed.

Lemma processJob_inv cfg ls driveClient client ffmpeg (id : Z) (job : Job) (w : World) :
  lifecycle_inv w -> queued_ok job ->
  lifecycle_inv (snd (processJob (pipeline_pool cfg ls driveClient client ffmpeg) id job w)) /\
  w_stop (snd (processJob (pipeline_pool cfg ls driveClient client ffmpeg) id job w)) = w_stop w.
Proof.
  intros Hinv (Hnone & Hlive). pose proof Hinv as (_ & _ & Hq & _).
  destruct (processJob_pipeline cfg ls driveClient client ffmpeg id job w)
    as (res & job' & w' & evs & Hrun & Hdb & Hj & _ & _ & Hs & Ht & _ & Hid & Hdel & Hok & _).
  rewrite Hrun. simpl. split; [| exact Hs].
  destruct (Hok Hnone) as (Hok' & Hall).
  eapply (lifecycle_inv_write w w' job' evs); try eassumption.
  - rewrite Hid. exact Hdb.
  - split; [exact Hok' |]. rewrite Hdel, Hlive. intros Hd. contradiction Hd. reflexivity.
  - rewrite Hj. exact Hq.
Qed.

Lemma worker_loop_inv cfg ls driveClient client ffmpeg (id : Z) (fuel : nat) :
  forall w : World,
    lifecycle_inv w ->
    lifecycle_inv (snd (worker_loop (pipeline_pool cfg ls driveClient client ffmpeg) id fuel w)).
Proof.
  induction fuel as [| fuel IH]; intros w Hinv; [exact Hinv |].
  pose proof Hinv as (_ & _ & Hq & _).
  simpl. unfold bind at 1, get.
  destruct (w_stop w) eqn:Hstop.
  - simpl. eapply (lifecycle_inv_frame w _ [_]); eauto; constructor.
  - unfold Dequeue. destruct (jobs (w_queue w)) as [| job rest] eqn:Hjobs; [exact Hinv |].
    unfold bind at 1. simpl. unfold bind at 1.
    apply Forall_cons in Hq as [Hjob Hrest].
    match goal with |- context [processJob ?wp id job ?w1] =>
      destruct (processJob_inv cfg ls driveClient client ffmpeg id job w1) as (Hinv1 & _);
        [eapply (lifecycle_inv_frame w _ []); eauto using app_nil_r; constructor
        | exact Hjob |];
      destruct (processJob wp id job w1) as [[[] | v] w1'] end.
    + apply IH. exact Hinv1.
    + exact Hinv1.
Qed.

Lemma worker_inv cfg ls driveClient client ffmpeg (id : Z) (fuel : nat) (w : World) :
  lifecycle_inv w ->
  lifecycle_inv (snd (worker (pipeline_pool cfg ls driveClient client ffmpeg) id fuel w)).
Proof.
  intros Hinv. pose proof Hinv as (_ & _ & Hq & _).
  unfold worker. unfold bind at 1. simpl. apply worker_loop_inv.
  eapply (lifecycle_inv_frame w _ [_]); eauto; constructor.
Qed.
End Lifecycle.

Section LifecycleRecovery.
Import Main.

Lemma written_recovery_events (sel : list Job) :
  forall free, written (recovery_events free sel) = reset_job <$> sel.
Proof.
  induction sel as [| j rest IH]; intros free; [reflexivity |].
  simpl. change (written (EvSave ?a :: EvLog ?m :: ?l)) with (a :: written l).
  rewrite IH. reflexivity.
Qed.

Lemma written_logs (header : list Event) :
  Forall (fun e => exists msg, e = EvLog msg) header -> written header = [].
Proof.
  induction 1 as [| e l (msg & ->) _ IH]; [reflexivity | exact IH].
Qed.

Lemma reset_job_ok (j : Job) :
  completion_ok j -> recoverable j = true ->
  completion_ok (reset_job j) /\ queued_ok (reset_job j).
Proof.
  unfold completion_ok, queued_ok, recoverable, DB.is_pending, DB.live. intros Hok Hr.
  apply andb_true_iff in Hr as [Hp Hl]. apply bool_decide_eq_true in Hp, Hl.
  assert (Hnone : CompletedAt j = None).
  { destruct (CompletedAt j) as [t |] eqn:Hc; [| reflexivity].
    exfalso. assert (Hne : Some t <> None) by discriminate.
    apply Hok in Hne. destruct Hp, Hne; congruence. }
  simpl. rewrite Hnone, Hl. split; [| split; reflexivity].
  split; [congruence | intros [? | ?]; discriminate].
Qed.

Lemma recoverPendingJobs_inv (w : World) :
  lifecycle_inv w -> lifecycle_inv (snd (recoverPendingJobs w)).
Proof.
  intros (Hwf & Hrows & Hq & Htr).
  destruct (recoverPendingJobs_run w Hwf)
    as (sel & w' & _ & Hsel & _ & _ & Hrun & Hdb & _ & Hjobs & header & Ht & Hh).
  rewrite Hrun. simpl.
  assert (Hsel_ok : forall j, j ∈ sel -> completion_ok (reset_job j) /\
                                          queued_ok (reset_job j)).
  { intros j Hj. apply Hsel in Hj as (Hp & Hd & k & Hk).
    apply reset_job_ok; [exact (proj1 (Hrows _ _ Hk)) |].
    unfold recoverable, DB.is_pending, DB.live.
    apply andb_true_iff. split; apply bool_decide_eq_true; assumption. }
  split; [| split; [| split]].
  - intros k r. rewrite Hdb. destruct (w_db w !! k) as [j |] eqn:Hk; [| discriminate].
    simpl. intros [= <-]. rewrite <- (Hwf _ _ Hk). destruct (recoverable j); reflexivity.
  - intros k r. rewrite Hdb. destruct (w_db w !! k) as [j |] eqn:Hk; [| discriminate].
    simpl. intros [= <-]. destruct (recoverable j) eqn:Hr; [| exact (Hrows _ _ Hk)].
    destruct (reset_job_ok j (proj1 (Hrows _ _ Hk)) Hr) as (Hc & _ & Hl).
    split; [exact Hc |]. rewrite Hl. intros Hd. contradiction Hd. reflexivity.
  - rewrite Hjobs. apply Forall_app. split; [exact Hq |].
    apply Forall_take, Forall_fmap, Forall_forall. intros j Hj. apply (Hsel_ok j Hj).
  - rewrite Ht, !written_app, (written_logs _ Hh), written_recovery_events. simpl.
    apply Forall_app. split; [exact Htr |].
    apply Forall_fmap, Forall_forall. intros j Hj. apply (Hsel_ok j Hj).
Qed.

Lemma step_inv (w w' : World) : step w w' -> lifecycle_inv w -> lifecycle_inv w'.
Proof.
  intros Hstep Hinv. destruct Hstep.
  - apply CreateJob_inv, Hinv.
  - apply DeleteJob_inv, Hinv.
  - apply worker_inv, Hinv.
  - exact Hinv.
  - apply recoverPendingJobs_inv.
    destruct Hinv as (Hwf & Hrows & _ & Htr).
    split; [exact Hwf | split; [exact Hrows | split; [constructor | exact Htr]]].
Qed.

Lemma reachable_inv (w : World) : reachable w -> lifecycle_inv w.
Proof.
  induction 1 as [n | w w' _ IH Hstep]; [apply lifecycle_inv_initial |].
  eapply step_inv; eauto.
Qed.

(** In every reachable state, and so at every restart, the table is as
    the recovery expects it: rows under their keys, soft-deleted rows in
    a terminal state. *)
Lemma reachable_table (w : World) :
  reachable w -> db_wf (w_db w) /\ deleted_terminal (w_db w).
Proof.
  intros Hreach. destruct (reachable_inv w Hreach) as (Hwf & Hrows & _).
  split; [exact Hwf |]. intros k j Hk. exact (proj2 (Hrows k j Hk)).
Qed.
End LifecycleRecovery.

(** C7. In every state the service can reach by submissions, cancel
    requests, worker runs, stops and restarts with recovery, every job
    record in the table has completed_at set if and only if its status is
    completed or failed; the same holds of every version of a record ever
    written (created, saved as processing or with progress, cancelled,
    recovered, completed, failed), and every queued reference has it
    unset. *)
Theorem completed_at_iff_finished (w : World) :
  reachable w ->
  (forall k j, w_db w !! k = Some j ->
     (CompletedAt j <> None <-> Status j = StatusCompleted \/ Status j = StatusFailed)) /\
  Forall (fun j => CompletedAt j <> None <-> Status j = StatusCompleted \/ Status j = StatusFailed)
    (written (w_trace w)) /\
  Forall (fun j => CompletedAt j = None) (jobs (w_queue w)).
Proof.
  intros Hreach. destruct (reachable_inv w Hreach) as (_ & Hrows & Hq & Htr).
  split; [| split; [exact Htr |]].
  - intros k j Hk. exact (proj1 (Hrows k j Hk)).
  - eapply Forall_impl; [exact Hq |]. intros j (Hnone & _). exact Hnone.
Qed.

Lemma completed_at_iff_finished_witness :
  Forall (fun j => CompletedAt j <> None <-> Status j = StatusCompleted \/ Status j = StatusFailed)
    (written (w_trace served_restarted)).
Proof.
  apply (completed_at_iff_finished served_restarted).
  apply (reach_step served served_restarted); [| apply step_restart].
  apply (reach_step submitted served); [| apply step_work].
  apply (reach_step (Main.initial 100) submitted); [| apply step_submit].
  apply reach_initial.
Defined.

(** * Further properties *)

(** ** The queue in use *)

Section QueueUse.

Lemma queue_step_running (jobID : string) (op : QueueOp) (w : World) :
  IsRunning jobID (w_queue (fst (fst (queue_step op w)))) =
    last_mark jobID [op] (IsRunning jobID (w_queue w)).
Proof.
  unfold IsRunning. destruct op as [job | | id | id]; simpl.
  - unfold Enqueue, bind, get. destruct (try_send job (w_queue w)) as [q' |] eqn:Hsend; simpl.
    + unfold try_send in Hsend. destruct (decide _); [| discriminate].
      injection Hsend as <-. reflexivity.
    + reflexivity.
  - unfold Dequeue. destruct (jobs (w_queue w)); reflexivity.
  - destruct (decide (id = jobID)) as [-> | Hne].
    + apply bool_decide_eq_true, elem_of_union_l, elem_of_singleton. reflexivity.
    + apply bool_decide_ext. rewrite elem_of_union, elem_of_singleton.
      split; [intros [Heq | Hin]; [congruence | exact Hin] | auto].
  - destruct (decide (id = jobID)) as [-> | Hne].
    + apply bool_decide_eq_false. rewrite elem_of_difference, elem_of_singleton. tauto.
    + apply bool_decide_ext. rewrite elem_of_difference, elem_of_singleton.
      split; [tauto | intros Hin; split; [exact Hin | congruence]].
Qed.

Lemma last_mark_cons (jobID : string) (op : QueueOp) (ops : list QueueOp) (b : bool) :
  last_mark jobID (op :: ops) b = last_mark jobID ops (last_mark jobID [op] b).
Proof. destruct op; reflexivity. Qed.

Lemma queue_run_running (jobID : string) (ops : list QueueOp) :
  forall w : World,
    IsRunning jobID (w_queue (fst (fst (queue_run ops w)))) =
      last_mark jobID ops (IsRunning jobID (w_queue w)).
Proof.
  induction ops as [| op rest IH]; intros w; [reflexivity |].
  rewrite last_mark_cons, <- queue_step_running, <- IH. simpl.
  destruct (queue_step op w) as [[w1 sent] got]. simpl.
  destruct (queue_run rest w1) as [[w2 accepted] received]. reflexivity.
Qed.

End QueueUse.

(** What a sequence of sends and receives keeps, from any state of the
    channel: the jobs received and the jobs buffered are, in order, those
    there were followed by those accepted since. *)
Lemma chan_run_inv (ops : list ChanOp) :
  forall q : Chan.Queue,
    parked_on_empty (Chan.jobs q) ->
    (Chan.Size q <= Chan.dataqsiz (Chan.jobs q))%nat ->
    let '(q', accepted) := chan_run ops q in
    parked_on_empty (Chan.jobs q') /\
    Chan.dataqsiz (Chan.jobs q') = Chan.dataqsiz (Chan.jobs q) /\
    (Chan.Size q' <= Chan.dataqsiz (Chan.jobs q'))%nat /\
    (snd <$> Chan.received q') ++ Chan.buf (Chan.jobs q') =
      (snd <$> Chan.received q) ++ Chan.buf (Chan.jobs q) ++ accepted.
Proof.
  induction ops as [| op rest IH]; intros q Hinv Hle.
  - simpl. rewrite app_nil_r. auto.
  - destruct op as [job | g]; simpl.
    + destruct (Enqueue_keeps_channel job q Hinv) as (Hinv1 & Hcap1 & Hle1).
      specialize (Hle1 Hle).
      assert (Hacc :
        (fst (Chan.Enqueue job q) = Val None /\
         (snd <$> Chan.received (snd (Chan.Enqueue job q))) ++
           Chan.buf (Chan.jobs (snd (Chan.Enqueue job q))) =
         (snd <$> Chan.received q) ++ Chan.buf (Chan.jobs q) ++ [job]) \/
        Chan.Enqueue job q = (Val (Some ErrQueueFull), q)).
      { unfold Chan.Enqueue. rewrite chansend_cases. unfold parked_on_empty in Hinv.
        destruct (Chan.recvq (Chan.jobs q)) as [| g rest'] eqn:Hq.
        - destruct (decide _); [left | right; reflexivity]. simpl.
          rewrite app_nil_r. split; reflexivity.
        - destruct (decide _); [right; reflexivity | left]. simpl.
          rewrite Hinv by discriminate.
          rewrite fmap_app, !app_nil_r. split; reflexivity. }
      destruct (Chan.Enqueue job q) as [r q1] eqn:Hrun. simpl in *.
      specialize (IH q1 Hinv1 Hle1).
      destruct Hacc as [(-> & Hjobs) | Hfull].
      * destruct (chan_run rest q1) as [q2 accepted].
        destruct IH as (I2 & C2 & L2 & J2).
        split; [exact I2 |]. split; [congruence |]. split; [exact L2 |].
        rewrite J2, app_assoc, Hjobs, <- !app_assoc. reflexivity.
      * injection Hfull as -> ->.
        destruct (chan_run rest q) as [q2 accepted]. exact IH.
    + destruct (Dequeue_keeps_channel g q Hinv) as (Hinv1 & Hcap1 & Hle1).
      specialize (Hle1 Hle).
      assert (Hjobs :
        (snd <$> Chan.received (snd (Chan.Dequeue g q))) ++
          Chan.buf (Chan.jobs (snd (Chan.Dequeue g q))) =
        (snd <$> Chan.received q) ++ Chan.buf (Chan.jobs q)).
      { unfold Chan.Dequeue, Chan.chanrecv.
        destruct (Chan.buf (Chan.jobs q)) as [| job rest']; simpl; [reflexivity |].
        rewrite fmap_app, <- app_assoc. reflexivity. }
      specialize (IH (snd (Chan.Dequeue g q)) Hinv1 Hle1).
      destruct (chan_run rest (snd (Chan.Dequeue g q))) as [q2 accepted].
      destruct IH as (I2 & C2 & L2 & J2).
      split; [exact I2 |]. split; [congruence |]. split; [exact L2 |].
      rewrite J2, app_assoc, Hjobs, <- app_assoc. reflexivity.
Qed.

(** The queue is first in, first out and bounded.  Whatever the handlers,
    the recovery and the workers do with a new queue of [bufferSize]
    slots, in whatever order: the jobs received, at once or by a worker
    that was waiting, are in order the first of the jobs accepted, the
    others waiting in the buffer in their order; [Size] counts those
    waiting and never exceeds [bufferSize]; workers wait only while the
    buffer is empty; and an [Enqueue] is refused exactly when [Size] has
    reached [bufferSize] and no worker is waiting, which for a queue with
    a buffer is when [Size] has reached [bufferSize]. *)
Theorem queue_fifo_bounded (bufferSize : nat) (ops : list ChanOp) :
  let '(q, accepted) := chan_run ops (Chan.NewQueue bufferSize) in
  accepted = (snd <$> Chan.received q) ++ Chan.buf (Chan.jobs q) /\
  Chan.Size q = (length accepted - length (Chan.received q))%nat /\
  (Chan.Size q <= bufferSize)%nat /\
  (Chan.recvq (Chan.jobs q) <> [] -> Chan.Size q = 0%nat) /\
  (forall job,
     fst (Chan.Enqueue job q) = Val (Some ErrQueueFull) <->
     Chan.Size q = bufferSize /\ Chan.recvq (Chan.jobs q) = []) /\
  ((0 < bufferSize)%nat ->
   forall job,
     fst (Chan.Enqueue job q) = Val (Some ErrQueueFull) <-> Chan.Size q = bufferSize).
Proof.
  pose proof (chan_run_inv ops (Chan.NewQueue bufferSize)
                ltac:(intros _; reflexivity) (Nat.le_0_l _)) as Hinv.
  destruct (chan_run ops (Chan.NewQueue bufferSize)) as [q accepted].
  destruct Hinv as (Hpark & Hcap & Hle & Hjobs). simpl in Hcap, Hjobs.
  unfold parked_on_empty in Hpark. unfold Chan.Size in *. rewrite Hcap in Hle.
  assert (Hfull : forall job,
            fst (Chan.Enqueue job q) = Val (Some ErrQueueFull) <->
            length (Chan.buf (Chan.jobs q)) = bufferSize /\ Chan.recvq (Chan.jobs q) = []).
  { intros job. unfold Chan.Enqueue. rewrite chansend_cases, Hcap.
    destruct (Chan.recvq (Chan.jobs q)) as [| g rest] eqn:Hq.
    - destruct (decide _) as [Hfree | Hge]; simpl.
      + split; [discriminate | intros (Heq & _); lia].
      + split; [intros _; split; [lia | reflexivity] | reflexivity].
    - destruct (decide _) as [(Hpos & Heq) | _]; simpl.
      + exfalso. rewrite Hpark in Heq by discriminate. simpl in Heq. lia.
      + split; [discriminate | intros (_ & [=])]. }
  split; [symmetry; exact Hjobs |].
  split; [rewrite <- Hjobs, length_app, length_fmap; lia |].
  split; [exact Hle |].
  split; [intros Hne; rewrite (Hpark Hne); reflexivity |].
  split; [exact Hfull |].
  intros Hpos job. rewrite Hfull. split; [tauto |].
  intros Heq. split; [exact Heq |].
  destruct (Chan.recvq (Chan.jobs q)) as [| g rest] eqn:Hq; [reflexivity |].
  rewrite Hpark in Heq by discriminate. simpl in Heq. lia.
Qed.

(** The running set is a set of identifiers, not a count.  After any use
    of the queue, a job is reported as running exactly when the last
    marking of its identifier was [MarkRunning]; markings of other
    identifiers, sends and receives make no difference, and the markings
    leave the buffer alone. *)
Theorem running_set_last_mark (jobID : string) (ops : list QueueOp) (w : World) :
  IsRunning jobID (w_queue (fst (fst (queue_run ops w)))) =
    last_mark jobID ops (IsRunning jobID (w_queue w)) /\
  (forall id,
     jobs (MarkRunning id (w_queue w)) = jobs (w_queue w) /\
     jobs (MarkDone id (w_queue w)) = jobs (w_queue w)).
Proof.
  split; [apply queue_run_running |]. intros id. split; reflexivity.
Qed.

(** ** A worker and its processor *)

(** [processJob] runs the processor of the pool exactly once, on the job
    it was handed and with the job marked as running; when the processor
    is through the mark is gone, whether it returned nil or an error or
    panicked.  What the processor returns only decides the log line that
    follows; a panic is passed on to the caller, with no log line.
    Beside the running set, the clock and the log, [processJob] itself
    changes nothing. *)
Theorem processJob_brackets_processor (wp : Pool.WorkerPool) (id : Z) (job : Job) (w : World) :
  let w1 :=
    set_clock (fun t => t + 1)
      (set_queue (MarkRunning (ID job))
         (emit (EvLog ("Worker " +:+ pretty id +:+ ": processing job " +:+ ID job)) w)) in
  IsRunning (ID job) (w_queue w1) = true /\
  exists r job2 w2 w',
    Pool.processor wp (job, w1) = (r, (job2, w2)) /\
    Pool.processJob wp id job w =
      (match r with Val _ => Val tt | Panicked v => Panicked v end, w') /\
    IsRunning (ID job) (w_queue w') = false /\
    jobs (w_queue w') = jobs (w_queue w2) /\ capacity (w_queue w') = capacity (w_queue w2) /\
    w_db w' = w_db w2 /\ w_files w' = w_files w2 /\ w_stop w' = w_stop w2 /\
    (forall v, r = Panicked v -> w_trace w' = w_trace w2) /\
    (forall e, r = Val e -> exists msg, w_trace w' = w_trace w2 ++ [EvLog msg]).
Proof.
  cbv zeta. split.
  { unfold IsRunning. apply bool_decide_eq_true. simpl.
    apply elem_of_union_l, elem_of_singleton. reflexivity. }
  unfold Pool.processJob.
  unfold bind at 1. simpl. unfold bind at 1. simpl.
  unfold with_defer. unfold bind at 1. simpl. unfold bind at 1.
  match goal with |- context [Pool.processor wp ?s] =>
    change s with
      (job, set_clock (fun t => t + 1)
              (set_queue (MarkRunning (ID job))
                 (emit (EvLog ("Worker " +:+ pretty id +:+ ": processing job " +:+ ID job)) w)));
    destruct (Pool.processor wp s) as [r [job2 w2]] eqn:Hproc
  end.
  assert (Hdone : forall q : Queue, IsRunning (ID job) (MarkDone (ID job) q) = false).
  { intros q. unfold IsRunning. apply bool_decide_eq_false. simpl.
    rewrite elem_of_difference, elem_of_singleton. tauto. }
  destruct r as [e | v].
  - unfold bind at 1. simpl.
    destruct e as [e |]; simpl;
      (eexists _, job2, w2, _; split; [reflexivity |]; split; [reflexivity |]; simpl;
       split; [apply Hdone |]; do 5 (split; [reflexivity |]);
       split; [intros v [=] | intros e' _; eexists; reflexivity]).
  - eexists _, job2, w2, _. split; [reflexivity |]. split; [reflexivity |]. simpl.
    split; [apply Hdone |]. do 5 (split; [reflexivity |]).
    split; [intros v' _; reflexivity | intros e [=]].
Qed.

(** ** Local files *)

Section LocalFiles.
Import Storage.
Variable ls : LocalStorage.

Lemma string_of_list_ascii_app (a b : list ascii) :
  String.string_of_list_ascii (a ++ b) =
    String.string_of_list_ascii a +:+ String.string_of_list_ascii b.
Proof. induction a as [| c a IH]; simpl; [reflexivity | rewrite IH; reflexivity]. Qed.

Lemma list_ascii_of_string_app (a b : string) :
  String.list_ascii_of_string (a +:+ b) =
    String.list_ascii_of_string a ++ String.list_ascii_of_string b.
Proof. induction a as [| c a IH]; simpl; [reflexivity | rewrite IH; reflexivity]. Qed.

Lemma elem_of_rev (c : ascii) (l : list ascii) : c ∈ rev l <-> c ∈ l.
Proof. rewrite !list_elem_of_In. symmetry. apply in_rev. Qed.

(** The scan from the end of a path: nothing, where a slash comes
    before any dot; otherwise the last dot and what follows it. *)
Lemma ext_scan_spec (l : list ascii) :
  forall acc,
    (ext_scan l acc = [] /\
     forall l1 l2, l = l1 ++ "."%char :: l2 -> "/"%char ∈ l1)
    \/ exists l1 l2,
         l = l1 ++ "."%char :: l2 /\ ("."%char ∉ l1) /\ ("/"%char ∉ l1) /\
         ext_scan l acc = "."%char :: rev l1 ++ acc.
Proof.
  induction l as [| c l IH]; intros acc; simpl.
  - left. split; [reflexivity |]. intros [| ? ?] l2; discriminate.
  - destruct (decide (c = "/"%char)) as [-> | Hslash].
    + left. split; [reflexivity |].
      intros [| c1 l1] l2 Heq; simpl in Heq; [discriminate |].
      injection Heq as <- _. apply list_elem_of_here.
    + destruct (decide (c = "."%char)) as [-> | Hdot].
      * right. exists [], l. simpl. repeat split; auto using not_elem_of_nil.
      * destruct (IH (c :: acc)) as [(Hnil & Hall) | (l1 & l2 & -> & Hd & Hs & Hres)].
        -- left. split; [exact Hnil |].
           intros [| c1 l1] l2 Heq; simpl in Heq; [congruence |].
           injection Heq as <- ->. apply list_elem_of_further. eapply Hall. reflexivity.
        -- right. exists (c :: l1), l2. simpl.
           split; [reflexivity |].
           split; [apply not_elem_of_cons; auto |].
           split; [apply not_elem_of_cons; auto |].
           rewrite Hres, <- app_assoc. reflexivity.
Qed.

(** [Ext]: the end of the name from the last dot of its last element
    on. *)
Lemma Ext_spec (path : string) :
  (Ext path = "" /\
   forall stem r, path = stem +:+ String "."%char r ->
                  "/"%char ∈ String.list_ascii_of_string r)
  \/ exists stem r,
       path = stem +:+ String "."%char r /\ Ext path = String "."%char r /\
       ("."%char ∉ String.list_ascii_of_string r) /\
       ("/"%char ∉ String.list_ascii_of_string r).
Proof.
  unfold Ext.
  destruct (ext_scan_spec (rev (String.list_ascii_of_string path)) [])
    as [(Hnil & Hall) | (l1 & l2 & Hsplit & Hd & Hs & Hres)].
  - left. rewrite Hnil. split; [reflexivity |].
    intros stem r ->. rewrite list_ascii_of_string_app in Hall. simpl in Hall.
    rewrite rev_app_distr in Hall. simpl in Hall. rewrite <- app_assoc in Hall. simpl in Hall.
    specialize (Hall _ _ eq_refl). exact (proj1 (elem_of_rev _ _) Hall).
  - right. rewrite Hres, app_nil_r.
    exists (String.string_of_list_ascii (rev l2)), (String.string_of_list_ascii (rev l1)).
    rewrite !String.list_ascii_of_string_of_list_ascii.
    split.
    { rewrite <- (String.string_of_list_ascii_of_string path).
      rewrite <- (rev_involutive (String.list_ascii_of_string path)), Hsplit.
      rewrite rev_app_distr. simpl. rewrite <- app_assoc. simpl.
      rewrite string_of_list_ascii_app. reflexivity. }
    split; [reflexivity |].
    split; rewrite elem_of_rev; assumption.
Qed.

End LocalFiles.

(** Whenever [SaveUpload] returns without an error, the upload was read
    through and is saved as [uploads/<job id><extension>] under the base
    directory, the path being cleaned; what is kept of the client's file
    name is its extension alone: the end of the name from its last dot
    on, a dot followed by bytes that are neither dots nor slashes, or
    nothing where the last element of the name has no dot.  The saved
    upload reads back as it was sent, with its size, whatever was at the
    path before; and no other file is touched. *)
Theorem SaveUpload_round_trip (ls : Storage.LocalStorage)
    (jobID filename path : string) (reader : option string) (w w' : World) :
  Storage.SaveUpload ls jobID filename reader w = (Val (path, None), w') ->
  exists ext content,
    reader = Some content /\
    path = Storage.Join [Storage.baseDir ls; "uploads"; jobID +:+ ext] /\
    ((ext = "" /\
      forall stem r, filename = stem +:+ String "."%char r ->
                     "/"%char ∈ String.list_ascii_of_string r)
     \/ exists stem r,
          filename = stem +:+ ext /\ ext = String "."%char r /\
          ("."%char ∉ String.list_ascii_of_string r) /\
          ("/"%char ∉ String.list_ascii_of_string r)) /\
    Storage.OpenFile ls path w' = (Val (Some content, None), w') /\
    Storage.GetFileSize ls path w' =
      (Val (Z.of_nat (String.length content), None), w') /\
    Storage.FileExists ls path w' = (Val true, w') /\
    (forall p, p <> path -> w_files w' !! p = w_files w !! p) /\
    w_db w' = w_db w /\ w_queue w' = w_queue w /\ w_trace w' = w_trace w.
Proof.
  intros Hrun. destruct reader as [content |]; [| discriminate Hrun].
  unfold Storage.SaveUpload, bind in Hrun. simpl in Hrun. injection Hrun as <- <-.
  exists (Storage.Ext filename), content.
  split; [reflexivity |]. split; [reflexivity |].
  split.
  { destruct (Ext_spec filename) as [(Hnil & Hall) | (stem & r & Hname & Hext & Hd & Hs)].
    - left. split; assumption.
    - right. exists stem, r. rewrite Hext. repeat split; assumption. }
  unfold Storage.OpenFile, Storage.GetFileSize, Storage.FileExists, bind, get. simpl.
  rewrite !lookup_insert_eq. simpl.
  split; [reflexivity |]. split; [reflexivity |].
  split; [first [reflexivity | rewrite bool_decide_eq_true_2 by eauto; reflexivity] |].
  split; [| repeat split].
  intros p Hp. rewrite !lookup_insert_ne by congruence. reflexivity.
Qed.

Lemma SaveUpload_round_trip_witness :
  let w' :=
    snd (Storage.SaveUpload sample_storage "j1" "video.mov" (Some "bytes") (Main.initial 1)) in
  Storage.OpenFile sample_storage "/data/uploads/j1.mov" w' = (Val (Some "bytes", None), w').
Proof.
  destruct (SaveUpload_round_trip sample_storage "j1" "video.mov" "/data/uploads/j1.mov"
              (Some "bytes") (Main.initial 1)
              (snd (Storage.SaveUpload sample_storage "j1" "video.mov" (Some "bytes")
                      (Main.initial 1)))
              ltac:(vm_compute; reflexivity))
    as (ext & content & Hreader & _ & _ & Hopen & _).
  injection Hreader as <-. exact Hopen.
Defined.

(** An upload whose content cannot be read through leaves no file behind
    at its path, not even the one that was there before, changes no other
    file and returns an error with an empty path. *)
Theorem SaveUpload_failure_leaves_no_file (ls : Storage.LocalStorage)
    (jobID filename : string) (w : World) :
  let savePath :=
    Storage.Join [Storage.baseDir ls; "uploads"; jobID +:+ Storage.Ext filename] in
  exists err w',
    Storage.SaveUpload ls jobID filename None w = (Val ("", Some err), w') /\
    Storage.FileExists ls savePath w' = (Val false, w') /\
    (forall p, p <> savePath -> w_files w' !! p = w_files w !! p) /\
    w_db w' = w_db w /\ w_queue w' = w_queue w /\ w_trace w' = w_trace w.
Proof.
  cbv zeta. eexists _, _. split; [reflexivity |].
  unfold Storage.FileExists, bind, get. simpl.
  rewrite lookup_delete_eq.
  split; [first [reflexivity | rewrite bool_decide_eq_false_2 by (intros [? [=]]); reflexivity] |].
  split; [| repeat split].
  intros p Hp. rewrite lookup_delete_ne, lookup_insert_ne by congruence. reflexivity.
Qed.

(** [DeleteFile] does nothing and reports no error for the empty path;
    for a path that names no file it reports an error and changes
    nothing; and it removes the file at any other path, that file alone,
    so that a second call for the same path reports an error. *)
Theorem DeleteFile_cases (ls : Storage.LocalStorage) (path : string) (w : World) :
  (path = "" -> Storage.DeleteFile ls path w = (Val None, w)) /\
  (path <> "" -> w_files w !! path = None ->
   exists e, Storage.DeleteFile ls path w = (Val (Some e), w)) /\
  (path <> "" -> is_Some (w_files w !! path) ->
   exists w',
     Storage.DeleteFile ls path w = (Val None, w') /\
     Storage.FileExists ls path w' = (Val false, w') /\
     (forall p, p <> path -> w_files w' !! p = w_files w !! p) /\
     w_db w' = w_db w /\ w_queue w' = w_queue w /\ w_trace w' = w_trace w /\
     exists e, Storage.DeleteFile ls path w' = (Val (Some e), w')).
Proof.
  unfold Storage.DeleteFile, Storage.FileExists.
  split; [| split].
  - intros ->. reflexivity.
  - intros Hne Hnone. destruct (decide (path = "")); [contradiction |].
    unfold bind, get. simpl. rewrite Hnone. eexists. reflexivity.
  - intros Hne [content Hsome]. destruct (decide (path = "")); [contradiction |].
    unfold bind, get. simpl. rewrite Hsome. simpl.
    eexists. split; [reflexivity |]. simpl. rewrite lookup_delete_eq.
    split; [first [reflexivity | rewrite bool_decide_eq_false_2 by (intros [? [=]]); reflexivity] |].
    split; [intros p Hp; rewrite lookup_delete_ne by congruence; reflexivity |].
    do 3 (split; [reflexivity |]). eexists. reflexivity.
Qed.

Lemma DeleteFile_cases_witness :
  exists w',
    Storage.DeleteFile sample_storage "/data/uploads/j1.mov" submitted = (Val None, w') /\
    Storage.FileExists sample_storage "/data/uploads/j1.mov" w' = (Val false, w').
Proof.
  destruct (proj2 (proj2 (DeleteFile_cases sample_storage "/data/uploads/j1.mov" submitted)))
    as (w' & Hdel & Hgone & _).
  - discriminate.
  - vm_compute. eexists. reflexivity.
  - exists w'. split; assumption.
Defined.

Lemma CleanupJob_files (ls : Storage.LocalStorage) (inputPath outputPath : string) (w : World) :
  Storage.CleanupJob ls inputPath outputPath w =
    (Val tt, set_files (released inputPath outputPath) w).
Proof.
  unfold Storage.CleanupJob, released, bind. simpl.
  destruct (decide (inputPath ≠ "")), (decide (outputPath ≠ "")); destruct w; reflexivity.
Qed.

Lemma released_lookup (inputPath outputPath p : string) (files : gmap string string) :
  released inputPath outputPath files !! p =
    if decide ((inputPath <> "" /\ p = inputPath) \/ (outputPath <> "" /\ p = outputPath))
    then None else files !! p.
Proof.
  unfold released.
  destruct (decide (inputPath ≠ "")) as [Hi | Hi], (decide (outputPath ≠ "")) as [Ho | Ho];
    rewrite ?lookup_delete; repeat case_decide; try reflexivity; try tauto;
    exfalso; intuition congruence.
Qed.

(** [CleanupJob] leaves no file at either of the two paths, whether or
    not there was one, touches no other file, skips an empty path, never
    fails, and done twice comes to the same as done once. *)
Theorem CleanupJob_removes_both (ls : Storage.LocalStorage)
    (inputPath outputPath : string) (w : World) :
  exists w',
    Storage.CleanupJob ls inputPath outputPath w = (Val tt, w') /\
    (inputPath <> "" -> w_files w' !! inputPath = None) /\
    (outputPath <> "" -> w_files w' !! outputPath = None) /\
    (forall p, p <> inputPath -> p <> outputPath -> w_files w' !! p = w_files w !! p) /\
    (inputPath = "" -> outputPath = "" -> w' = w) /\
    w_db w' = w_db w /\ w_queue w' = w_queue w /\ w_trace w' = w_trace w /\
    Storage.CleanupJob ls inputPath outputPath w' = (Val tt, w').
Proof.
  exists (set_files (released inputPath outputPath) w).
  split; [apply CleanupJob_files |]. simpl.
  split; [intros Hi; rewrite released_lookup; case_decide; [reflexivity | tauto] |].
  split; [intros Ho; rewrite released_lookup; case_decide; [reflexivity | tauto] |].
  split.
  { intros p H1 H2. rewrite released_lookup. case_decide; [tauto | reflexivity]. }
  split.
  { intros -> ->. destruct w. reflexivity. }
  do 3 (split; [reflexivity |]).
  rewrite CleanupJob_files. f_equal. destruct w. unfold set_files. simpl. f_equal.
  apply map_eq. intros p. rewrite !released_lookup. case_decide; reflexivity.
Qed.

(** ** The jobs table *)

Section Table.

Global Instance created_ge_total : Total DB.created_ge.
Proof. intros a b. unfold DB.created_ge. lia. Qed.

Lemma db_wf_mixed : db_wf mixed_db.
Proof.
  intros k j. unfold mixed_db. rewrite !lookup_insert, lookup_empty.
  repeat case_decide; intros [= <-]; subst; reflexivity.
Qed.

Lemma GetJob_run (id : string) (w : World) :
  DB.GetJob id w =
    (Val (match w_db w !! id with
          | Some j => if DB.live j then (Some j, None) else (None, Some "record not found")
          | None => (None, Some "record not found")
          end), w).
Proof.
  unfold DB.GetJob, bind, get. simpl.
  destruct (w_db w !! id) as [j |]; [destruct (DB.live j) |]; reflexivity.
Qed.

Lemma live_true (j : Job) : DB.live j = true <-> DeletedAt j = None.
Proof. unfold DB.live. apply bool_decide_eq_true. Qed.

(** The values of a table whose rows sit under their keys are
    distinct. *)
Lemma NoDup_rows (db : gmap string Job) :
  db_wf db -> NoDup (snd <$> map_to_list db).
Proof.
  intros Hwf. apply (NoDup_fmap_1 ID).
  replace (ID <$> (map_to_list db).*2) with ((map_to_list db).*1);
    [apply NoDup_fst_map_to_list |].
  rewrite <- list_fmap_compose. apply list_fmap_ext.
  intros i [k j] Hi. simpl. symmetry. apply Hwf.
  apply elem_of_map_to_list, list_elem_of_lookup. eauto.
Qed.

Lemma DB_DeleteJob_run (id : string) (w : World) :
  DB.DeleteJob id w =
    (Val None,
     emit (EvSoftDelete id)
       (set_db (alter (stamp_deleted (w_clock w)) id) (set_clock (fun t => t + 1) w))).
Proof. reflexivity. Qed.

End Table.

(** A created record reads back as it was stored, and the other records
    read as before; an identifier that the table already holds, be it on
    a soft-deleted row, is refused with an error and the table is left
    as it was. *)
Theorem CreateJob_then_GetJob (job : Job) (w : World) :
  (w_db w !! ID job = None ->
   exists w',
     DB.CreateJob job w = (Val None, w') /\
     (DeletedAt job = None -> DB.GetJob (ID job) w' = (Val (Some job, None), w')) /\
     (forall id, id <> ID job -> fst (DB.GetJob id w') = fst (DB.GetJob id w)) /\
     w_files w' = w_files w /\ w_queue w' = w_queue w) /\
  (forall row, w_db w !! ID job = Some row ->
   exists e, DB.CreateJob job w = (Val (Some e), w)).
Proof.
  split.
  - intros Hnew. unfold DB.CreateJob, bind, get. simpl. rewrite Hnew. simpl.
    eexists. split; [reflexivity |].
    split.
    { intros Hlive. rewrite GetJob_run. simpl. rewrite lookup_insert_eq.
      rewrite (proj2 (live_true job) Hlive). reflexivity. }
    split; [| split; reflexivity].
    intros id Hne. rewrite !GetJob_run. simpl. rewrite lookup_insert_ne by congruence.
    reflexivity.
  - intros row Hrow. unfold DB.CreateJob, bind, get. simpl. rewrite Hrow.
    eexists. reflexivity.
Qed.

Lemma CreateJob_then_GetJob_witness :
  exists e, DB.CreateJob (sample_job "a" StatusPending 7) mixed_world = (Val (Some e), mixed_world).
Proof.
  apply (proj2 (CreateJob_then_GetJob (sample_job "a" StatusPending 7) mixed_world)
           (sample_job "a" StatusPending 1)).
  reflexivity.
Defined.

(** A saved record reads back as it was saved, whether the table held a
    row for it or not: where the row under its identifier, if any, is not
    soft-deleted, [UpdateJob] followed by [GetJob] returns a record that
    agrees with the one given in every column, the time of the update
    aside, which is the store's to stamp; the latest of several saves
    wins; and the other records read as before. *)
Theorem UpdateJob_then_GetJob (job : Job) (w : World) :
  (forall row, w_db w !! ID job = Some row -> DeletedAt row = None) ->
  DeletedAt job = None ->
  exists w' stored,
    DB.UpdateJob job w = (Val None, w') /\
    DB.GetJob (ID job) w' = (Val (Some stored, None), w') /\
    set_UpdatedAt 0 stored = set_UpdatedAt 0 job /\
    (forall id, id <> ID job -> fst (DB.GetJob id w') = fst (DB.GetJob id w)) /\
    (forall later, ID later = ID job -> DeletedAt later = None ->
       exists stored',
         fst (DB.GetJob (ID job) (snd (DB.UpdateJob later w'))) = Val (Some stored', None) /\
         set_UpdatedAt 0 stored' = set_UpdatedAt 0 later) /\
    w_files w' = w_files w /\ w_queue w' = w_queue w.
Proof.
  intros _ Hlive. unfold DB.UpdateJob, bind. simpl.
  eexists _, job. split; [reflexivity |].
  split.
  { rewrite GetJob_run. simpl. rewrite lookup_insert_eq, (proj2 (live_true job) Hlive).
    reflexivity. }
  split; [reflexivity |].
  split.
  { intros id Hne. rewrite !GetJob_run. simpl. rewrite lookup_insert_ne by congruence.
    reflexivity. }
  split; [| split; reflexivity].
  intros later Hid Hl. exists later. split; [| reflexivity].
  rewrite GetJob_run. simpl.
  rewrite <- Hid, lookup_insert_eq, (proj2 (live_true later) Hl). reflexivity.
Qed.

Lemma UpdateJob_then_GetJob_witness :
  exists w' stored,
    DB.UpdateJob (sample_job "a" StatusProcessing 1) mixed_world = (Val None, w') /\
    DB.GetJob "a" w' = (Val (Some stored, None), w') /\
    Status stored = StatusProcessing.
Proof.
  destruct (UpdateJob_then_GetJob (sample_job "a" StatusProcessing 1) mixed_world)
    as (w' & stored & Hsave & Hget & Hsame & _).
  - intros row. unfold mixed_world, mixed_db. simpl. rewrite lookup_insert_eq.
    intros [= <-]. reflexivity.
  - reflexivity.
  - exists w', stored. split; [exact Hsave |]. split; [exact Hget |].
    apply (f_equal Status) in Hsame. exact Hsame.
Defined.

(** A deleted record is kept but hidden: after [DeleteJob], [GetJob]
    finds no record under the identifier, while the row still holds every
    column it held, now stamped with the time of the delete, and still
    occupies its identifier; the other rows are untouched; and a second
    [DeleteJob] leaves the stamp of the first. *)
Theorem DeleteJob_hides_row (id : string) (w : World) :
  exists w',
    DB.DeleteJob id w = (Val None, w') /\
    (exists e, DB.GetJob id w' = (Val (None, Some e), w')) /\
    (forall row, w_db w !! id = Some row -> DeletedAt row = None ->
       w_db w' !! id = Some (set_DeletedAt (Some (w_clock w)) row)) /\
    (forall row, w_db w !! id = Some row -> DeletedAt row <> None ->
       w_db w' !! id = Some row) /\
    (w_db w !! id = None -> w_db w' !! id = None) /\
    (forall k, k <> id -> w_db w' !! k = w_db w !! k) /\
    w_files w' = w_files w /\ w_queue w' = w_queue w /\
    w_db (snd (DB.DeleteJob id w')) = w_db w'.
Proof.
  rewrite DB_DeleteJob_run. eexists. split; [reflexivity |].
  rewrite DB_DeleteJob_run. simpl. unfold stamp_deleted.
  split.
  { rewrite GetJob_run. simpl. rewrite lookup_alter_eq.
    destruct (w_db w !! id) as [row |] eqn:Hrow; simpl; [| eexists; reflexivity].
    destruct (DB.live row) eqn:Hl; [| rewrite Hl; eexists; reflexivity].
    eexists. reflexivity. }
  split.
  { intros row Hrow Hl. rewrite lookup_alter_eq, Hrow. simpl.
    rewrite (proj2 (live_true row) Hl). reflexivity. }
  split.
  { intros row Hrow Hl. rewrite lookup_alter_eq, Hrow. simpl.
    destruct (DB.live row) eqn:Hlive; [| reflexivity].
    apply live_true in Hlive. contradiction. }
  split; [intros Hnone; rewrite lookup_alter_eq, Hnone; reflexivity |].
  split; [intros k Hk; rewrite lookup_alter_ne by congruence; reflexivity |].
  split; [reflexivity |]. split; [reflexivity |].
  apply map_eq. intros k. destruct (decide (k = id)) as [-> | Hne].
  - rewrite !lookup_alter_eq. destruct (w_db w !! id) as [row |]; [| reflexivity]. simpl.
    destruct (DB.live row) eqn:Hl; [reflexivity | rewrite Hl; reflexivity].
  - rewrite !lookup_alter_ne by congruence. reflexivity.
Qed.

(** The listing is by pages of one order.  Where every row sits under
    its own key, there is one arrangement of the rows that are not
    soft-deleted, each once and a later-created row never after an
    earlier one, such that [ListJobs] returns, for every positive limit
    and every offset that is not negative, the [limit] rows of it that
    follow the first [offset], together with the number of all of them;
    the table is left as it is.  So a page has at most [limit] rows, the
    total does not depend on the page, and consecutive pages neither
    overlap nor leave a row out. *)
Theorem ListJobs_pages (w : World) :
  db_wf (w_db w) ->
  exists all : list Job,
    (forall j, j ∈ all <-> DeletedAt j = None /\ exists k, w_db w !! k = Some j) /\
    NoDup all /\ Sorted DB.created_ge all /\
    forall limit offset, 0 < limit -> 0 <= offset ->
      DB.ListJobs limit offset w =
        (Val (take (Z.to_nat limit) (drop (Z.to_nat offset) all),
              Z.of_nat (length all), None), w) /\
      (length (take (Z.to_nat limit) (drop (Z.to_nat offset) all)) <= Z.to_nat limit)%nat /\
      take (Z.to_nat limit) (drop (Z.to_nat offset) all) ++
        take (Z.to_nat limit) (drop (Z.to_nat (offset + limit)) all) =
        take (Z.to_nat (2 * limit)) (drop (Z.to_nat offset) all).
Proof.
  intros Hwf.
  exists (merge_sort DB.created_ge
            (filter (fun j => DB.live j = true) (snd <$> map_to_list (w_db w)))).
  split; [| split; [| split]].
  - intros j. rewrite merge_sort_Permutation, list_elem_of_filter, list_elem_of_fmap, live_true.
    split.
    + intros (Hl & [k j'] & -> & Hin). apply elem_of_map_to_list in Hin. eauto.
    + intros (Hl & k & Hk). split; [exact Hl |].
      exists (k, j). split; [reflexivity | apply elem_of_map_to_list; exact Hk].
  - rewrite merge_sort_Permutation. apply NoDup_filter, NoDup_rows, Hwf.
  - apply Sorted_merge_sort. apply _.
  - intros limit offset Hlimit Hoffset.
    split; [| split].
    + unfold DB.ListJobs, bind, get. simpl.
      destruct (limit <? 0) eqn:Hneg; [apply Z.ltb_lt in Hneg; lia |].
      rewrite (Permutation_length (merge_sort_Permutation DB.created_ge _)). reflexivity.
    + rewrite length_take. lia.
    + replace (Z.to_nat (offset + limit)) with (Z.to_nat offset + Z.to_nat limit)%nat by lia.
      replace (Z.to_nat (2 * limit)) with (Z.to_nat limit + Z.to_nat limit)%nat by lia.
      rewrite <- drop_drop. apply take_take_drop.
Qed.

Lemma ListJobs_pages_witness :
  exists all : list Job,
    NoDup all /\
    DB.ListJobs 2 0 mixed_world =
      (Val (take 2 all, Z.of_nat (length all), None), mixed_world).
Proof.
  destruct (ListJobs_pages mixed_world db_wf_mixed) as (all & Hall & Hnd & _ & Hpage).
  exists all. split; [exact Hnd |].
  exact (proj1 (Hpage 2 0 ltac:(lia) ltac:(lia))).
Defined.

(** ** The handlers *)

Section Handlers.
Import Api.
Variable h : Handler.

(** Every way in which a submission ends. *)
Lemma CreateJob_outcomes (uuid : string) (file : option Storage.Upload) (w : World) :
  match file with
  | None =>
      CreateJob h uuid file w = (Val (mkResponse 400 (ErrorBody "no file uploaded")), w)
  | Some header =>
      let savePath :=
        Storage.Join [Storage.baseDir (localStorage h); "uploads";
                      uuid +:+ Storage.Ext (Storage.Filename header)] in
      let job :=
        mkJob uuid StatusPending savePath (Storage.GetOutputPath (localStorage h) uuid)
          "" "" 0 "" (Storage.Filename header) (w_clock w) (w_clock w + 1) None None in
      exists w',
        match Storage.Content header with
        | None =>
            CreateJob h uuid file w =
              (Val (mkResponse 500 (ErrorBody "failed to save uploaded file")), w') /\
            w_db w' = w_db w /\ w_queue w' = w_queue w /\ w_trace w' = w_trace w /\
            w_files w' = delete savePath (w_files w)
        | Some content =>
            match w_db w !! uuid with
            | Some _ =>
                CreateJob h uuid file w =
                  (Val (mkResponse 500 (ErrorBody "failed to create job")), w') /\
                w_db w' = w_db w /\ w_queue w' = w_queue w /\ w_trace w' = w_trace w /\
                w_files w' = delete savePath (w_files w)
            | None =>
                w_db w' = <[uuid := job]> (w_db w) /\
                w_files w' = <[savePath := content]> (w_files w) /\
                if decide (length (jobs (w_queue w)) < capacity (w_queue w))%nat then
                  CreateJob h uuid file w =
                    (Val (mkResponse 202 (JobBody (ToResponse job))), w') /\
                  w_queue w' =
                    mkQueue (jobs (w_queue w) ++ [job]) (capacity (w_queue w))
                      (running (w_queue w)) /\
                  w_trace w' =
                    w_trace w ++ [EvCreate job; EvLog ("Job " +:+ uuid +:+ " enqueued")]
                else
                  CreateJob h uuid file w =
                    (Val (mkResponse 503
                            (ErrorBody "job queue is full, please try again later")), w') /\
                  w_queue w' = w_queue w /\
                  w_trace w' = w_trace w ++ [EvCreate job]
            end
        end /\ w_stop w' = w_stop w
  end.
Proof.
  destruct file as [header |]; [| reflexivity]. cbv zeta.
  destruct (Storage.Content header) as [content |] eqn:Hcontent.
  - destruct (w_db w !! uuid) as [old |] eqn:Hold.
    + unfold CreateJob, Storage.SaveUpload. rewrite Hcontent.
      do 3 (unfold bind at 1; simpl).
      unfold bind at 1. unfold DB.CreateJob. unfold bind at 1. simpl. rewrite Hold.
      unfold bind at 1. simpl. unfold Storage.DeleteFile.
      destruct (decide _) as [Hempty | _];
        [exfalso; exact (Join_uploads_nonempty _ _ Hempty) |].
      unfold bind at 1. simpl. rewrite lookup_insert_eq. simpl.
      eexists. split; [split; [reflexivity |] | reflexivity]. simpl.
      rewrite insert_insert_eq, delete_insert_eq. repeat split.
    + destruct (decide (length (jobs (w_queue w)) < capacity (w_queue w))%nat)
        as [Hfree | Hfull].
      * unfold CreateJob, Storage.SaveUpload. rewrite Hcontent.
        do 3 (unfold bind at 1; simpl).
        unfold bind at 1. unfold DB.CreateJob. unfold bind at 1. simpl. rewrite Hold.
        unfold bind at 1. simpl. unfold bind at 1.
        rewrite Enqueue_free by (simpl; exact Hfree). simpl.
        eexists. split; [split; [| split; [| split; [reflexivity |]]] | reflexivity]; simpl.
        -- reflexivity.
        -- rewrite insert_insert_eq. reflexivity.
        -- split; [reflexivity |]. rewrite <- app_assoc. reflexivity.
      * unfold CreateJob, Storage.SaveUpload. rewrite Hcontent.
        do 3 (unfold bind at 1; simpl).
        unfold bind at 1. unfold DB.CreateJob. unfold bind at 1. simpl. rewrite Hold.
        unfold bind at 1. simpl. unfold bind at 1.
        rewrite Enqueue_full by (simpl; lia). simpl.
        eexists. split; [split; [| split; [| split; [reflexivity |]]] | reflexivity]; simpl.
        -- reflexivity.
        -- rewrite insert_insert_eq. reflexivity.
        -- split; reflexivity.
  - unfold CreateJob, Storage.SaveUpload. rewrite Hcontent.
    unfold bind at 1. simpl.
    eexists. split; [split; [reflexivity |] | reflexivity]. simpl.
    rewrite delete_insert_eq. repeat split.
Qed.

Lemma Api_GetJob_run (id : string) (w : World) :
  GetJob h id w =
    (Val (match w_db w !! id with
          | Some j => if DB.live j then mkResponse 200 (JobBody (ToResponse j))
                      else mkResponse 404 (ErrorBody "job not found")
          | None => mkResponse 404 (ErrorBody "job not found")
          end), w).
Proof.
  unfold GetJob. unfold bind. rewrite GetJob_run.
  destruct (w_db w !! id) as [j |]; [destruct (DB.live j) |]; reflexivity.
Qed.

(** What the cancel-or-delete handler answers. *)
Lemma DeleteJob_answer (id : string) (w : World) :
  fst (DeleteJob h id w) =
    Val (match w_db w !! id with
         | Some j => if DB.live j then mkResponse 200 (MessageBody "job deleted")
                     else mkResponse 404 (ErrorBody "job not found")
         | None => mkResponse 404 (ErrorBody "job not found")
         end).
Proof.
  unfold DeleteJob, DB.GetJob, Storage.CleanupJob, bind, get. simpl.
  destruct (w_db w !! id) as [j |]; [destruct (DB.live j) |]; try reflexivity. simpl.
  destruct (decide (Status j = StatusPending \/ Status j = StatusProcessing)); simpl;
    destruct (decide (InputPath j ≠ "")), (decide (OutputPath j ≠ "")); reflexivity.
Qed.

(** What the cancel-or-delete handler does to the files. *)
Lemma DeleteJob_files (id : string) (w : World) :
  w_files (snd (DeleteJob h id w)) =
    match w_db w !! id with
    | Some j => if DB.live j then released (InputPath j) (OutputPath j) (w_files w)
                else w_files w
    | None => w_files w
    end.
Proof.
  unfold DeleteJob, DB.GetJob, Storage.CleanupJob, released, bind, get. simpl.
  destruct (w_db w !! id) as [j |]; [destruct (DB.live j) |]; try reflexivity. simpl.
  destruct (decide (Status j = StatusPending \/ Status j = StatusProcessing)); simpl;
    destruct (decide (InputPath j ≠ "")), (decide (OutputPath j ≠ "")); reflexivity.
Qed.

End Handlers.



(** A submission that is refused with 400 or 500 leaves nothing behind.
    [CreateJob] answers 202, 400, 500 or 503 and nothing else; it answers
    400 exactly when the request has no file, and then changes nothing;
    it answers 500 where the upload cannot be read through and where the
    identifier is taken; and whenever it answers 500, the table, the
    queue and the log are as before and no file is left at the path of
    the upload, the other files being untouched. *)
Theorem CreateJob_refusals_leave_nothing (h : Api.Handler) (uuid : string)
    (file : option Storage.Upload) (w : World) :
  exists r w',
    Api.CreateJob h uuid file w = (Val r, w') /\
    (Api.code r = 202 \/ Api.code r = 400 \/ Api.code r = 500 \/ Api.code r = 503) /\
    (Api.code r = 400 <-> file = None) /\
    (Api.code r = 400 -> w' = w) /\
    (forall header, file = Some header ->
       Storage.Content header = None \/ is_Some (w_db w !! uuid) -> Api.code r = 500) /\
    (Api.code r = 500 ->
     w_db w' = w_db w /\ w_queue w' = w_queue w /\ w_trace w' = w_trace w /\
     exists header,
       file = Some header /\
       w_files w' =
         delete (Storage.Join [Storage.baseDir (Api.localStorage h); "uploads";
                               uuid +:+ Storage.Ext (Storage.Filename header)])
           (w_files w)).
Proof.
  pose proof (CreateJob_outcomes h uuid file w) as Hout.
  destruct file as [header |].
  - cbv zeta in Hout. destruct Hout as (w' & Hout & _).
    destruct (Storage.Content header) as [content |] eqn:Hcontent.
    + destruct (w_db w !! uuid) as [old |] eqn:Hold.
      * destruct Hout as (Heq & Hdb & Hq & Htr & Hf).
        eexists _, w'. split; [exact Heq |]. simpl.
        split; [auto |]. split; [split; discriminate |]. split; [discriminate |].
        split; [reflexivity |].
        intros _. do 3 (split; [assumption |]).
        exists header. split; [reflexivity | exact Hf].
      * destruct Hout as (Hdb & Hfiles & Hout).
        destruct (decide _) as [Hfree | Hfull]; destruct Hout as (Heq & _);
          (eexists _, w'; split; [exact Heq |]; simpl;
           split; [auto |]; split; [split; discriminate |]; split; [discriminate |];
           split; [| discriminate];
           intros header' [= <-] [Hnone | [old Hold']]; congruence).
    + destruct Hout as (Heq & Hdb & Hq & Htr & Hf).
      eexists _, w'. split; [exact Heq |]. simpl.
      split; [auto |]. split; [split; discriminate |]. split; [discriminate |].
      split; [reflexivity |].
      intros _. do 3 (split; [assumption |]).
      exists header. split; [reflexivity | exact Hf].
  - eexists _, w. split; [exact Hout |]. simpl.
    split; [auto |]. split; [split; reflexivity |]. split; [reflexivity |].
    split; [discriminate | discriminate].
Qed.

(** A deleted job is gone for the interface.  [DeleteJob] leaves the
    queue as it is, so a reference of the job that waits in it stays
    there.  It answers 404 where the table holds no row for the
    identifier that is not soft-deleted, and whenever it answers 404 it
    has changed nothing.  Whenever it answers 200, there was such a row,
    neither file of the job is on disk any more, [GetJob] for the
    identifier answers 404, and so does a second [DeleteJob], which
    changes nothing. *)
Theorem DeleteJob_then_not_found (h : Api.Handler) (id : string) (w w' : World)
    (r : Api.Response) :
  Api.DeleteJob h id w = (Val r, w') ->
  w_queue w' = w_queue w /\
  ((forall j, w_db w !! id = Some j -> DeletedAt j <> None) -> Api.code r = 404) /\
  (Api.code r = 404 -> w' = w) /\
  (Api.code r = 200 ->
   (exists j,
      w_db w !! id = Some j /\ DeletedAt j = None /\
      (InputPath j <> "" -> w_files w' !! InputPath j = None) /\
      (OutputPath j <> "" -> w_files w' !! OutputPath j = None)) /\
   Api.GetJob h id w' =
     (Val (Api.mkResponse 404 (Api.ErrorBody "job not found")), w') /\
   Api.DeleteJob h id w' =
     (Val (Api.mkResponse 404 (Api.ErrorBody "job not found")), w')).
Proof.
  intros Hrun.
  pose proof (DeleteJob_answer h id w) as Hans.
  pose proof (DeleteJob_files h id w) as Hfiles.
  destruct (DeleteJob_effect h id w) as (Hq & Hdb). cbv zeta in Hdb.
  rewrite Hrun in Hans, Hfiles, Hq, Hdb. simpl in Hans, Hfiles, Hq, Hdb.
  injection Hans as ->.
  split; [exact Hq |].
  split.
  { intros Hnone. destruct (w_db w !! id) as [j |] eqn:Hj; [| reflexivity].
    destruct (DB.live j) eqn:Hlive; [| reflexivity].
    exfalso. apply (Hnone j eq_refl), live_true, Hlive. }
  split.
  { destruct (w_db w !! id) as [j |]; [destruct (DB.live j) |]; simpl;
      [discriminate | intros _; exact Hdb | intros _; exact Hdb]. }
  intros Hcode.
  destruct (w_db w !! id) as [j |] eqn:Hj; [| discriminate Hcode].
  destruct (DB.live j) eqn:Hlive; [| discriminate Hcode].
  assert (Hgone : forall j', w_db w' !! id = Some j' -> DB.live j' = false).
  { intros j'.
    assert (Hst : forall t row, DB.live row = true -> DB.live (stamp_deleted t row) = false).
    { intros t row Hl. unfold stamp_deleted. rewrite Hl. reflexivity. }
    destruct (decide _) as [Hp | Hp]; destruct Hdb as (-> & _); rewrite lookup_alter_eq.
    - destruct (decide (ID j = id)) as [Hid | Hid].
      + rewrite Hid, lookup_insert_eq. simpl. intros [= <-]. apply Hst.
        unfold DB.live in *. exact Hlive.
      + rewrite lookup_insert_ne, Hj by exact Hid. simpl. intros [= <-]. apply Hst, Hlive.
    - rewrite Hj. simpl. intros [= <-]. apply Hst, Hlive. }
  split.
  { exists j. split; [reflexivity |]. split; [apply live_true, Hlive |].
    rewrite Hfiles.
    split; intros Hne; rewrite released_lookup;
      match goal with
      | |- context [decide ?P] =>
          destruct (decide P) as [_ | Hn]; [reflexivity | exfalso; apply Hn; tauto]
      end. }
  split.
  { rewrite Api_GetJob_run. destruct (w_db w' !! id) as [j' |] eqn:Hj';
      [rewrite (Hgone j' eq_refl) |]; reflexivity. }
  pose proof (DeleteJob_answer h id w') as Hans'.
  destruct (DeleteJob_effect h id w') as (_ & Hdb'). cbv zeta in Hdb'.
  destruct (Api.DeleteJob h id w') as [r2 w2]. simpl in *.
  rewrite Hans'.
  destruct (w_db w' !! id) as [j' |] eqn:Hj'; [rewrite (Hgone j' eq_refl) in Hdb' |- * |];
    rewrite Hdb'; reflexivity.
Qed.

Lemma DeleteJob_then_not_found_witness :
  Api.GetJob sample_handler "j1" cancelled_pending =
    (Val (Api.mkResponse 404 (Api.ErrorBody "job not found")), cancelled_pending).
Proof.
  destruct (DeleteJob_then_not_found sample_handler "j1" submitted cancelled_pending
              (Api.mkResponse 200 (Api.MessageBody "job deleted"))
              ltac:(vm_compute; reflexivity))
    as (_ & _ & _ & Hdone).
  destruct (Hdone eq_refl) as (_ & Hget & _). exact Hget.
Defined.

(** ** Numbers read from text *)

Section Numbers.
Import Strconv.

Lemma digit_val_range (c : ascii) (d : Z) :
  Transcoder.digit_val c = Some d -> 0 <= d <= 9.
Proof.
  unfold Transcoder.digit_val.
  destruct (_ && _) eqn:Hc; [| discriminate]. intros [= <-].
  apply andb_true_iff in Hc as [H1 H2]. apply Z.leb_le in H1, H2. lia.
Qed.

Lemma parse_uint64_values (s : string) :
  forall n, 0 <= n <= maxUint64 ->
    match parse_uint64 s n with
    | (v, None) => n <= v <= maxUint64
    | (v, Some ErrSyntax) => v = 0
    | (v, Some ErrRange) => v = maxUint64
    end.
Proof.
  induction s as [| c r IH]; intros n Hn; simpl; [lia |].
  destruct (Transcoder.digit_val c) as [d |] eqn:Hd; [| reflexivity].
  apply digit_val_range in Hd.
  destruct (maxUint64 / 10 + 1 <=? n) eqn:Hcut; [reflexivity |].
  destruct (maxUint64 <? n * 10 + d) eqn:Hmax; [reflexivity |].
  apply Z.ltb_ge in Hmax.
  specialize (IH (n * 10 + d) ltac:(lia)).
  destruct (parse_uint64 r (n * 10 + d)) as [v [[] |]]; lia.
Qed.

(** What [Atoi] returns: an [int64] where it succeeds; 0 with a syntax
    error; the largest or the smallest [int64] with a range error. *)
Lemma Atoi_values (s : string) :
  match Atoi s with
  | (v, None) => - 2 ^ 63 <= v <= 2 ^ 63 - 1
  | (v, Some ErrSyntax) => v = 0
  | (v, Some ErrRange) => v = 2 ^ 63 - 1 \/ v = - 2 ^ 63
  end.
Proof.
  unfold Atoi, ParseInt. destruct s as [| c r]; [reflexivity |].
  assert (Hu : forall s', match ParseUint s' with
                          | (v, None) => 0 <= v <= maxUint64
                          | (v, Some ErrSyntax) => v = 0
                          | (v, Some ErrRange) => v = maxUint64
                          end).
  { intros s'. unfold ParseUint. destruct s' as [| c' r']; [reflexivity |].
    pose proof (parse_uint64_values (String c' r') 0 ltac:(unfold maxUint64; lia)) as H.
    destruct (parse_uint64 (String c' r') 0) as [v [[] |]]; lia. }
  assert (Hcases : forall (neg : bool) s',
            match (match ParseUint s' with
                   | (_, Some ErrSyntax) => (0, Some ErrSyntax)
                   | (un, _) =>
                       if negb neg && (2 ^ 63 <=? un) then (2 ^ 63 - 1, Some ErrRange)
                       else if neg && (2 ^ 63 <? un) then (- 2 ^ 63, Some ErrRange)
                       else (if neg then - un else un, None)
                   end) with
            | (v, None) => - 2 ^ 63 <= v <= 2 ^ 63 - 1
            | (v, Some ErrSyntax) => v = 0
            | (v, Some ErrRange) => v = 2 ^ 63 - 1 \/ v = - 2 ^ 63
            end).
  { intros neg s'. specialize (Hu s').
    destruct (ParseUint s') as [un [[] |]]; [reflexivity | |].
    - subst un. destruct neg; simpl; [right | left]; reflexivity.
    - destruct neg; simpl.
      + destruct (2 ^ 63 <? un) eqn:Hc; [right; reflexivity |].
        apply Z.ltb_ge in Hc. lia.
      + destruct (2 ^ 63 <=? un) eqn:Hc; [left; reflexivity |].
        apply Z.leb_gt in Hc. lia. }
  destruct (decide (c = "+"%char)); [apply (Hcases false) |].
  destruct (decide (c = "-"%char)); [apply (Hcases true) | apply (Hcases false)].
Qed.

End Numbers.

(** The list handler keeps the page within bounds whatever the query
    says.  [ListJobs] asks the table for a limit between 1 and 100 and an
    offset that is not negative: a limit that is left out, that is no
    number or that is below 1 counts as 20, one above 100 as 100; an
    offset that is left out, that is no number or that is negative counts
    as 0.  It answers 500 where the table reports an error, and else 200
    with the page of the table for that limit and offset, which has at
    most [limit] jobs; the table is left as it is. *)
Theorem ListJobs_clamps (h : Api.Handler) (query : Api.Values) (w : World) :
  exists limit offset,
    1 <= limit <= 100 /\ 0 <= offset /\
    (Api.GetQuery query "limit" = ("", false) -> limit = 20) /\
    (Api.GetQuery query "offset" = ("", false) -> offset = 0) /\
    (forall n e, Strconv.Atoi (Api.DefaultQuery query "limit" "20") = (n, e) ->
       (e = Some Strconv.ErrSyntax -> limit = 20) /\
       (n < 1 -> limit = 20) /\ (100 < n -> limit = 100) /\
       (1 <= n <= 100 -> limit = n)) /\
    (forall n e, Strconv.Atoi (Api.DefaultQuery query "offset" "0") = (n, e) ->
       (e = Some Strconv.ErrSyntax -> offset = 0) /\
       (n < 0 -> offset = 0) /\ (0 <= n -> offset = n)) /\
    Api.ListJobs h query w =
      match DB.ListJobs limit offset w with
      | (Val (page, total, None), w') =>
          (Val (Api.mkListResponse 200
                  (Api.PageBody (ToResponse <$> page) total limit offset)), w')
      | (Val (_, _, Some _), w') =>
          (Val (Api.mkListResponse 500 (Api.ListErrorBody "failed to list jobs")), w')
      | (Panicked v, w') => (Panicked v, w')
      end /\
    (forall page total e w',
       DB.ListJobs limit offset w = (Val (page, total, e), w') ->
       (length page <= Z.to_nat limit)%nat /\ w' = w).
Proof.
  unfold Api.ListJobs.
  set (l0 := Strconv.Atoi (Api.DefaultQuery query "limit" "20")).
  set (o0 := Strconv.Atoi (Api.DefaultQuery query "offset" "0")).
  set (limit := if (if 100 <? fst l0 then 100 else fst l0) <? 1 then 20
                else if 100 <? fst l0 then 100 else fst l0).
  set (offset := if fst o0 <? 0 then 0 else fst o0).
  assert (Hlimit : 1 <= limit <= 100).
  { unfold limit. destruct (100 <? fst l0) eqn:H1; simpl; [lia |].
    apply Z.ltb_ge in H1. destruct (fst l0 <? 1) eqn:H2; [lia |].
    apply Z.ltb_ge in H2. lia. }
  assert (Hoffset : 0 <= offset).
  { unfold offset. destruct (fst o0 <? 0) eqn:H1; [lia |]. apply Z.ltb_ge in H1. lia. }
  exists limit, offset.
  split; [exact Hlimit |]. split; [exact Hoffset |].
  split.
  { intros Hq. clear Hlimit; subst limit l0; unfold Api.DefaultQuery. rewrite Hq. reflexivity. }
  split.
  { intros Hq. clear Hoffset; subst offset o0; unfold Api.DefaultQuery. rewrite Hq. reflexivity. }
  split.
  { intros n e Hl. pose proof (Atoi_values (Api.DefaultQuery query "limit" "20")) as Hv.
    clear Hlimit; subst limit l0. rewrite Hl in Hv |- *. simpl.
    split.
    { intros ->. subst n. reflexivity. }
    split.
    { intros Hn. destruct (100 <? n) eqn:H1; [apply Z.ltb_lt in H1; lia |].
      apply Z.ltb_lt in Hn. rewrite Hn. reflexivity. }
    split.
    { intros Hn. apply Z.ltb_lt in Hn. rewrite Hn. reflexivity. }
    intros Hn. destruct (100 <? n) eqn:H1; [apply Z.ltb_lt in H1; lia |].
    destruct (n <? 1) eqn:H2; [apply Z.ltb_lt in H2; lia | reflexivity]. }
  split.
  { intros n e Ho. pose proof (Atoi_values (Api.DefaultQuery query "offset" "0")) as Hv.
    clear Hoffset; subst offset o0. rewrite Ho in Hv |- *. simpl.
    split.
    { intros ->. subst n. reflexivity. }
    split.
    { intros Hn. apply Z.ltb_lt in Hn. rewrite Hn. reflexivity. }
    intros Hn. destruct (n <? 0) eqn:H1; [apply Z.ltb_lt in H1; lia | reflexivity]. }
  split.
  { unfold bind at 1. destruct (DB.ListJobs limit offset w) as [[[[page total] [e |]] | v] w'];
      reflexivity. }
  intros page total e w'. unfold DB.ListJobs, bind, get. simpl.
  destruct (limit <? 0) eqn:Hneg; [apply Z.ltb_lt in Hneg; lia |].
  intros [= <- _ _ <-]. split; [rewrite length_take; lia | reflexivity].
Qed.

(** ** The settings *)

Section Settings.
Import Strconv.

Lemma parse_digits_grows (s : string) :
  forall n v, 0 <= n -> Transcoder.parse_digits s n = Some v -> n <= v.
Proof.
  induction s as [| c r IH]; intros n v Hn; simpl; [intros [= <-]; lia |].
  destruct (Transcoder.digit_val c) as [d |] eqn:Hd; [| discriminate].
  apply digit_val_range in Hd. intros Hv. apply IH in Hv; lia.
Qed.

(** The digit loop with its range check against the digit loop without:
    they read the same value as long as it fits. *)
Lemma parse_uint64_digits (s : string) :
  forall n, 0 <= n <= maxUint64 ->
    match Transcoder.parse_digits s n with
    | None => snd (parse_uint64 s n) <> None
    | Some v =>
        parse_uint64 s n =
          if v <=? maxUint64 then (v, None) else (maxUint64, Some ErrRange)
    end.
Proof.
  induction s as [| c r IH]; intros n Hn; simpl.
  - destruct (n <=? maxUint64) eqn:Hle; [reflexivity |]. apply Z.leb_gt in Hle. lia.
  - destruct (Transcoder.digit_val c) as [d |] eqn:Hd; [| discriminate].
    apply digit_val_range in Hd.
    destruct (maxUint64 / 10 + 1 <=? n) eqn:Hcut.
    { apply Z.leb_le in Hcut.
      assert (Hbig : maxUint64 < n * 10 + d).
      { change (maxUint64 / 10 + 1) with 1844674407370955162 in Hcut.
        change maxUint64 with 18446744073709551615. lia. }
      destruct (Transcoder.parse_digits r (n * 10 + d)) as [v |] eqn:Hv; [| discriminate].
      apply parse_digits_grows in Hv; [| lia].
      destruct (v <=? maxUint64) eqn:Hle; [apply Z.leb_le in Hle; lia | reflexivity]. }
    destruct (maxUint64 <? n * 10 + d) eqn:Hmax.
    { apply Z.ltb_lt in Hmax.
      destruct (Transcoder.parse_digits r (n * 10 + d)) as [v |] eqn:Hv; [| discriminate].
      apply parse_digits_grows in Hv; [| lia].
      destruct (v <=? maxUint64) eqn:Hle; [apply Z.leb_le in Hle; lia | reflexivity]. }
    apply Z.ltb_ge in Hmax. apply IH. lia.
Qed.

Lemma ParseUint_digits (s : string) :
  match Transcoder.parse_uint s with
  | None => snd (ParseUint s) = Some ErrSyntax \/ ParseUint s = (maxUint64, Some ErrRange)
  | Some v =>
      0 <= v /\
      ParseUint s = if v <=? maxUint64 then (v, None) else (maxUint64, Some ErrRange)
  end.
Proof.
  unfold Transcoder.parse_uint, ParseUint. destruct s as [| c r]; [left; reflexivity |].
  pose proof (parse_uint64_digits (String c r) 0 ltac:(unfold maxUint64; lia)) as H.
  pose proof (parse_uint64_values (String c r) 0 ltac:(unfold maxUint64; lia)) as Hv.
  destruct (Transcoder.parse_digits (String c r) 0) as [v |] eqn:Hd.
  - split; [apply (parse_digits_grows _ _ _ (Z.le_refl 0) Hd) | exact H].
  - destruct (parse_uint64 (String c r) 0) as [v [[] |]]; simpl in *;
      [left; reflexivity | right; subst v; reflexivity | contradiction].
Qed.

Lemma sign_other (c : ascii) (r : string) :
  c <> "+"%char -> c <> "-"%char ->
  match String c r with
  | String "+"%char r' => (false, r')
  | String "-"%char r' => (true, r')
  | _ => (false, String c r)
  end = (false, String c r).
Proof.
  intros Hp Hm.
  destruct c as [[] [] [] [] [] [] [] []]; try reflexivity; congruence.
Qed.

(** [Atoi] succeeds exactly on the texts that the parser of the
    transcoder accepts, with the same value. *)
Lemma Atoi_ParseInt (s : string) :
  match Transcoder.ParseInt s with
  | Some v => Atoi s = (v, None)
  | None => snd (Atoi s) <> None
  end.
Proof.
  unfold Atoi, ParseInt, Transcoder.ParseInt.
  destruct s as [| c r]; [simpl; discriminate |].
  assert (Hcases : forall (neg : bool) s',
            match (match Transcoder.parse_uint s' with
                   | None => None
                   | Some un =>
                       let v := if neg then - un else un in
                       if (Transcoder.minInt64 <=? v) && (v <=? Transcoder.maxInt64)
                       then Some v else None
                   end) with
            | Some v =>
                match ParseUint s' with
                | (_, Some ErrSyntax) => (0, Some ErrSyntax)
                | (un, _) =>
                    if negb neg && (2 ^ 63 <=? un) then (2 ^ 63 - 1, Some ErrRange)
                    else if neg && (2 ^ 63 <? un) then (- 2 ^ 63, Some ErrRange)
                    else (if neg then - un else un, None)
                end = (v, None)
            | None =>
                snd (match ParseUint s' with
                     | (_, Some ErrSyntax) => (0, Some ErrSyntax)
                     | (un, _) =>
                         if negb neg && (2 ^ 63 <=? un) then (2 ^ 63 - 1, Some ErrRange)
                         else if neg && (2 ^ 63 <? un) then (- 2 ^ 63, Some ErrRange)
                         else (if neg then - un else un, None)
                     end) <> None
            end).
  { intros neg s'. pose proof (ParseUint_digits s') as Hu.
    destruct (Transcoder.parse_uint s') as [un |].
    - destruct Hu as (Hpos & Hu). cbv zeta.
      unfold Transcoder.minInt64, Transcoder.maxInt64.
      destruct (un <=? maxUint64) eqn:Hfit; rewrite Hu.
      + apply Z.leb_le in Hfit.
        destruct neg; simpl.
        * destruct (2 ^ 63 <? un) eqn:Hc.
          -- apply Z.ltb_lt in Hc.
             destruct (- 2 ^ 63 <=? - un) eqn:H1; [apply Z.leb_le in H1; lia |].
             simpl. discriminate.
          -- apply Z.ltb_ge in Hc.
             destruct (- 2 ^ 63 <=? - un) eqn:H1; [| apply Z.leb_gt in H1; lia].
             destruct (- un <=? 2 ^ 63 - 1) eqn:H2; [| apply Z.leb_gt in H2; lia].
             reflexivity.
        * destruct (2 ^ 63 <=? un) eqn:Hc.
          -- apply Z.leb_le in Hc.
             destruct (un <=? 2 ^ 63 - 1) eqn:H2; [apply Z.leb_le in H2; lia |].
             rewrite andb_false_r. simpl. discriminate.
          -- apply Z.leb_gt in Hc.
             destruct (- 2 ^ 63 <=? un) eqn:H1; [| apply Z.leb_gt in H1; lia].
             destruct (un <=? 2 ^ 63 - 1) eqn:H2; [| apply Z.leb_gt in H2; lia].
             reflexivity.
      + apply Z.leb_gt in Hfit. unfold maxUint64 in Hfit.
        destruct neg; simpl.
        * destruct (- 2 ^ 63 <=? - un) eqn:H1; [apply Z.leb_le in H1; lia |].
          simpl. discriminate.
        * destruct (un <=? 2 ^ 63 - 1) eqn:H2; [apply Z.leb_le in H2; lia |].
          rewrite andb_false_r. simpl. discriminate.
    - destruct Hu as [Hu | Hu].
      + destruct (ParseUint s') as [un [[] |]]; simpl in *; try discriminate.
      + rewrite Hu. destruct neg; simpl; discriminate. }
  destruct (decide (c = "+"%char)) as [-> | Hp]; [apply (Hcases false r) |].
  destruct (decide (c = "-"%char)) as [-> | Hm]; [apply (Hcases true r) |].
  rewrite (sign_other c r Hp Hm). apply (Hcases false (String c r)).
Qed.

End Settings.

(** Without settings the process runs on its defaults.  Where every
    variable of the environment is unset or set to the empty string,
    [Load] gives port 8080, no API key, 2 workers, the directory
    /tmp/transcoder, the credentials file /config/credentials.json, no
    Drive folder, no webhook URL and 3 webhook retries: a variable that is
    set but empty counts as unset. *)
Theorem Load_defaults (env : gmap string string) :
  (forall key, env !! key = None \/ env !! key = Some "") ->
  Config.Load env =
    Main.mkConfig "8080" "" 2 "/tmp/transcoder" "/config/credentials.json" "" "" 3.
Proof.
  intros Hunset.
  assert (Hget : forall key, Config.Getenv env key = "").
  { intros key. unfold Config.Getenv. destruct (Hunset key) as [-> | ->]; reflexivity. }
  unfold Config.Load, Config.getEnv, Config.getEnvInt. rewrite !Hget. reflexivity.
Qed.

Lemma Load_defaults_witness :
  Config.Load {[ "PORT" := "" ]} =
    Main.mkConfig "8080" "" 2 "/tmp/transcoder" "/config/credentials.json" "" "" 3.
Proof.
  apply (Load_defaults {[ "PORT" := "" ]}).
  intros key. destruct (decide (key = "PORT")) as [-> | Hne].
  - right. apply lookup_singleton_eq.
  - left. apply lookup_singleton_ne. congruence.
Defined.

(** A text setting is taken as it stands, a numeric one as the integer it
    spells, and nothing is checked beyond that.  [getEnv] returns the
    value of a variable that is set to a text that is not empty, whatever
    the text; [getEnvInt] returns the integer where the value is an
    optionally signed run of decimal digits within the 64-bit range, be
    it zero or negative, and the default in every other case, without an
    error. *)
Theorem getEnv_reads_verbatim (env : gmap string string) (key : string) :
  (forall value d, env !! key = Some value -> value <> "" ->
     Config.getEnv env key d = value) /\
  (forall d, Config.getEnvInt env key d =
     default d (Transcoder.ParseInt (Config.Getenv env key))) /\
  (forall value n d, env !! key = Some value -> Transcoder.ParseInt value = Some n ->
     Config.getEnvInt env key d = n /\ - 2 ^ 63 <= n <= 2 ^ 63 - 1).
Proof.
  assert (Hint : forall d, Config.getEnvInt env key d =
                   default d (Transcoder.ParseInt (Config.Getenv env key))).
  { intros d. unfold Config.getEnvInt.
    destruct (decide (Config.Getenv env key ≠ "")) as [Hne | Hempty].
    - pose proof (Atoi_ParseInt (Config.Getenv env key)) as Hagree.
      destruct (Transcoder.ParseInt (Config.Getenv env key)) as [n |].
      + rewrite Hagree. reflexivity.
      + destruct (Strconv.Atoi (Config.Getenv env key)) as [v [e |]];
          [reflexivity | contradiction Hagree; reflexivity].
    - apply dec_stable in Hempty. rewrite Hempty. reflexivity. }
  split; [| split; [exact Hint |]].
  - intros value d Hset Hne. unfold Config.getEnv, Config.Getenv. rewrite Hset. simpl.
    destruct (decide (value ≠ "")); [reflexivity | contradiction].
  - intros value n d Hset Hparse. rewrite Hint. unfold Config.Getenv. rewrite Hset. simpl.
    rewrite Hparse. split; [reflexivity |].
    pose proof (Atoi_ParseInt value) as Hagree. rewrite Hparse in Hagree.
    pose proof (Atoi_values value) as Hv. rewrite Hagree in Hv. exact Hv.
Qed.

(** ** The notifier under any endpoint and any context *)

Section NotifierBounds.
Import WebhookClient.
Variable c : Client.
Variable env : Env.
Variable url : string.
Variable payload : Payload.

(** One request, whatever the URL and the endpoint: at most one request
    goes out, none for a URL that does not parse, and no error comes
    back exactly when one went out and was answered with a 2xx
    status. *)
Lemma sendRequest_any (n : Net) :
  exists e,
    sendRequest env url payload n =
      (Val e,
       mkNet (n_requests n ++ (if url_parses env url then [(url, payload)] else []))
         (n_log n)) /\
    (e = None <->
     url_parses env url = true /\ reply_ok (reply env (length (n_requests n))) = true).
Proof.
  unfold sendRequest. destruct (url_parses env url); simpl.
  - unfold bind, gets, modify. simpl.
    destruct (reply env (length (n_requests n))) as [code | msg |]; simpl.
    + destruct ((200 <=? code) && (code <? 300)); eexists; (split; [reflexivity |]).
      * split; [intros _; split; reflexivity | intros _; reflexivity].
      * split; [discriminate | intros [_ [=]]].
    + eexists. split; [reflexivity |]. split; [discriminate | intros [_ [=]]].
    + eexists. split; [reflexivity |]. split; [discriminate | intros [_ [=]]].
  - rewrite app_nil_r. destruct n. eexists. split; [reflexivity |].
    split; [discriminate | intros [[=] _]].
Qed.

(** The retry loop with [n] iterations left. *)
Lemma attempts_any (n : nat) :
  forall (a : Z) (last : Go.error) (net : Net),
    exists r k lg,
      attempts c env url payload n a last net =
        (Val r, mkNet (n_requests net ++ replicate k (url, payload)) lg) /\
      (k <= n)%nat /\
      (url_parses env url = false -> k = 0%nat) /\
      (forall i, (S i < k)%nat ->
                 reply_ok (reply env (length (n_requests net) + i)) = false) /\
      (r = None ->
       exists k', k = S k' /\
                  reply_ok (reply env (length (n_requests net) + k')) = true) /\
      (r <> None ->
       forall i, (i < k)%nat ->
                 reply_ok (reply env (length (n_requests net) + i)) = false).
Proof.
  induction n as [| n IH]; intros a last net.
  - simpl. exists (Some ("webhook failed after " +:+ pretty (retryCount c + 1)
                         +:+ " attempts: " +:+ err_text last)), 0%nat, (n_log net).
    simpl. rewrite app_nil_r. destruct net. simpl.
    split; [reflexivity |]. split; [lia |]. split; [reflexivity |].
    split; [intros i Hi; lia |]. split; [discriminate | intros _ i Hi; lia].
  - assert (Hwait : exists lg,
              attempts c env url payload (S n) a last net =
                match (if 0 <? a then ctx_done env a else None) with
                | Some ctxErr =>
                    (Val (Some ctxErr), mkNet (n_requests net) (n_log net ++ lg))
                | None =>
                    (let* err := sendRequest env url payload in
                     match err with
                     | None =>
                         run net_log ("Webhook sent successfully for job "
                                      +:+ pJobID payload) in
                         ret None
                     | Some e =>
                         run net_log ("Webhook attempt " +:+ pretty (a + 1)
                                      +:+ " failed for job " +:+ pJobID payload
                                      +:+ ": " +:+ e) in
                         attempts c env url payload n (a + 1) (Some e)
                     end) (mkNet (n_requests net) (n_log net ++ lg))
                end).
    { simpl. destruct (0 <? a).
      - eexists [_]. unfold bind at 1. unfold bind at 1. unfold net_log at 1, modify.
        unfold ret at 1. destruct (ctx_done env a); reflexivity.
      - exists []. unfold bind at 1. unfold ret at 1. rewrite app_nil_r.
        destruct net; reflexivity. }
    destruct Hwait as (lg & ->).
    destruct (if 0 <? a then ctx_done env a else None) as [ctxErr |].
    { exists (Some ctxErr), 0%nat, (n_log net ++ lg). simpl. rewrite app_nil_r.
      split; [reflexivity |]. split; [lia |]. split; [reflexivity |].
      split; [intros i Hi; lia |]. split; [discriminate | intros _ i Hi; lia]. }
    destruct (sendRequest_any (mkNet (n_requests net) (n_log net ++ lg)))
      as (e & Hs & He).
    unfold bind at 1. rewrite Hs. simpl in He. simpl.
    destruct e as [e |].
    + unfold bind at 1, net_log at 1, modify. simpl.
      destruct (IH (a + 1) (Some e)
                  (mkNet (n_requests net ++
                          (if url_parses env url then [(url, payload)] else []))
                     ((n_log net ++ lg) ++
                      ["Webhook attempt " +:+ pretty (a + 1) +:+ " failed for job "
                       +:+ pJobID payload +:+ ": " +:+ e])))
        as (r & k & lg' & -> & Hk & Hbad & Hfail & Hok & Herr).
      simpl in *.
      assert (Hthis : url_parses env url = true ->
                      reply_ok (reply env (length (n_requests net))) = false).
      { intros Hp. destruct (reply_ok (reply env (length (n_requests net)))) eqn:Hr;
          [| reflexivity].
        destruct He as [_ He]. specialize (He (conj Hp eq_refl)). discriminate. }
      destruct (url_parses env url) eqn:Hp.
      * exists r, (S k), lg'. simpl. rewrite <- app_assoc. simpl.
        rewrite length_app in Hfail, Hok, Herr. simpl in Hfail, Hok, Herr.
        split; [reflexivity |]. split; [lia |]. split; [discriminate |].
        split.
        { intros [| i] Hi.
          - rewrite Nat.add_0_r. apply Hthis. reflexivity.
          - replace (length (n_requests net) + S i)%nat
              with (length (n_requests net) + 1 + i)%nat by lia.
            apply Hfail. lia. }
        split.
        { intros Hr. destruct (Hok Hr) as (k' & -> & Hlast). exists (S k').
          split; [reflexivity |].
          replace (length (n_requests net) + S k')%nat
            with (length (n_requests net) + 1 + k')%nat by lia.
          exact Hlast. }
        intros Hr [| i] Hi.
        -- rewrite Nat.add_0_r. apply Hthis. reflexivity.
        -- replace (length (n_requests net) + S i)%nat
             with (length (n_requests net) + 1 + i)%nat by lia.
           apply (Herr Hr). lia.
      * rewrite app_nil_r in *. specialize (Hbad eq_refl). subst k.
        exists r, 0%nat, lg'. simpl.
        split; [reflexivity |]. split; [lia |]. split; [reflexivity |].
        split; [intros i Hi; lia |].
        split; [intros Hr; destruct (Hok Hr) as (k' & [=] & _) | intros _ i Hi; lia].
    + destruct He as [He _]. destruct (He eq_refl) as (Hp & Hr). rewrite Hp.
      unfold bind, net_log, modify, ret. simpl.
      exists None, 1%nat. eexists. split; [reflexivity |]. split; [lia |].
      split; [intros [=] |].
      split; [intros i Hi; lia |].
      split; [intros _; exists 0%nat; rewrite Nat.add_0_r; split; [reflexivity | exact Hr] |].
      intros Hne. contradiction Hne. reflexivity.
Qed.

End NotifierBounds.

(** What [Send] never does, whatever the endpoint answers and whatever
    becomes of the caller's context.  It issues at most [R + 1] requests,
    all for the given URL with the given payload, and none at all for an
    empty URL or for one that does not parse; it issues no request after
    one that was answered with a 2xx status, every request before the
    last having failed; with a URL that is not empty it reports success
    only if its last request was answered with a 2xx status, and where it
    reports an error every request it issued has failed. *)
Theorem Send_bounds (c : WebhookClient.Client) (env : WebhookClient.Env)
    (url : string) (payload : Payload) :
  exists r k lg,
    WebhookClient.Send c env url payload WebhookClient.net0 =
      (Val r, WebhookClient.mkNet (replicate k (url, payload)) lg) /\
    Z.of_nat k <= Z.max 0 (WebhookClient.retryCount c + 1) /\
    (url = "" -> k = 0%nat /\ r = None) /\
    (WebhookClient.url_parses env url = false -> k = 0%nat) /\
    (forall i, (S i < k)%nat -> reply_ok (WebhookClient.reply env i) = false) /\
    (url <> "" -> r = None ->
     exists k', k = S k' /\ reply_ok (WebhookClient.reply env k') = true) /\
    (r <> None -> forall i, (i < k)%nat -> reply_ok (WebhookClient.reply env i) = false).
Proof.
  unfold WebhookClient.Send. destruct (decide (url = "")) as [-> | Hurl].
  - exists None, 0%nat. eexists. split; [reflexivity |]. simpl.
    split; [lia |]. split; [split; reflexivity |]. split; [reflexivity |].
    split; [intros i Hi; lia |]. split; [intros Hne; contradiction Hne; reflexivity |].
    intros Hne. contradiction Hne. reflexivity.
  - destruct (attempts_any c env url payload (Z.to_nat (WebhookClient.retryCount c + 1))
                0 None WebhookClient.net0)
      as (r & k & lg & Hrun & Hk & Hbad & Hfail & Hok & Herr).
    simpl in *. exists r, k, lg. split; [exact Hrun |].
    split; [lia |]. split; [intros Hempty; contradiction |]. split; [exact Hbad |].
    split; [exact Hfail |]. split; [intros _; exact Hok | exact Herr].
Qed.

(** The waits between attempts double from one second.  The wait before
    the retry numbered [a] is [2 ^ (a - 1)] seconds for every [a] from 1
    to 34, the computation in nanoseconds staying within 64 bits; before
    the retry numbered 35 it is past them and comes out negative. *)
Theorem backoff_doubles (a : Z) :
  1 <= a <= 34 ->
  WebhookClient.backoff a = 2 ^ (a - 1) * 1000000000 /\
  (a < 34 -> WebhookClient.backoff (a + 1) = 2 * WebhookClient.backoff a) /\
  WebhookClient.backoff 1 = 1000000000 /\
  WebhookClient.backoff 35 < 0.
Proof.
  intros Ha.
  assert (Hb : forall b, 1 <= b <= 34 -> WebhookClient.backoff b = 2 ^ (b - 1) * 1000000000).
  { intros b Hb. unfold WebhookClient.backoff, wrap64.
    assert (Hpow : 1 <= 2 ^ (b - 1) <= 2 ^ 33).
    { split; [apply (Z.pow_le_mono_r 2 0 (b - 1)); lia
             | apply Z.pow_le_mono_r; lia]. }
    change (2 ^ 33) with 8589934592 in Hpow.
    change (2 ^ 63) with 9223372036854775808.
    change (2 ^ 64) with 18446744073709551616.
    rewrite (Z.mod_small (2 ^ (b - 1) + 9223372036854775808)) by lia.
    replace (2 ^ (b - 1) + 9223372036854775808 - 9223372036854775808)
      with (2 ^ (b - 1)) by lia.
    rewrite Z.mod_small by lia. lia. }
  split; [apply Hb, Ha |].
  split.
  { intros Hlt. rewrite !Hb by lia.
    replace (a + 1 - 1) with (Z.succ (a - 1)) by lia.
    rewrite Z.pow_succ_r by lia. lia. }
  split; [reflexivity |]. vm_compute. reflexivity.
Qed.

Lemma backoff_doubles_witness :
  WebhookClient.backoff 3 = 2 ^ (3 - 1) * 1000000000.
Proof. apply (backoff_doubles 3). lia. Defined.

(** ** The transcode without a duration *)

(** Without a duration there is no progress to report.  Where the probe
    of the input fails, which is only logged, or reports a duration that
    is not positive, the one value a run delivers is the closing 100 of a
    transcode that succeeds; a transcode that fails delivers nothing.  In
    every case the transcode returns no error exactly when the pipe, the
    start and the wait all succeed: a failed probe never fails it. *)
Theorem Transcode_without_duration (r : Transcoder.FFmpegRun) :
  (snd (Transcoder.ff_duration r) <> None \/ fst (Transcoder.ff_duration r) <= 0) ->
  Transcoder.delivered r =
    match Transcoder.ff_pipe r, Transcoder.ff_start r, Transcoder.ff_wait r with
    | None, None, None => [100]
    | _, _, _ => []
    end /\
  (fst (Transcoder.Transcode (fun _ => ret tt) (Some Transcoder.record_progress) r []) =
     Val None <-> transcode_ok r).
Proof.
  intros Hdur. split.
  - rewrite delivered_exact.
    destruct (Transcoder.ff_pipe r); [reflexivity |].
    destruct (Transcoder.ff_start r); [reflexivity |].
    assert (Hnone : (let d := match Transcoder.ff_duration r with
                              | (d, None) => d
                              | (_, Some _) => 0
                              end in
                     if 0 <? d
                     then (fun t => Transcoder.percent t d) <$>
                            reported_times (Transcoder.ff_stdout r)
                     else []) = []).
    { cbv zeta. destruct (Transcoder.ff_duration r) as [d [e |]]; [reflexivity |].
      simpl in Hdur. destruct Hdur as [Hne | Hle]; [contradiction Hne; reflexivity |].
      destruct (0 <? d) eqn:Hd; [apply Z.ltb_lt in Hd; lia | reflexivity]. }
    rewrite Hnone. destruct (Transcoder.ff_wait r); reflexivity.
  - unfold Transcoder.Transcode, transcode_ok.
    destruct (Transcoder.ff_duration r) as [d [e |]]; unfold bind at 1; simpl;
      (destruct (Transcoder.ff_pipe r);
       [split; [discriminate | intros ([=] & _)] |]);
      (destruct (Transcoder.ff_start r);
       [split; [discriminate | intros (_ & [=] & _)] |]);
      unfold bind at 1; rewrite scan_record; simpl;
      (destruct (Transcoder.ff_wait r);
       [split; [discriminate | intros (_ & _ & [=])] | split; [auto | reflexivity]]).
Qed.

Lemma Transcode_without_duration_witness :
  Transcoder.delivered (ffmpeg_missing_input "in" "out") = [].
Proof.
  apply (proj1 (Transcode_without_duration (ffmpeg_missing_input "in" "out")
                  ltac:(left; discriminate))).
Defined.

(** ** What a run of the pipeline leaves behind *)

Section PipelineEffects.
Import Storage WebhookClient Pool Transcoder Main.
Variable cfg : Config.
Variable ls : LocalStorage.
Variable driveClient : option GoogleDriveClient.
Variable client : Client.
Variable ffmpeg : string -> string -> FFmpegRun.

Lemma notifications_app (a b : list Event) :
  notifications (a ++ b) = notifications a ++ notifications b.
Proof. unfold notifications. apply omap_app. Qed.

Lemma notifications_progress (job : Job) (evs : list Event) :
  Forall (progress_event job) evs -> notifications evs = [].
Proof.
  induction 1 as [| e evs He _ IH]; [reflexivity |].
  destruct He as [(msg & ->) | (j & -> & _)]; exact IH.
Qed.

(** The trace of a run of the pipeline, and what it says of
    notifications. *)
Lemma pipeline_trace (job : Job) (w : World) :
  exists err j2 w2 res job' tail cleanup w' before,
    createJobProcessor cfg ls driveClient client ffmpeg (job, w) = (res, (job', w')) /\
    pipeline_end (WebhookURL cfg) driveClient j2 w2 err res job' tail cleanup /\
    ID j2 = ID job /\ OriginalName j2 = OriginalName job /\
    w_trace w' = w_trace w ++ before ++ tail /\
    notifications before = [] /\
    w_queue w' = w_queue w /\
    w_files w' =
      (let files :=
         written_files (ffmpeg (InputPath job) (OutputPath job)) (OutputPath job)
           (w_files w) in
       if cleanup then released (InputPath job) (OutputPath job) files else files).
Proof.
  destruct (pipeline_outcome cfg ls driveClient client ffmpeg job w)
    as (err & j2 & w2 & res & job' & tail & cleanup & w' &
        Hrun & T & _ & _ & Hend & _ & Hq & _ & Hf & Htr).
  destruct (tracks_started _ _ _ _ T) as (_ & I2 & _).
  destruct (same_but_progress_fields _ _ (proj1 T))
    as (_ & _ & _ & _ & _ & _ & _ & On2 & _). simpl in On2.
  destruct T as (_ & _ & _ & _ & _ & evs & Hevs & Pevs).
  exists err, j2, w2, res, job', tail, cleanup, w',
    (EvSave (processing_job (w_clock w) job)
     :: evs ++ [EvTranscode (InputPath job) (OutputPath job) err]).
  split; [exact Hrun |]. split; [exact Hend |]. split; [exact I2 |].
  split; [exact On2 |].
  split.
  { rewrite Htr, Hevs. unfold started. simpl. rewrite <- !app_assoc. reflexivity. }
  split.
  { change (notifications (EvSave ?j :: ?l)) with (notifications l).
    rewrite notifications_app, (notifications_progress _ _ Pevs). reflexivity. }
  split; [exact Hq | exact Hf].
Qed.

End PipelineEffects.

(** One notification for each job that the pipeline sees through.  A run
    of the pipeline that returns hands exactly one notification to
    [SendAsync], as the last thing it does, for the configured URL; it
    names the job by its identifier and its original name and tells the
    outcome: completed, with the Drive link and file id of the record, or
    failed, with the very error message that the record holds.  The error
    that a failed run returns is that message read as a format by
    [fmt.Errorf].  A run that ends in a panic hands over none. *)
Theorem pipeline_notifies_once (cfg : Main.Config) (ls : Storage.LocalStorage)
    (driveClient : option Main.GoogleDriveClient) (client : WebhookClient.Client)
    (ffmpeg : string -> string -> Transcoder.FFmpegRun) (job : Job) (w : World) :
  exists res job' w' evs,
    Main.createJobProcessor cfg ls driveClient client ffmpeg (job, w) = (res, (job', w')) /\
    w_trace w' = w_trace w ++ evs /\
    match res with
    | Val e =>
        exists p,
          notifications evs = [(Main.WebhookURL cfg, p)] /\
          last evs = Some (EvSendAsync (Main.WebhookURL cfg) p) /\
          pJobID p = ID job /\ pOriginalName p = OriginalName job /\
          pStatus p = status_string (Status job') /\
          Some (pCompletedAt p) = CompletedAt job' /\
          match e with
          | None =>
              Status job' = StatusCompleted /\ pError p = "" /\
              pDriveURL p = DriveURL job' /\ pDriveFileID p = DriveFileID job'
          | Some returned =>
              Status job' = StatusFailed /\ pError p = Error job' /\
              returned = Fmt.Errorf (Error job')
          end
    | Panicked _ => notifications evs = []
    end.
Proof.
  destruct (pipeline_trace cfg ls driveClient client ffmpeg job w)
    as (err & j2 & w2 & res & job' & tail & cleanup & w' & before &
        Hrun & Hend & Hid & Hname & Htr & Hnone & _).
  exists res, job', w', (before ++ tail).
  split; [exact Hrun |]. split; [exact Htr |].
  rewrite notifications_app, Hnone. simpl.
  inversion Hend; subst; simpl.
  - eexists. split; [reflexivity |].
    split; [rewrite last_app; reflexivity |].
    repeat split; auto.
  - eexists. split; [reflexivity |].
    split; [rewrite last_app; reflexivity |].
    repeat split; auto.
  - reflexivity.
  - eexists. split; [reflexivity |].
    split; [rewrite last_app; reflexivity |].
    repeat split; auto.
  - eexists. split; [reflexivity |].
    split; [rewrite last_app; reflexivity |].
    repeat split; auto.
Qed.

(** The local files of a job outlive every run but the uploaded one.  A
    run of the pipeline leaves on disk what ffmpeg has written at the
    output path.  It then removes the input and the output file of the
    job exactly when a Drive client is configured and the run returns
    without an error, the output then being on Drive; when the run fails
    or panics, and when no Drive client is configured, it removes no
    file.  A file at any other path is never touched, and neither is the
    queue. *)
Theorem pipeline_releases_files_when_uploaded (cfg : Main.Config) (ls : Storage.LocalStorage)
    (driveClient : option Main.GoogleDriveClient) (client : WebhookClient.Client)
    (ffmpeg : string -> string -> Transcoder.FFmpegRun) (job : Job) (w : World) :
  exists res job' w',
    Main.createJobProcessor cfg ls driveClient client ffmpeg (job, w) = (res, (job', w')) /\
    w_queue w' = w_queue w /\
    let files :=
      Transcoder.written_files (ffmpeg (InputPath job) (OutputPath job)) (OutputPath job)
        (w_files w) in
    (res = Val None -> driveClient <> None ->
     w_files w' = released (InputPath job) (OutputPath job) files /\
     (InputPath job <> "" -> w_files w' !! InputPath job = None) /\
     (OutputPath job <> "" -> w_files w' !! OutputPath job = None)) /\
    (res <> Val None \/ driveClient = None -> w_files w' = files) /\
    (forall p, p <> InputPath job -> p <> OutputPath job ->
       w_files w' !! p = w_files w !! p).
Proof.
  destruct (pipeline_trace cfg ls driveClient client ffmpeg job w)
    as (err & j2 & w2 & res & job' & tail & cleanup & w' & before &
        Hrun & Hend & _ & _ & _ & _ & Hq & Hf).
  exists res, job', w'. split; [exact Hrun |]. split; [exact Hq |].
  cbv zeta in Hf |- *.
  assert (Hother : forall p, p <> InputPath job -> p <> OutputPath job ->
            w_files w' !! p = w_files w !! p).
  { intros p Hin Hout. rewrite Hf.
    assert (Hw : Transcoder.written_files (ffmpeg (InputPath job) (OutputPath job))
                   (OutputPath job) (w_files w) !! p = w_files w !! p).
    { unfold Transcoder.written_files.
      generalize (ffmpeg (InputPath job) (OutputPath job)). intros r.
      destruct (Transcoder.ff_pipe r), (Transcoder.ff_start r), (Transcoder.ff_output r);
        try reflexivity.
      apply lookup_insert_ne. congruence. }
    destruct cleanup; [| exact Hw].
    rewrite released_lookup.
    match goal with
    | |- context [decide ?P] => destruct (decide P) as [Hp | _]; [| exact Hw]
    end.
    exfalso. destruct Hp as [(_ & Heq) | (_ & Heq)]; congruence. }
  inversion Hend; subst; simpl in Hf.
  - split; [intros [=] |]. split; [intros _; exact Hf | exact Hother].
  - split; [intros [=] |]. split; [intros _; exact Hf | exact Hother].
  - split; [intros [=] |]. split; [intros _; exact Hf | exact Hother].
  - split.
    + intros _ _. split; [exact Hf |]. rewrite Hf.
      split; intros Hne; rewrite released_lookup;
        match goal with
        | |- context [decide ?P] =>
            destruct (decide P) as [_ | Hn]; [reflexivity | exfalso; apply Hn; tauto]
        end.
    + split; [| exact Hother]. intros [Hne | [=]]. contradiction Hne. reflexivity.
  - split; [intros _ Hne; contradiction Hne; reflexivity |].
    split; [intros _; exact Hf | exact Hother].
Qed.

(** ** The name of the upload *)

Section OutputName.

Lemma substring_prefix (stem rest : string) :
  String.substring 0 (String.length stem) (stem +:+ rest) = stem.
Proof.
  induction stem as [| c stem IH]; simpl.
  - destruct rest; reflexivity.
  - rewrite IH. reflexivity.
Qed.

Lemma length_append (a b : string) :
  String.length (a +:+ b) = (String.length a + String.length b)%nat.
Proof. induction a as [| c a IH]; simpl; [reflexivity | rewrite IH; reflexivity]. Qed.

End OutputName.

(** The output is uploaded under the original name with its last four
    bytes replaced by [.mp4], whatever those bytes are: a name that ends
    in a dot and three letters keeps its stem, any other name loses four
    bytes all the same.  A name of four bytes or fewer is replaced by the
    job identifier followed by [.mp4]. *)
Theorem outputName_replaces_four_bytes (job : Job) :
  (forall stem tail,
     OriginalName job = stem +:+ tail -> String.length tail = 4%nat -> stem <> "" ->
     Main.outputName job = stem +:+ ".mp4") /\
  ((String.length (OriginalName job) <= 4)%nat ->
   Main.outputName job = ID job +:+ ".mp4").
Proof.
  unfold Main.outputName. split.
  - intros stem tail -> Htail Hstem.
    rewrite length_append, Htail.
    destruct (4 <? String.length stem + 4)%nat eqn:Hlen.
    + replace (String.length stem + 4 - 4)%nat with (String.length stem) by lia.
      rewrite substring_prefix. reflexivity.
    + apply Nat.ltb_ge in Hlen. destruct stem; [contradiction | simpl in Hlen; lia].
  - intros Hshort. destruct (4 <? String.length (OriginalName job))%nat eqn:Hlen;
      [apply Nat.ltb_lt in Hlen; lia | reflexivity].
Qed.

Lemma outputName_replaces_four_bytes_witness :
  Main.outputName (sample_job "j1" StatusPending 0) = "j1" +:+ ".mp4".
Proof.
  apply (proj1 (outputName_replaces_four_bytes (sample_job "j1" StatusPending 0)) "j1" ".mov").
  - reflexivity.
  - reflexivity.
  - discriminate.
Defined.

(** ** The queue and the table of a running service *)

Section QueueInvariant.
Import Storage WebhookClient Pool Transcoder Main.

Lemma keeps_records_refl (db : gmap string Job) : keeps_records db db.
Proof. intros k Hk. exact Hk. Qed.

Lemma keeps_records_trans (a b c : gmap string Job) :
  keeps_records a b -> keeps_records b c -> keeps_records a c.
Proof. intros Hab Hbc k Hk. apply Hbc, Hab, Hk. Qed.

Lemma keeps_records_insert (db : gmap string Job) (k : string) (j : Job) :
  keeps_records db (<[k := j]> db).
Proof.
  intros k' Hk'. destruct (decide (k = k')) as [-> | Hne].
  - rewrite lookup_insert_eq. eauto.
  - rewrite lookup_insert_ne by exact Hne. exact Hk'.
Qed.

Lemma keeps_records_alter (db : gmap string Job) (k : string) (f : Job -> Job) :
  keeps_records db (alter f k db).
Proof.
  intros k' Hk'. destruct (decide (k = k')) as [-> | Hne].
  - rewrite lookup_alter_eq. destruct Hk' as [j ->]. simpl. eauto.
  - rewrite lookup_alter_ne by exact Hne. exact Hk'.
Qed.

(** The invariant survives whatever leaves the buffer alone and keeps
    the records. *)
Lemma queue_inv_frame (w w' : World) :
  queue_inv w ->
  jobs (w_queue w') = jobs (w_queue w) -> capacity (w_queue w') = capacity (w_queue w) ->
  keeps_records (w_db w) (w_db w') ->
  queue_inv w'.
Proof.
  intros (Hlen & Hnd & Hrows) Hj Hc Hk. unfold queue_inv. rewrite Hj, Hc.
  split; [exact Hlen |]. split; [exact Hnd |].
  eapply Forall_impl; [exact Hrows |]. intros j Hrow. apply Hk, Hrow.
Qed.

Lemma CreateJob_queue (h : Api.Handler) (uuid : string) (file : option Upload) (w : World) :
  queue_inv w ->
  queue_inv (snd (Api.CreateJob h uuid file w)) /\
  keeps_records (w_db w) (w_db (snd (Api.CreateJob h uuid file w))).
Proof.
  intros Hinv. pose proof (CreateJob_outcomes h uuid file w) as Hout.
  destruct file as [header |];
    [| rewrite Hout; split; [exact Hinv | apply keeps_records_refl]].
  cbv zeta in Hout. destruct Hout as (w' & Hout & _).
  destruct (Storage.Content header) as [content |].
  - destruct (w_db w !! uuid) as [old |] eqn:Hold.
    + destruct Hout as (-> & Hdb & Hq & _). simpl.
      assert (Hk : keeps_records (w_db w) (w_db w'))
        by (rewrite Hdb; apply keeps_records_refl).
      split; [| exact Hk].
      apply (queue_inv_frame w); [exact Hinv | rewrite Hq .. | exact Hk]; reflexivity.
    + destruct Hout as (Hdb & _ & Hout).
      assert (Hk : keeps_records (w_db w) (w_db w'))
        by (rewrite Hdb; apply keeps_records_insert).
      destruct (decide _) as [Hfree | Hfull].
      * destruct Hout as (-> & Hq & _). simpl. split; [| exact Hk].
        destruct Hinv as (Hlen & Hnd & Hrows). unfold queue_inv. rewrite Hq. simpl.
        split; [rewrite length_app; simpl; lia |].
        split.
        { rewrite fmap_app. simpl. apply NoDup_app. split; [exact Hnd |].
          split; [| apply NoDup_singleton].
          intros id Hid Hin. apply list_elem_of_singleton in Hin. subst id.
          apply list_elem_of_fmap in Hid as (j & Hj & Hin).
          rewrite Forall_forall in Hrows. specialize (Hrows j Hin).
          rewrite <- Hj, Hold in Hrows. destruct Hrows as [? [=]]. }
        apply Forall_app. split.
        { eapply Forall_impl; [exact Hrows |]. intros j Hrow. apply Hk, Hrow. }
        constructor; [| constructor]. simpl. rewrite Hdb, lookup_insert_eq. eauto.
      * destruct Hout as (-> & Hq & _). simpl. split; [| exact Hk].
        apply (queue_inv_frame w); [exact Hinv | rewrite Hq .. | exact Hk]; reflexivity.
  - destruct Hout as (-> & Hdb & Hq & _). simpl.
    assert (Hk : keeps_records (w_db w) (w_db w'))
      by (rewrite Hdb; apply keeps_records_refl).
    split; [| exact Hk].
    apply (queue_inv_frame w); [exact Hinv | rewrite Hq .. | exact Hk]; reflexivity.
Qed.

Lemma DeleteJob_queue (h : Api.Handler) (id : string) (w : World) :
  queue_inv w ->
  queue_inv (snd (Api.DeleteJob h id w)) /\
  keeps_records (w_db w) (w_db (snd (Api.DeleteJob h id w))).
Proof.
  intros Hinv. destruct (DeleteJob_effect h id w) as (Hq & Hdb). cbv zeta in Hdb.
  assert (Hk : keeps_records (w_db w) (w_db (snd (Api.DeleteJob h id w)))).
  { destruct (w_db w !! id) as [j |]; [| rewrite Hdb; apply keeps_records_refl].
    destruct (DB.live j); [| rewrite Hdb; apply keeps_records_refl].
    destruct (decide _); destruct Hdb as (-> & _).
    - eapply keeps_records_trans; [apply keeps_records_insert | apply keeps_records_alter].
    - apply keeps_records_alter. }
  split; [| exact Hk].
  apply (queue_inv_frame w); [exact Hinv | rewrite Hq .. | exact Hk]; reflexivity.
Qed.

(** One turn of the loop of a worker. *)
Lemma worker_loop_turn (wp : WorkerPool) (id : Z) (fuel : nat) (w : World) :
  worker_loop wp id (S fuel) w =
    if w_stop w then
      (Val ExitStopped, emit (EvLog ("Worker " +:+ pretty id +:+ " stopping")) w)
    else
      match jobs (w_queue w) with
      | [] => (Val ExitIdle, w)
      | job :: rest =>
          match processJob wp id job
                  (set_queue (fun _ => mkQueue rest (capacity (w_queue w))
                                         (running (w_queue w))) w) with
          | (Val _, w1) => worker_loop wp id fuel w1
          | (Panicked v, w1) => (Panicked v, w1)
          end
      end.
Proof.
  simpl. unfold bind at 1, get. destruct (w_stop w); [reflexivity |].
  unfold Dequeue. destruct (jobs (w_queue w)) as [| job rest]; [reflexivity |].
  unfold bind at 1. simpl. unfold bind at 1.
  destruct (processJob wp id job _) as [[[] | v] w1]; reflexivity.
Qed.

Lemma worker_loop_queue cfg ls driveClient client ffmpeg (id : Z) (fuel : nat) :
  forall w : World,
    queue_inv w ->
    queue_inv (snd (worker_loop (pipeline_pool cfg ls driveClient client ffmpeg) id fuel w)) /\
    keeps_records (w_db w)
      (w_db (snd (worker_loop (pipeline_pool cfg ls driveClient client ffmpeg) id fuel w))).
Proof.
  induction fuel as [| fuel IH]; intros w Hinv;
    [split; [exact Hinv | apply keeps_records_refl] |].
  rewrite worker_loop_turn.
  destruct (w_stop w) eqn:Hstop.
  - simpl. split; [| apply keeps_records_refl].
    apply (queue_inv_frame w); [exact Hinv | reflexivity .. | apply keeps_records_refl].
  - destruct (jobs (w_queue w)) as [| job rest] eqn:Hjobs;
      [split; [exact Hinv | apply keeps_records_refl] |].
    assert (Hinv1 : queue_inv (set_queue (fun _ => mkQueue rest (capacity (w_queue w))
                                                     (running (w_queue w))) w)).
    { destruct Hinv as (Hlen & Hnd & Hrows). unfold queue_inv. simpl.
      rewrite Hjobs in Hlen, Hnd, Hrows. simpl in Hlen. rewrite fmap_cons in Hnd.
      apply NoDup_cons in Hnd as [_ Hnd]. apply Forall_cons in Hrows as [_ Hrows].
      split; [lia |]. split; assumption. }
    match goal with |- context [processJob ?wp id job ?w1] =>
      destruct (processJob_pipeline cfg ls driveClient client ffmpeg id job w1)
        as (res & job' & w1' & evs & Hrun & Hdb & Hj & Hcap & _);
      assert (Hk1 : keeps_records (w_db w) (w_db w1'))
        by (rewrite Hdb; apply keeps_records_insert);
      assert (Hinv1' : queue_inv w1')
        by (apply (queue_inv_frame w1);
            [exact Hinv1 | exact Hj | exact Hcap
            | rewrite Hdb; apply keeps_records_insert]);
      rewrite Hrun; destruct res as [[] | v]
    end.
    + destruct (IH w1' Hinv1') as (Hinv2 & Hk2).
      split; [exact Hinv2 | eapply keeps_records_trans; eassumption].
    + simpl. split; [exact Hinv1' | exact Hk1].
Qed.

Lemma worker_queue cfg ls driveClient client ffmpeg (id : Z) (fuel : nat) (w : World) :
  queue_inv w ->
  queue_inv (snd (worker (pipeline_pool cfg ls driveClient client ffmpeg) id fuel w)) /\
  keeps_records (w_db w)
    (w_db (snd (worker (pipeline_pool cfg ls driveClient client ffmpeg) id fuel w))).
Proof.
  intros Hinv.
  change (worker (pipeline_pool cfg ls driveClient client ffmpeg) id fuel w)
    with (worker_loop (pipeline_pool cfg ls driveClient client ffmpeg) id fuel
            (emit (EvLog ("Worker " +:+ pretty id +:+ " started")) w)).
  apply (worker_loop_queue cfg ls driveClient client ffmpeg id fuel
           (emit (EvLog ("Worker " +:+ pretty id +:+ " started")) w)).
  apply (queue_inv_frame w); [exact Hinv | reflexivity .. | apply keeps_records_refl].
Qed.

Lemma recoverPendingJobs_capacity (w : World) :
  capacity (w_queue (snd (recoverPendingJobs w))) = capacity (w_queue w).
Proof.
  unfold recoverPendingJobs. unfold bind at 1. unfold DB.GetPendingJobs at 1.
  unfold bind at 1, get. simpl.
  destruct (decide _) as [Hnil | Hne]; [reflexivity |].
  unfold bind at 1. simpl.
  match goal with |- context [recoverAll ?sel ?w1] =>
    destruct (recoverAll_run sel w1) as (w' & -> & _ & _ & Hc & _) end.
  exact Hc.
Qed.

Lemma recover_queue (bufferSize : nat) (w : World) :
  db_wf (w_db w) ->
  queue_inv (snd (recoverPendingJobs (restart bufferSize w))) /\
  keeps_records (w_db w) (w_db (snd (recoverPendingJobs (restart bufferSize w)))).
Proof.
  intros Hwf.
  pose proof (recoverPendingJobs_capacity (restart bufferSize w)) as Hcap.
  destruct (recoverPendingJobs_run (restart bufferSize w) Hwf)
    as (sel & w' & _ & Hsel & Hnd & _ & Hrun & Hdb & _ & Hq & _).
  rewrite Hrun in Hcap |- *. simpl in *.
  assert (Hk : keeps_records (w_db w) (w_db w')).
  { intros k [j Hj]. rewrite Hdb, Hj. simpl. eauto. }
  split; [| exact Hk].
  unfold queue_inv. rewrite Hq, Hcap, Nat.sub_0_r.
  split; [rewrite length_take; lia |].
  split.
  - rewrite <- fmap_take, <- list_fmap_compose.
    apply NoDup_fmap_2_strong;
      [| eapply sublist_NoDup; [exact Hnd | apply sublist_take]].
    intros a b Ha Hb Hid. simpl in Hid.
    apply elem_of_take in Ha as (ia & Ha & _). apply elem_of_take in Hb as (ib & Hb & _).
    apply list_elem_of_lookup_2 in Ha, Hb.
    apply Hsel in Ha as (_ & _ & ka & Hka). apply Hsel in Hb as (_ & _ & kb & Hkb).
    pose proof (Hwf _ _ Hka) as Ea. pose proof (Hwf _ _ Hkb) as Eb.
    assert (ka = kb) by congruence. subst kb. congruence.
  - apply Forall_take, Forall_fmap, Forall_forall. intros j Hj. simpl.
    apply Hsel in Hj as (_ & _ & k & Hk'). rewrite <- (Hwf _ _ Hk') in Hk'.
    apply Hk. eauto.
Qed.

Lemma step_queue (w w' : World) :
  step w w' -> lifecycle_inv w -> queue_inv w ->
  queue_inv w' /\ keeps_records (w_db w) (w_db w').
Proof.
  intros Hstep Hlife Hinv. destruct Hstep.
  - apply CreateJob_queue, Hinv.
  - apply DeleteJob_queue, Hinv.
  - apply worker_queue, Hinv.
  - split; [| apply keeps_records_refl].
    apply (queue_inv_frame w); [exact Hinv | reflexivity .. | apply keeps_records_refl].
  - apply recover_queue. exact (proj1 Hlife).
Qed.

Lemma reachable_queue (w : World) : reachable w -> queue_inv w.
Proof.
  induction 1 as [n | w w' Hreach IH Hstep].
  - unfold queue_inv. simpl. split; [lia |]. split; constructor.
  - exact (proj1 (step_queue w w' Hstep (reachable_inv w Hreach) IH)).
Qed.

End QueueInvariant.

(** The queue of a running service is in order at every moment.  In
    every state the service can reach by submissions, cancel requests,
    worker runs, stops and restarts with recovery, the queue holds no more
    references than it has slots, it holds no job twice, and every
    reference in it is to a job that has a row in the table under its
    identifier. *)
Theorem queue_in_order (w : World) :
  reachable w ->
  (Size (w_queue w) <= capacity (w_queue w))%nat /\
  NoDup (ID <$> jobs (w_queue w)) /\
  (forall j, j ∈ jobs (w_queue w) -> exists row, w_db w !! ID j = Some row /\ ID row = ID j).
Proof.
  intros Hreach.
  destruct (reachable_queue w Hreach) as (Hlen & Hnd & Hrows).
  destruct (reachable_inv w Hreach) as (Hwf & _).
  split; [exact Hlen |]. split; [exact Hnd |].
  intros j Hj. rewrite Forall_forall in Hrows. destruct (Hrows j Hj) as [row Hrow].
  exists row. split; [exact Hrow | apply (Hwf _ _ Hrow)].
Qed.

Lemma queue_in_order_witness :
  NoDup (ID <$> jobs (w_queue two_submitted)).
Proof.
  apply (queue_in_order two_submitted).
  apply (reach_step submitted two_submitted); [| apply step_submit].
  apply (reach_step (Main.initial 100) submitted); [| apply step_submit].
  apply reach_initial.
Defined.

(** No record is ever removed.  Whatever the service does in a state it
    can reach, be it a submission, a cancel request, a run of a worker,
    a stop or a restart with recovery, every identifier that has a row
    in the table before still has one afterwards: a delete only stamps
    the row. *)
Theorem records_never_vanish (w w' : World) :
  reachable w -> step w w' ->
  forall k, is_Some (w_db w !! k) -> is_Some (w_db w' !! k).
Proof.
  intros Hreach Hstep.
  exact (proj2 (step_queue w w' Hstep (reachable_inv w Hreach) (reachable_queue w Hreach))).
Qed.

Lemma records_never_vanish_witness :
  is_Some (w_db cancelled_pending !! "j1").
Proof.
  apply (records_never_vanish submitted cancelled_pending).
  - apply (reach_step (Main.initial 100) submitted); [| apply step_submit].
    apply reach_initial.
  - apply step_cancel.
  - vm_compute. eauto.
Defined.

(** ** The router and its middleware *)

Section Middleware.
Import Gin Router.

Lemma with_cors_has (rw : ResponseWriter) : has_cors (with_cors rw).
Proof.
  unfold has_cors, with_cors. simpl.
  repeat split; rewrite !lookup_insert; repeat case_decide;
    first [reflexivity | congruence].
Qed.

(** Writing the status and a body keeps the headers of [CORS]. *)
Lemma has_cors_content_type (rw : ResponseWriter) (value : string) :
  has_cors rw -> has_cors (writeContentType value rw).
Proof.
  intros (H1 & H2 & H3 & H4). unfold has_cors, writeContentType.
  destruct (rw_header rw !! "Content-Type") as [[| v vs] |]; simpl;
    rewrite ?lookup_insert_ne by discriminate; repeat split; assumption.
Qed.

Lemma has_cors_same_header (rw rw' : ResponseWriter) :
  rw_header rw' = rw_header rw -> has_cors rw -> has_cors rw'.
Proof. unfold has_cors. intros ->. tauto. Qed.

Lemma CORS_run (req : Request) (next : M Exchange unit) (rw : ResponseWriter) (w : World) :
  CORS req next (rw, w) =
    if decide (Method req = "OPTIONS")
    then (Val tt, (WriteHeaderNow (WriteHeader 204 (with_cors rw)), w))
    else next (with_cors rw, w).
Proof.
  unfold CORS. do 4 (unfold bind at 1; simpl).
  destruct (decide (Method req = "OPTIONS")); reflexivity.
Qed.

Lemma RequestLogger_run (req : Request) (next : M Exchange unit)
    (rw : ResponseWriter) (w : World) :
  RequestLogger req next (rw, w) =
    match next (rw, set_clock (fun t => t + 1) w) with
    | (Val _, (rw1, w1)) =>
        (Val tt,
         (rw1,
          emit (EvLog (pretty (w_clock w1 + 1) +:+ " | "
                       +:+ pad_left 3 (pretty (rw_status rw1))
                       +:+ " | " +:+ pad_left 13 (pretty (w_clock w1 - w_clock w))
                       +:+ " | " +:+ pad_left 15 (ClientIP req)
                       +:+ " | " +:+ pad_right 7 (Method req) +:+ " "
                       +:+ (if decide (RawQuery req ≠ "")
                            then Path req +:+ "?" +:+ RawQuery req else Path req)))
            (set_clock (fun t => t + 1) (set_clock (fun t => t + 1) w1))))
    | (Panicked v, s1) => (Panicked v, s1)
    end.
Proof.
  unfold RequestLogger. unfold bind at 1. simpl. unfold bind at 1.
  destruct (next (rw, set_clock (fun t => t + 1) w)) as [[[] | v] [rw1 w1]]; reflexivity.
Qed.

Lemma Recovery_run (next : M Exchange unit) (s : Exchange) :
  Recovery next s =
    match next s with
    | (Panicked err, (rw, w)) =>
        (Val tt,
         (if bodyAllowedForStatus 500
          then Write (RenderedJSON (Api.ErrorBody "internal server error"))
                 (writeContentType jsonContentType (WriteHeader 500 rw))
          else WriteHeaderNow (writeContentType jsonContentType (WriteHeader 500 rw)),
          emit (EvLog ("Panic recovered: " +:+ err)) w))
    | (Val _, s') => (Val tt, s')
    end.
Proof.
  unfold Recovery. destruct (next s) as [[[] | err] [rw w]]; reflexivity.
Qed.

(** [c.JSON] with a status that allows a body, on a writer whose header
    has not gone out. *)
Lemma JSON_fresh (code : Z) (obj : Rendered) (rw : ResponseWriter) (w : World) :
  0 < code -> bodyAllowedForStatus code = true -> rw_written rw = false ->
  exists rw',
    JSON code obj (rw, w) = (Val tt, (rw', w)) /\
    rw_status rw' = code /\ rw_written rw' = true /\
    rw_body rw' = rw_body rw ++ [obj] /\
    (has_cors rw -> has_cors rw').
Proof.
  intros Hpos Hbody Hfresh. unfold JSON. unfold bind at 1. simpl. rewrite Hbody.
  eexists. split; [reflexivity |].
  assert (Hst : rw_status (WriteHeader code rw) = code /\
                rw_header (WriteHeader code rw) = rw_header rw /\
                rw_body (WriteHeader code rw) = rw_body rw).
  { unfold WriteHeader. apply Z.ltb_lt in Hpos. rewrite Hpos, Hfresh. simpl.
    destruct (rw_status rw =? code) eqn:Heq; simpl;
      [apply Z.eqb_eq in Heq; auto | auto]. }
  destruct Hst as (Hst & Hh & Hb).
  assert (Hct : forall r, rw_status (writeContentType jsonContentType r) = rw_status r /\
                          rw_body (writeContentType jsonContentType r) = rw_body r).
  { intros r. unfold writeContentType.
    destruct (rw_header r !! "Content-Type") as [[| ? ?] |]; auto. }
  destruct (Hct (WriteHeader code rw)) as (Hs2 & Hb2).
  simpl. rewrite Hs2, Hb2, Hst, Hb.
  split; [reflexivity |]. split; [reflexivity |]. split; [reflexivity |].
  intros Hc. unfold Write. simpl.
  eapply has_cors_same_header; [| apply (has_cors_content_type (WriteHeader code rw));
                                   eapply has_cors_same_header; [exact Hh | exact Hc]].
  reflexivity.
Qed.

(** A handler that returns, with a status above 199 other than 204 and
    304, answers through [c.JSON]. *)
Lemma respond_run (m : M World Api.Response) (r : Api.Response)
    (rw : ResponseWriter) (w w1 : World) :
  m w = (Val r, w1) -> 200 <= Api.code r -> Api.code r <> 204 -> Api.code r <> 304 ->
  rw_written rw = false ->
  exists rw',
    respond m (rw, w) = (Val tt, (rw', w1)) /\
    rw_status rw' = Api.code r /\ rw_written rw' = true /\
    rw_body rw' = rw_body rw ++ [RenderedJSON (Api.body r)] /\
    (has_cors rw -> has_cors rw').
Proof.
  intros Hm Hcode H204 H304 Hfresh. unfold respond, lift_snd. unfold bind at 1. simpl.
  rewrite Hm. apply JSON_fresh; [lia | | exact Hfresh].
  unfold bodyAllowedForStatus.
  destruct (100 <=? Api.code r) eqn:H1; simpl;
    [destruct (Api.code r <=? 199) eqn:H2; [apply Z.leb_le in H2; lia |] |].
  - destruct (Api.code r =? 204) eqn:H3; [apply Z.eqb_eq in H3; contradiction |].
    destruct (Api.code r =? 304) eqn:H4; [apply Z.eqb_eq in H4; contradiction |].
    reflexivity.
  - destruct (Api.code r =? 204) eqn:H3; [apply Z.eqb_eq in H3; contradiction |].
    destruct (Api.code r =? 304) eqn:H4; [apply Z.eqb_eq in H4; contradiction |].
    reflexivity.
Qed.

(** The three global handlers around the rest of a chain that returns,
    for a request that is no preflight. *)
Lemma global_run (req : Request) (rest : M Exchange unit)
    (rw rw1 : ResponseWriter) (w w1 : World) :
  Method req <> "OPTIONS" ->
  rest (with_cors rw, set_clock (fun t => t + 1) w) = (Val tt, (rw1, w1)) ->
  exists line,
    Recovery (RequestLogger req (CORS req rest)) (rw, w) =
      (Val tt,
       (rw1, emit (EvLog line)
               (set_clock (fun t => t + 1) (set_clock (fun t => t + 1) w1)))).
Proof.
  intros Hm Hrest. rewrite Recovery_run, RequestLogger_run, CORS_run.
  destruct (decide (Method req = "OPTIONS")); [contradiction |].
  rewrite Hrest. eexists. reflexivity.
Qed.

(** The same for a preflight request: the rest of the chain is not
    run. *)
Lemma global_preflight (req : Request) (rest : M Exchange unit)
    (rw : ResponseWriter) (w : World) :
  Method req = "OPTIONS" ->
  exists line,
    Recovery (RequestLogger req (CORS req rest)) (rw, w) =
      (Val tt,
       (WriteHeaderNow (WriteHeader 204 (with_cors rw)),
        emit (EvLog line)
          (set_clock (fun t => t + 1)
             (set_clock (fun t => t + 1) (set_clock (fun t => t + 1) w))))).
Proof.
  intros Hm. rewrite Recovery_run, RequestLogger_run, CORS_run.
  destruct (decide (Method req = "OPTIONS")); [| contradiction].
  eexists. reflexivity.
Qed.

End Middleware.

(** A preflight request is answered by [CORS] alone.  For a request with
    the method OPTIONS, whatever its path, its headers and the route gin
    finds for it, the router answers 204 without a body and with the
    headers of [CORS], asks for no API key and runs no handler: the
    table, the files and the queue are as before, and the request is
    logged once. *)
Theorem preflight_is_answered_by_CORS (cfg : Main.Config) (ls : Storage.LocalStorage)
    (uuid : string) (route : Router.Route) (req : Router.Request) (w : World) :
  Router.Method req = "OPTIONS" ->
  exists rw w' line,
    Router.SetupRouter cfg ls uuid route req (Gin.writer0, w) = (Val tt, (rw, w')) /\
    Gin.rw_status rw = 204 /\ Gin.rw_body rw = [] /\ Gin.rw_written rw = true /\
    has_cors rw /\ same_store w w' /\
    w_trace w' = w_trace w ++ [EvLog line].
Proof.
  intros Hm. unfold Router.SetupRouter.
  destruct route;
    [ match goal with
      | |- context [Router.Recovery (Router.RequestLogger req (Router.CORS req ?rest))] =>
          destruct (global_preflight req rest Gin.writer0 w Hm) as (line & ->)
      end;
      eexists _, _, line; split; [reflexivity |]; simpl;
      split; [reflexivity |]; split; [reflexivity |]; split; [reflexivity |];
      split; [apply (with_cors_has Gin.writer0) |];
      split; [repeat split | reflexivity] .. | ].
  unfold Gin.serveError. unfold bind at 1. simpl. unfold bind at 1.
  match goal with |- context [Router.Recovery (Router.RequestLogger req (Router.CORS req ?rest)) ?s] =>
    destruct (global_preflight req rest (fst s) w Hm) as (line & Hrun) end.
  simpl in Hrun. rewrite Hrun. unfold bind at 1. simpl.
  eexists _, _, line. split; [reflexivity |]. simpl.
  split; [reflexivity |]. split; [reflexivity |]. split; [reflexivity |].
  split; [apply (with_cors_has (Gin.mkResponseWriter 404 false ∅ [])) |].
  split; [repeat split | reflexivity].
Qed.

Lemma preflight_is_answered_by_CORS_witness :
  exists rw w' line,
    Router.SetupRouter sample_config sample_storage "j9" Router.NoRoute
      (sample_request "OPTIONS" "/api/v1/jobs" []) (Gin.writer0, submitted) =
      (Val tt, (rw, w')) /\
    Gin.rw_status rw = 204 /\ Gin.rw_body rw = [] /\ Gin.rw_written rw = true /\
    has_cors rw /\ same_store submitted w' /\
    w_trace w' = w_trace submitted ++ [EvLog line].
Proof.
  apply (preflight_is_answered_by_CORS sample_config sample_storage "j9" Router.NoRoute
           (sample_request "OPTIONS" "/api/v1/jobs" []) submitted).
  reflexivity.
Defined.

(** The health check asks for no key.  For every request on [/health]
    that is no preflight, whatever the configured API key and whatever
    the headers of the request, the router answers 200 with the status
    healthy and the time, with the headers of [CORS], and runs no
    handler on the store. *)
Theorem health_needs_no_key (cfg : Main.Config) (ls : Storage.LocalStorage)
    (uuid : string) (req : Router.Request) (w : World) :
  Router.Method req <> "OPTIONS" ->
  exists rw w',
    Router.SetupRouter cfg ls uuid Router.GET_health req (Gin.writer0, w) =
      (Val tt, (rw, w')) /\
    Gin.rw_status rw = 200 /\
    Gin.rw_body rw = [Gin.RenderedHealth "healthy" (w_clock w + 1)] /\
    has_cors rw /\ same_store w w'.
Proof.
  intros Hm. unfold Router.SetupRouter.
  destruct (global_run req (Router.respond_health (Api.HealthCheck (Api.NewHandler ls)))
              Gin.writer0
              (Gin.Write (Gin.RenderedHealth "healthy" (w_clock w + 1))
                 (Gin.writeContentType Gin.jsonContentType
                    (Gin.WriteHeader 200 (with_cors Gin.writer0))))
              w (set_clock (fun t => t + 1) (set_clock (fun t => t + 1) w)) Hm)
    as (line & ->); [reflexivity |].
  eexists _, _. split; [reflexivity |]. simpl.
  split; [reflexivity |]. split; [reflexivity |].
  split; [| repeat split].
  apply (has_cors_same_header
           (Gin.writeContentType Gin.jsonContentType
              (Gin.WriteHeader 200 (with_cors Gin.writer0)))); [reflexivity |].
  apply has_cors_content_type. apply (with_cors_has Gin.writer0).
Qed.

Lemma health_needs_no_key_witness :
  exists rw w',
    Router.SetupRouter (Main.mkConfig "8080" "secret" 2 "/data" "" "" "" 3) sample_storage "j9"
      Router.GET_health (sample_request "GET" "/health" []) (Gin.writer0, submitted) =
      (Val tt, (rw, w')) /\
    Gin.rw_status rw = 200 /\
    Gin.rw_body rw = [Gin.RenderedHealth "healthy" (w_clock submitted + 1)] /\
    has_cors rw /\ same_store submitted w'.
Proof.
  apply (health_needs_no_key (Main.mkConfig "8080" "secret" 2 "/data" "" "" "" 3)
           sample_storage "j9" (sample_request "GET" "/health" []) submitted).
  discriminate.
Defined.

(** No route of [/api/v1] is served without the key.  With a configured
    API key that is not empty, every request that gin routes to one of
    the four job routes and that is no preflight is answered 401 unless
    the first value of its [X-API-Key] header is the key: the body says
    that the key is missing where the header is absent or empty and that
    it is invalid otherwise, and no handler runs, the table, the files
    and the queue being as before. *)
Theorem v1_routes_require_key (cfg : Main.Config) (ls : Storage.LocalStorage)
    (uuid : string) (route : Router.Route) (req : Router.Request) (w : World) :
  v1_route route ->
  Router.Method req <> "OPTIONS" ->
  Main.APIKey cfg <> "" ->
  Api.GetHeader (Router.Headers req) "X-API-Key" <> Main.APIKey cfg ->
  exists rw w',
    Router.SetupRouter cfg ls uuid route req (Gin.writer0, w) = (Val tt, (rw, w')) /\
    Gin.rw_status rw = 401 /\
    Gin.rw_body rw =
      [Gin.RenderedJSON
         (Api.ErrorBody (if decide (Api.GetHeader (Router.Headers req) "X-API-Key" = "")
                         then "missing API key" else "invalid API key"))] /\
    has_cors rw /\ same_store w w'.
Proof.
  intros (Hh & Hn) Hm Hkey Hbad. unfold Router.SetupRouter.
  assert (Hauth : forall inner,
            Router.APIKeyAuth (Main.APIKey cfg) req inner
              (with_cors Gin.writer0, set_clock (fun t => t + 1) w) =
              (Val tt,
               (Gin.Write
                  (Gin.RenderedJSON
                     (Api.ErrorBody
                        (if decide (Api.GetHeader (Router.Headers req) "X-API-Key" = "")
                         then "missing API key" else "invalid API key")))
                  (Gin.writeContentType Gin.jsonContentType
                     (Gin.WriteHeader 401 (with_cors Gin.writer0))),
                set_clock (fun t => t + 1) w))).
  { intros inner. unfold Router.APIKeyAuth.
    rewrite (APIKeyAuth_cases (Main.APIKey cfg) (Router.Headers req) Hkey). cbv zeta.
    destruct (decide (Api.GetHeader (Router.Headers req) "X-API-Key" = "")); [reflexivity |].
    destruct (decide (Api.GetHeader (Router.Headers req) "X-API-Key" = Main.APIKey cfg));
      [contradiction | reflexivity]. }
  destruct route; try contradiction;
    match goal with
    | |- context [Router.Recovery (Router.RequestLogger req (Router.CORS req ?rest))] =>
        destruct (global_run req rest Gin.writer0 _ w _ Hm (Hauth _)) as (line & ->)
    end;
    (eexists _, _; split; [reflexivity |]; simpl;
     split; [reflexivity |]; split; [reflexivity |];
     split; [| repeat split];
     apply (has_cors_same_header
              (Gin.writeContentType Gin.jsonContentType
                 (Gin.WriteHeader 401 (with_cors Gin.writer0)))); [reflexivity |];
     apply has_cors_content_type; apply (with_cors_has Gin.writer0)).
Qed.

Lemma v1_routes_require_key_witness :
  exists rw w',
    Router.SetupRouter (Main.mkConfig "8080" "secret" 2 "/data" "" "" "" 3) sample_storage "j9"
      (Router.DELETE_job "j1") (sample_request "DELETE" "/api/v1/jobs/j1" ["guess"])
      (Gin.writer0, submitted) = (Val tt, (rw, w')) /\
    Gin.rw_status rw = 401 /\
    Gin.rw_body rw = [Gin.RenderedJSON (Api.ErrorBody "invalid API key")] /\
    has_cors rw /\ same_store submitted w'.
Proof.
  apply (v1_routes_require_key (Main.mkConfig "8080" "secret" 2 "/data" "" "" "" 3)
           sample_storage "j9" (Router.DELETE_job "j1")
           (sample_request "DELETE" "/api/v1/jobs/j1" ["guess"]) submitted).
  - split; discriminate.
  - discriminate.
  - discriminate.
  - vm_compute. discriminate.
Defined.

Section Served.
Import Gin Router.
Variable cfg : Main.Config.
Variable ls : Storage.LocalStorage.
Variable uuid : string.
Variable req : Request.
Variable w : World.

Hypothesis no_preflight : Method req <> "OPTIONS".
Hypothesis key_ok :
  Main.APIKey cfg = "" \/ Api.GetHeader (Headers req) "X-API-Key" = Main.APIKey cfg.

Lemma APIKeyAuth_passes (inner : M Exchange unit) :
  Router.APIKeyAuth (Main.APIKey cfg) req inner = inner.
Proof using key_ok.
  unfold Router.APIKeyAuth. destruct key_ok as [Hopen | Hmatch].
  - rewrite (APIKeyAuth_open _ _ Hopen). reflexivity.
  - destruct (decide (Main.APIKey cfg = "")) as [Hopen | Hkey];
      [rewrite (APIKeyAuth_open _ _ Hopen); reflexivity |].
    rewrite (APIKeyAuth_cases _ _ Hkey). cbv zeta. rewrite Hmatch.
    destruct (decide (Main.APIKey cfg = "")); [contradiction |].
    destruct (decide (Main.APIKey cfg = Main.APIKey cfg)); [reflexivity | contradiction].
Qed.

(** A job route whose handler returns with a status that carries a
    body. *)
Lemma v1_served (m : M World Api.Response) (r : Api.Response) (w1 : World) :
  m (set_clock (fun t => t + 1) w) = (Val r, w1) ->
  200 <= Api.code r -> Api.code r <> 204 -> Api.code r <> 304 ->
  exists rw w',
    Recovery (RequestLogger req (CORS req (Router.APIKeyAuth (Main.APIKey cfg) req (respond m))))
      (writer0, w) = (Val tt, (rw, w')) /\
    rw_status rw = Api.code r /\ rw_body rw = [RenderedJSON (Api.body r)] /\
    has_cors rw /\ same_store w1 w'.
Proof using no_preflight key_ok.
  intros Hm Hcode H204 H304. rewrite APIKeyAuth_passes.
  destruct (respond_run m r (with_cors writer0) _ w1 Hm Hcode H204 H304 eq_refl)
    as (rw & Hrun & Hst & _ & Hbody & Hc).
  destruct (global_run req (respond m) writer0 rw w w1 no_preflight Hrun) as (line & ->).
  exists rw. eexists. split; [reflexivity |].
  split; [exact Hst |]. split; [exact Hbody |].
  split; [apply Hc, (with_cors_has writer0) | repeat split].
Qed.

Lemma CreateJob_code (h : Api.Handler) (file : option Storage.Upload) (w0 : World) :
  exists r w1,
    Api.CreateJob h uuid file w0 = (Val r, w1) /\
    200 <= Api.code r /\ Api.code r <> 204 /\ Api.code r <> 304.
Proof.
  pose proof (CreateJob_outcomes h uuid file w0) as Hout.
  destruct file as [header |]; [| eexists _, _; split; [exact Hout | simpl; lia]].
  cbv zeta in Hout. destruct Hout as (w1 & Hout & _).
  destruct (Storage.Content header);
    [destruct (w_db w0 !! uuid);
     [| destruct Hout as (_ & _ & Hout); destruct (decide _)] |];
    destruct Hout as (Heq & _); eexists _, _; (split; [exact Heq | simpl; lia]).
Qed.

End Served.

(** A request with the key reaches its handler, and the answer of the
    handler is the response.  For every request that is no preflight and
    that carries the configured key, or any request when no key is
    configured, the router runs the handler of the job route that gin
    found, once and on the state as it is but for the clock, and answers
    with the status and the body that the handler gives, adding the
    headers of [CORS]; beyond what the handler does, only the log and the
    clock change. *)
Theorem requests_with_key_reach_handlers (cfg : Main.Config) (ls : Storage.LocalStorage)
    (uuid : string) (req : Router.Request) (w : World) :
  Router.Method req <> "OPTIONS" ->
  (Main.APIKey cfg = "" \/
   Api.GetHeader (Router.Headers req) "X-API-Key" = Main.APIKey cfg) ->
  forall (route : Router.Route) (m : M World Api.Response),
    (route = Router.POST_jobs /\
     m = Api.CreateJob (Api.NewHandler ls) uuid (Router.FormFile req)) \/
    (exists id, route = Router.GET_job id /\ m = Api.GetJob (Api.NewHandler ls) id) \/
    (exists id, route = Router.DELETE_job id /\ m = Api.DeleteJob (Api.NewHandler ls) id) ->
    exists r w1 rw w',
      m (set_clock (fun t => t + 1) w) = (Val r, w1) /\
      Router.SetupRouter cfg ls uuid route req (Gin.writer0, w) = (Val tt, (rw, w')) /\
      Gin.rw_status rw = Api.code r /\
      Gin.rw_body rw = [Gin.RenderedJSON (Api.body r)] /\
      has_cors rw /\ same_store w1 w'.
Proof.
  intros Hm Hkey route m Hroute.
  assert (Hcode : exists r w1,
            m (set_clock (fun t => t + 1) w) = (Val r, w1) /\
            200 <= Api.code r /\ Api.code r <> 204 /\ Api.code r <> 304).
  { destruct Hroute as [(_ & ->) | [(id & _ & ->) | (id & _ & ->)]].
    - apply CreateJob_code.
    - rewrite Api_GetJob_run. eexists _, _. split; [reflexivity |].
      destruct (w_db _ !! id) as [j |]; [destruct (DB.live j) |]; simpl; lia.
    - pose proof (DeleteJob_answer (Api.NewHandler ls) id (set_clock (fun t => t + 1) w))
        as Hans.
      destruct (Api.DeleteJob (Api.NewHandler ls) id (set_clock (fun t => t + 1) w))
        as [r0 w1]. simpl in Hans. subst r0. eexists _, _. split; [reflexivity |].
      destruct (w_db _ !! id) as [j |]; [destruct (DB.live j) |]; simpl; lia. }
  destruct Hcode as (r & w1 & Hrun & Hc & H204 & H304).
  destruct (v1_served cfg req w Hm Hkey m r w1 Hrun Hc H204 H304)
    as (rw & w' & Hserved & Hrest).
  exists r, w1, rw, w'. split; [exact Hrun |]. split; [| exact Hrest].
  unfold Router.SetupRouter.
  destruct Hroute as [(-> & ->) | [(id & -> & ->) | (id & -> & ->)]]; exact Hserved.
Qed.

Lemma requests_with_key_reach_handlers_witness :
  exists rw w',
    Router.SetupRouter sample_config sample_storage "j9" (Router.GET_job "j1")
      (sample_request "GET" "/api/v1/jobs/j1" []) (Gin.writer0, submitted) =
      (Val tt, (rw, w')) /\
    Gin.rw_status rw = 200.
Proof.
  destruct (requests_with_key_reach_handlers sample_config sample_storage "j9"
              (sample_request "GET" "/api/v1/jobs/j1" []) submitted
              ltac:(discriminate) ltac:(left; reflexivity)
              (Router.GET_job "j1") (Api.GetJob (Api.NewHandler sample_storage) "j1")
              ltac:(right; left; exists "j1"; split; reflexivity))
    as (r & w1 & rw & w' & Hrun & Hserved & Hst & _).
  exists rw, w'. split; [exact Hserved |].
  rewrite Hst. vm_compute in Hrun. injection Hrun as <- _. reflexivity.
Defined.

(** A panic below [Recovery] becomes a logged 500.  Whatever the rest of
    a chain does, [Recovery] returns and passes no panic on; where the
    rest returns it changes nothing; where the rest panics it logs the
    panic and writes the body of an internal server error, with status
    500 unless the header had gone out, keeping the headers set so far.
    In the chain of the router a request whose handler panics is logged
    by [Recovery] alone: the line of [RequestLogger] is not written. *)
Theorem Recovery_answers_panics (next : M Gin.Exchange unit)
    (rw0 : Gin.ResponseWriter) (w0 : World) :
  exists rw' w',
    Router.Recovery next (rw0, w0) = (Val tt, (rw', w')) /\
    (forall s1, next (rw0, w0) = (Val tt, s1) -> s1 = (rw', w')) /\
    (forall v rw w, next (rw0, w0) = (Panicked v, (rw, w)) ->
       w' = emit (EvLog ("Panic recovered: " +:+ v)) w /\
       Gin.rw_body rw' =
         Gin.rw_body rw ++ [Gin.RenderedJSON (Api.ErrorBody "internal server error")] /\
       (Gin.rw_written rw = false -> Gin.rw_status rw' = 500) /\
       (has_cors rw -> has_cors rw')) /\
    (forall req rest v rw w,
       Router.Method req <> "OPTIONS" ->
       next = Router.RequestLogger req (Router.CORS req rest) ->
       rest (with_cors rw0, set_clock (fun t => t + 1) w0) = (Panicked v, (rw, w)) ->
       w_trace w' = w_trace w ++ [EvLog ("Panic recovered: " +:+ v)]).
Proof.
  rewrite Recovery_run.
  destruct (next (rw0, w0)) as [[[] | v] [rw w]] eqn:Hnext.
  - exists rw, w. split; [reflexivity |].
    split; [intros s1 [= <-]; reflexivity |].
    split; [intros v rw1 w1 [=] |].
    intros req rest v rw1 w1 Hm -> Hrest.
    rewrite RequestLogger_run, CORS_run in Hnext.
    destruct (decide (Router.Method req = "OPTIONS")); [contradiction |].
    rewrite Hrest in Hnext. discriminate.
  - eexists _, _. split; [reflexivity |].
    split; [intros s1 [=] |].
    split.
    + intros v' rw1 w1 [= <- <- <-]. split; [reflexivity |].
      assert (Hct : forall r,
                Gin.rw_status (Gin.writeContentType Gin.jsonContentType r) = Gin.rw_status r /\
                Gin.rw_body (Gin.writeContentType Gin.jsonContentType r) = Gin.rw_body r).
      { intros r. unfold Gin.writeContentType.
        destruct (Gin.rw_header r !! "Content-Type") as [[| ? ?] |]; auto. }
      destruct (Hct (Gin.WriteHeader 500 rw)) as (Hs & Hb). simpl. rewrite Hs, Hb.
      split.
      { unfold Gin.WriteHeader. simpl.
        destruct (negb (Gin.rw_status rw =? 500)); [destruct (Gin.rw_written rw) |];
          reflexivity. }
      split.
      { intros Hfresh. unfold Gin.WriteHeader. simpl. rewrite Hfresh.
        destruct (Gin.rw_status rw =? 500) eqn:Heq; simpl;
          [apply Z.eqb_eq in Heq; exact Heq | reflexivity]. }
      intros Hc.
      apply (has_cors_same_header
               (Gin.writeContentType Gin.jsonContentType (Gin.WriteHeader 500 rw)));
        [reflexivity |].
      apply has_cors_content_type.
      apply (has_cors_same_header rw); [| exact Hc].
      unfold Gin.WriteHeader. simpl.
      destruct (negb (Gin.rw_status rw =? 500)); [destruct (Gin.rw_written rw) |];
        reflexivity.
    + intros req rest v' rw1 w1 Hm -> Hrest.
      rewrite RequestLogger_run, CORS_run in Hnext.
      destruct (decide (Router.Method req = "OPTIONS")); [contradiction |].
      rewrite Hrest in Hnext. injection Hnext as <- <- <-. reflexivity.
Qed.

(** ** The upload to Drive *)

(** [UploadFile] makes no call on Drive when the local file cannot be
    opened.  Otherwise it does exactly what [UploadFileFromReader] does
    with the content of the file: one [Files.Create] in the configured
    folder and, if that succeeds, one [Permissions.Create] for anyone as
    reader, whose failure is only logged, and one [Files.Get]; it returns
    the id and the link that the [Files.Get] answers, or an error where
    the create or the get fails.  It never deletes what it has created,
    not even when the get fails, and it changes neither the table nor the
    local files nor the queue. *)
Theorem UploadFile_outcomes (gd : Drive.GoogleDriveClient) (filePath fileName : string)
    (calls : list Drive.Call) (w : World) :
  match w_files w !! filePath with
  | None =>
      exists e,
        Drive.UploadFile gd filePath fileName (calls, w) = (Val ("", "", Some e), (calls, w))
  | Some content =>
      Drive.UploadFile gd filePath fileName (calls, w) =
        Drive.UploadFileFromReader gd content fileName (calls, w) /\
      exists id link err made w',
        Drive.UploadFile gd filePath fileName (calls, w) =
          (Val (id, link, err), (calls ++ made, w')) /\
        same_store w w' /\
        match Drive.files_create (Drive.service gd) fileName [Drive.folderID gd] content with
        | (_, Some e) =>
            made = [Drive.FilesCreate fileName [Drive.folderID gd] content] /\
            err = Some ("failed to upload file: " +:+ e) /\ w' = w
        | (created, None) =>
            made = [Drive.FilesCreate fileName [Drive.folderID gd] content;
                    Drive.PermissionsCreate (Drive.Id created) "anyone" "reader";
                    Drive.FilesGet (Drive.Id created) "id, webViewLink"] /\
            match Drive.files_get (Drive.service gd) (Drive.Id created) "id, webViewLink" with
            | (_, Some e) =>
                err = Some ("failed to get file info: " +:+ e) /\ id = "" /\ link = ""
            | (file, None) =>
                err = None /\ id = Drive.Id file /\ link = Drive.WebViewLink file
            end
        end
  end.
Proof.
  destruct (w_files w !! filePath) as [content |] eqn:Hfile.
  - split.
    { unfold Drive.UploadFile. unfold bind at 1, gets. simpl. rewrite Hfile. reflexivity. }
    unfold Drive.UploadFile. unfold bind at 1, gets. simpl. rewrite Hfile.
    unfold bind at 1, Drive.call at 1, modify. simpl.
    destruct (Drive.files_create (Drive.service gd) fileName [Drive.folderID gd] content)
      as [created [e |]].
    + eexists _, _, _, _, _. split; [reflexivity |]. split; [repeat split |].
      repeat split.
    + unfold bind at 1, Drive.call at 1, modify. simpl.
      destruct (Drive.permissions_create (Drive.service gd) (Drive.Id created)
                  "anyone" "reader") as [pe |];
        unfold bind at 1; simpl; unfold bind at 1, Drive.call at 1, modify; simpl;
        (destruct (Drive.files_get (Drive.service gd) (Drive.Id created) "id, webViewLink")
           as [file [ge |]];
         [| unfold bind at 1; simpl];
         eexists _, _, _, _, _;
         (split; [rewrite <- !app_assoc; reflexivity |]);
         (split; [repeat split |]); repeat split).
  - unfold Drive.UploadFile. unfold bind at 1, gets. simpl. rewrite Hfile.
    eexists. reflexivity.
Qed.
